(** * Orbit: ingestion reconciler, scheduler and derived task components

    A shallow embedding of [packages/ingester/src/ingest.ts] together with
    the parts of the store and of the scheduler that its specification talks
    about, and the properties the specification states about them; then
    further properties of the ingester, and the middleware of the API app
    that removes the prefix of the hosting mount point. *)

From Stdlib Require Import QArith Qminmax Lqa.
From stdpp Require Import base option strings pretty gmap list.

Set Default Proof Using "Type".


(** ** JavaScript values *)

(** A JavaScript [number]; the reconciler only copies timestamps and the
    scheduler multiplies and compares intervals, so exact rationals do. *)
Abbreviation number := Q (only parsing).

(** Truthiness of a possibly [undefined] string, as tested by [if (x)]:
    [undefined] and the empty string are falsy. *)
Definition truthy (x : option string) : bool :=
  match x with
  | Some s => negb (String.eqb s "")
  | None => false
  end.

(** ** [Map]: a map that remembers the order in which keys were first set *)

Module JSMap.
Definition t (V : Type) : Type := list (string * V).

Definition empty {V} : t V := [].

Fixpoint get {V} (k : string) (m : t V) : option V :=
  match m with
  | [] => None
  | (k', v) :: m' => if String.eqb k k' then Some v else get k m'
  end.

(** [set] on a key already present replaces the value and keeps the
    position of the entry; a new key is appended. *)
Fixpoint set {V} (k : string) (v : V) (m : t V) : t V :=
  match m with
  | [] => [(k, v)]
  | (k', v') :: m' =>
      if String.eqb k k' then (k', v) :: m' else (k', v') :: set k v m'
  end.

Fixpoint delete {V} (k : string) (m : t V) : t V :=
  match m with
  | [] => []
  | (k', v') :: m' =>
      if String.eqb k k' then m' else (k', v') :: delete k m'
  end.

Definition keys {V} (m : t V) : list string := m.*1.
Definition values {V} (m : t V) : list V := m.*2.
Definition entries {V} (m : t V) : list (string * V) := m.
End JSMap.

(** ** Data model of [@withorbit/core] as the ingester uses it

    The declarations of [@withorbit/core] are not part of the sources. The
    records below have the fields [ingest.ts] reads and writes, and for
    tasks the fields section 3 of the specification lists. *)

Definition TaskID := string.
Definition EventID := string.
Definition IngestibleItemIdentifier := string.

(** Task specs are opaque to the reconciler: it copies them into events. *)
Definition TaskSpec := string.

(** Modelled from the spec: provenance is the source identifier, a
    title, and optionally a url and a color (section 3); these are the
    fields [createIngestTaskForSource] fills. *)
Record TaskProvenance := {
  prov_identifier : string;
  prov_title : string;
  prov_url : option string;
  prov_colorPaletteName : option string;
}.

(** The scheduling state of one component of a task (section 4.2). *)
Record ComponentSchedulingState := {
  css_intervalMillis : number;
  css_dueTimestampMillis : number;
  css_historyCount : nat;
}.

(** Modelled from the spec: a task carries content, provenance,
    per-component scheduling state, a deletion flag and free-form metadata
    (section 3). A task without provenance has [None]. *)
Record Task := {
  task_id : TaskID;
  task_spec : TaskSpec;
  task_provenance : option TaskProvenance;
  task_componentStates : gmap string ComponentSchedulingState;
  task_isDeleted : bool;
  task_metadata : gmap string string;
}.

Record AttachmentReference := {
  att_id : string;
  att_mimeType : string;
}.

Inductive EntityType := EntityType_Task | EntityType_AttachmentReference.

Inductive Entity :=
| Entity_Task (t : Task)
| Entity_AttachmentReference (a : AttachmentReference).

Definition entityID (e : Entity) : string :=
  match e with
  | Entity_Task t => task_id t
  | Entity_AttachmentReference a => att_id a
  end.

Definition typeOfEntity (e : Entity) : EntityType :=
  match e with
  | Entity_Task _ => EntityType_Task
  | Entity_AttachmentReference _ => EntityType_AttachmentReference
  end.

Definition asTask (e : Entity) : option Task :=
  match e with
  | Entity_Task t => Some t
  | Entity_AttachmentReference _ => None
  end.

#[global] Instance Q_eq_dec : EqDecision Q.
Proof. solve_decision. Defined.
#[global] Instance TaskProvenance_eq_dec : EqDecision TaskProvenance.
Proof. solve_decision. Defined.
#[global] Instance ComponentSchedulingState_eq_dec :
  EqDecision ComponentSchedulingState.
Proof. solve_decision. Defined.
#[global] Instance Task_eq_dec : EqDecision Task.
Proof. solve_decision. Defined.
#[global] Instance AttachmentReference_eq_dec : EqDecision AttachmentReference.
Proof. solve_decision. Defined.
#[global] Instance EntityType_eq_dec : EqDecision EntityType.
Proof. solve_decision. Defined.
#[global] Instance Entity_eq_dec : EqDecision Entity.
Proof. solve_decision. Defined.

Record TaskIngestEvent := {
  tie_id : EventID;
  tie_spec : TaskSpec;
  tie_entityID : TaskID;
  tie_timestampMillis : number;
  tie_metadata : gmap string string;
  tie_provenance : TaskProvenance;
}.

Record TaskUpdateDeletedEvent := {
  tde_id : EventID;
  tde_entityID : TaskID;
  tde_timestampMillis : number;
  tde_isDeleted : bool;
}.

Record TaskUpdateProvenanceEvent := {
  tpe_id : EventID;
  tpe_entityID : TaskID;
  tpe_timestampMillis : number;
  tpe_provenance : TaskProvenance;
}.

(** The [type] tag of an event is the constructor. *)
Inductive Event :=
| TaskIngest (e : TaskIngestEvent)
| TaskUpdateDeleted (e : TaskUpdateDeletedEvent)
| TaskUpdateProvenance (e : TaskUpdateProvenanceEvent).

(** ** [./ingestible]

    The declarations of [./ingestible] are not part of the sources; the
    records have the fields [ingest.ts] reads. *)

Record IngestibleItem := {
  item_identifier : IngestibleItemIdentifier;
  item_spec : TaskSpec;
}.

Record IngestibleSource := {
  source_identifier : string;
  source_title : string;
  source_url : option string;
  source_colorPaletteName : option string;
  source_items : list IngestibleItem;
}.

(** ** The store, as far as the ingester sees it *)

Record DatabaseEntityQuery := { entityType : EntityType }.

(** The storage unit of section 3: an entity with its fingerprint. *)
Record DatabaseBackendEntityRecord := {
  entity : Entity;
  lastEventID : EventID;
  lastEventTimestampMillis : number;
}.

#[global] Instance DatabaseBackendEntityRecord_eq_dec :
  EqDecision DatabaseBackendEntityRecord.
Proof. solve_decision. Defined.

(** A row of [derived_taskComponents], keyed by task and component. *)
Record TaskComponentRow := {
  row_taskID : TaskID;
  row_componentID : string;
  row_dueTimestampMillis : number;
}.

#[global] Instance TaskComponentRow_eq_dec : EqDecision TaskComponentRow.
Proof. solve_decision. Defined.

(** Modelled from the spec: the database backend of
    [@withorbit/store-shared] is not part of the sources. Section 6 gives
    its three tables: [events], [entities] keyed by entity id, and the
    derived rows keyed by a composite id. The entity table keeps the order
    in which [listEntities] yields its records. *)
Record Database := {
  db_entities : JSMap.t DatabaseBackendEntityRecord;
  db_events : list Event;
  db_derived_taskComponents : gmap (string * string) TaskComponentRow;
}.

Record OrbitStore := { database : Database }.

(** Modelled from the spec: [listEntities] of section 4.4, the read-only
    query that yields the stored entities of the queried type. *)
Definition listEntitiesOf (query : DatabaseEntityQuery) (db : Database)
  : list Entity :=
  filter (fun e => typeOfEntity e = entityType query)
    (entity <$> JSMap.values (db_entities db)).

(** ** Effects: exceptions, the store, the clock and [generateUniqueID] *)

Inductive Error :=
| MissingItemIdentifierError
| DuplicateItemIdentifierError (identifier : string).

Inductive Result (A : Type) :=
| Ok (a : A)
| Throw (e : Error).
Arguments Ok {A} a.
Arguments Throw {A} e.

(** [generateUniqueID] is not part of the sources: the identifiers it hands
    out are the values [idSource 0], [idSource 1], ... of the world, and
    [idsDrawn] counts the calls made so far. [now] is [Date.now()]. *)
Record World := {
  store : OrbitStore;
  now : number;
  idSource : nat -> string;
  idsDrawn : nat;
}.

Definition M (A : Type) : Type := World -> Result A * World.

Definition ret {A} (a : A) : M A := fun w => (Ok a, w).

Definition bind {A B} (m : M A) (f : A -> M B) : M B :=
  fun w =>
    match m w with
    | (Ok a, w') => f a w'
    | (Throw e, w') => (Throw e, w')
    end.

#[global] Instance M_ret : MRet M := @ret.
#[global] Instance M_bind : MBind M := fun A B f m => bind m f.

Definition liftResult {A} (r : Result A) : M A := fun w => (r, w).

(** A [for ... of] loop over an array or over a map that the body does not
    change, with the variables the body assigns as accumulator. *)
Fixpoint forOf {A X} (body : A -> X -> M A) (xs : list X) (acc : A) : M A :=
  match xs with
  | [] => ret acc
  | x :: xs' => acc' ← body acc x; forOf body xs' acc'
  end.

(** The same loop for a body that only throws. *)
Fixpoint forOfR {A X} (body : A -> X -> Result A) (xs : list X) (acc : A)
  : Result A :=
  match xs with
  | [] => Ok acc
  | x :: xs' =>
      match body acc x with
      | Ok acc' => forOfR body xs' acc'
      | Throw e => Throw e
      end
  end.

Definition generateUniqueID : M string :=
  fun w =>
    (Ok (idSource w (idsDrawn w)),
     {| store := store w; now := now w; idSource := idSource w;
        idsDrawn := S (idsDrawn w) |}).

Definition listEntities (query : DatabaseEntityQuery) : M (list Entity) :=
  fun w => (Ok (listEntitiesOf query (database (store w))), w).

Definition Date_now : M number := fun w => (Ok (now w), w).

(** ** [ingest.ts] *)

Record IngestOptions := { ingestDateMillis : number }.

Definition DEFAULT_OPTIONS : M IngestOptions :=
  t ← Date_now; ret {| ingestDateMillis := t |}.

Definition INGEST_ITEM_IDENTIFIER_KEY : string := "ingestSourceIdentifier".

Definition groupEntitiesByProvenanceIdentifiers (entities : list Task)
  : JSMap.t (list Task) :=
  fold_left
    (fun mapping entity =>
       match task_provenance entity with
       | None => mapping
       | Some provenance =>
           match JSMap.get (prov_identifier provenance) mapping with
           | Some existing =>
               JSMap.set (prov_identifier provenance) (existing ++ [entity])
                 mapping
           | None => JSMap.set (prov_identifier provenance) [entity] mapping
           end
       end)
    entities JSMap.empty.

Definition mapEntitiesByItemIdentifier (entities : list Task)
  : Result (JSMap.t Task) :=
  forOfR
    (fun mapping entity =>
       let itemID := task_metadata entity !! INGEST_ITEM_IDENTIFIER_KEY in
       if truthy itemID
       then Ok (JSMap.set (default "" itemID) entity mapping)
       else Throw MissingItemIdentifierError)
    entities JSMap.empty.

Definition mapIngestibleItemsByItemIdentifier (items : list IngestibleItem)
  : Result (JSMap.t IngestibleItem) :=
  forOfR
    (fun mapping item =>
       match JSMap.get (item_identifier item) mapping with
       | None => Ok (JSMap.set (item_identifier item) item mapping)
       | Some _ => Throw (DuplicateItemIdentifierError (item_identifier item))
       end)
    items JSMap.empty.

(** The provenance object built once per source: [url] and
    [colorPaletteName] are spread in only when truthy on the source. *)
Definition sourceProvenance (source : IngestibleSource) : TaskProvenance :=
  {| prov_identifier := source_identifier source;
     prov_title := source_title source;
     prov_url :=
       if truthy (source_url source) then source_url source else None;
     prov_colorPaletteName :=
       if truthy (source_colorPaletteName source)
       then source_colorPaletteName source else None |}.

Definition createIngestTaskForSource (source : IngestibleSource)
    (insertTimestampMilis : number) (item : IngestibleItem)
  : M TaskIngestEvent :=
  let provenance := sourceProvenance source in
  id ← generateUniqueID;
  entityID ← generateUniqueID;
  ret {| tie_id := id;
         tie_spec := item_spec item;
         tie_entityID := entityID;
         tie_timestampMillis := insertTimestampMilis;
         tie_metadata := {[ INGEST_ITEM_IDENTIFIER_KEY := item_identifier item ]};
         tie_provenance := provenance |}.

Definition createDeleteTaskEvent (task : Task) (timestampMillis : number)
  : M TaskUpdateDeletedEvent :=
  id ← generateUniqueID;
  ret {| tde_id := id;
         tde_entityID := task_id task;
         tde_timestampMillis := timestampMillis;
         tde_isDeleted := true |}.

Definition createUpdateProvenanceEvent (originalEntityId : TaskID)
    (ingestEvent : TaskIngestEvent) : M TaskUpdateProvenanceEvent :=
  id ← generateUniqueID;
  ret {| tpe_id := id;
         tpe_entityID := originalEntityId;
         tpe_timestampMillis := tie_timestampMillis ingestEvent;
         tpe_provenance := tie_provenance ingestEvent |}.

(** The two maps [ingestSources] fills while it walks the sources. *)
Definition EventMaps : Type :=
  JSMap.t TaskIngestEvent * JSMap.t TaskUpdateDeletedEvent.

(** Body of the loop over [sources] (lines 57-97). *)
Definition ingestSource
    (existingGroupedEntities : JSMap.t (list Task)) (timeMillis : number)
    (maps : EventMaps) (source : IngestibleSource) : M EventMaps :=
  let '(ingestEvents, deleteEvents) := maps in
  match JSMap.get (source_identifier source) existingGroupedEntities with
  | Some existingEntity =>
      existingEntitiesByItemIdentifiers ←
        liftResult (mapEntitiesByItemIdentifier existingEntity);
      ingestibleItemsByItemIdentifiers ←
        liftResult (mapIngestibleItemsByItemIdentifier (source_items source));
      ingestEvents ←
        forOf
          (fun ingestEvents '(key, potentialNewItem) =>
             match JSMap.get key existingEntitiesByItemIdentifiers with
             | None =>
                 ev ← createIngestTaskForSource source timeMillis
                         potentialNewItem;
                 ret (JSMap.set key ev ingestEvents)
             | Some _ => ret ingestEvents
             end)
          (JSMap.entries ingestibleItemsByItemIdentifiers) ingestEvents;
      deleteEvents ←
        forOf
          (fun deleteEvents '(key, existingTask) =>
             match JSMap.get key ingestibleItemsByItemIdentifiers with
             | None =>
                 ev ← createDeleteTaskEvent existingTask timeMillis;
                 ret (JSMap.set key ev deleteEvents)
             | Some _ => ret deleteEvents
             end)
          (JSMap.entries existingEntitiesByItemIdentifiers) deleteEvents;
      ret (ingestEvents, deleteEvents)
  | None =>
      ingestEvents ←
        forOf
          (fun ingestEvents item =>
             ingestEvent ← createIngestTaskForSource source timeMillis item;
             ret (JSMap.set (item_identifier item) ingestEvent ingestEvents))
          (source_items source) ingestEvents;
      ret (ingestEvents, deleteEvents)
  end.

(** State of the loop that turns insert/delete pairs into moves. *)
Definition MoveState : Type :=
  JSMap.t TaskIngestEvent * JSMap.t TaskUpdateDeletedEvent
  * list TaskUpdateProvenanceEvent.

(** Body of the loop over [ingestEvents] (lines 101-112). The loop deletes
    only the entry it is visiting, which does not disturb the iteration, so
    it visits the entries the map had when the loop started. *)
Definition detectMove (st : MoveState)
    (entry : string * TaskIngestEvent) : M MoveState :=
  let '(ingestEvents, deleteEvents, updateProvenanceEvents) := st in
  let '(ingestedEventItemIdentifier, ingestEvent) := entry in
  match JSMap.get ingestedEventItemIdentifier deleteEvents with
  | Some deleteEvent =>
      let deleteEvents := JSMap.delete ingestedEventItemIdentifier deleteEvents in
      let ingestEvents := JSMap.delete ingestedEventItemIdentifier ingestEvents in
      ev ← createUpdateProvenanceEvent (tde_entityID deleteEvent) ingestEvent;
      ret (ingestEvents, deleteEvents, updateProvenanceEvents ++ [ev])
  | None => ret st
  end.

(** Everything [ingestSources] does once it has the stored tasks and the
    timestamp: the loop over the sources, then the loop over the moves. *)
Definition classifySources (entities : list Task) (timeMillis : number)
    (sources : list IngestibleSource) : M EventMaps :=
  forOf (ingestSource (groupEntitiesByProvenanceIdentifiers entities) timeMillis)
    sources (JSMap.empty, JSMap.empty).

Definition detectMoves (maps : EventMaps) : M MoveState :=
  forOf detectMove (JSMap.entries (fst maps)) (fst maps, snd maps, []).

Definition concatEvents (st : MoveState) : list Event :=
  let '(ingestEvents, deleteEvents, updateProvenanceEvents) := st in
  (TaskIngest <$> JSMap.values ingestEvents)
  ++ (TaskUpdateDeleted <$> JSMap.values deleteEvents)
  ++ (TaskUpdateProvenance <$> updateProvenanceEvents).

Definition ingestSources (sources : list IngestibleSource)
    (opts : option IngestOptions) : M (list Event) :=
  opts ← match opts with Some o => ret o | None => DEFAULT_OPTIONS end;
  let query := {| entityType := EntityType_Task |} in
  entities ← listEntities query;
  (* the query is a [DatabaseEntityQuery<Task>]: its result is typed as tasks *)
  let entities := omap asTask entities in
  let timeMillis := ingestDateMillis opts in
  maps ← classifySources entities timeMillis sources;
  st ← detectMoves maps;
  ret (concatEvents st).

(** ** Vocabulary of the specification of the reconciler *)

(** The tasks [ingestSources] gets from its query. *)
Definition storedTasks (w : World) : list Task :=
  omap asTask
    (listEntitiesOf {| entityType := EntityType_Task |} (database (store w))).

(** The timestamp of the run: the option when given, else the clock. *)
Definition ingestDateOf (opts : option IngestOptions) (w : World) : number :=
  match opts with
  | Some o => ingestDateMillis o
  | None => now w
  end.

Definition itemIdentifierOf (e : Task) : option string :=
  task_metadata e !! INGEST_ITEM_IDENTIFIER_KEY.

(** A stored task belongs to the source with identifier [i]. *)
Definition fromSource (i : string) (e : Task) : Prop :=
  prov_identifier <$> task_provenance e = Some i.

#[global] Instance fromSource_dec i e : Decision (fromSource i e).
Proof. unfold fromSource. apply _. Defined.

(** The group of existing entities of a source. *)
Definition entitiesOfSource (i : string) (entities : list Task) : list Task :=
  filter (fromSource i) entities.

Definition existingItemIdentifiers (group : list Task) : list string :=
  omap itemIdentifierOf group.

Definition incomingItemIdentifiers (source : IngestibleSource) : list string :=
  item_identifier <$> source_items source.

(** The two set differences of section 4.5, step 2. For a source without
    existing entities every incoming key is only incoming. *)
Definition onlyIncoming (entities : list Task) (source : IngestibleSource)
    (k : string) : Prop :=
  k ∈ incomingItemIdentifiers source
  ∧ k ∉ existingItemIdentifiers
          (entitiesOfSource (source_identifier source) entities).

Definition onlyExisting (entities : list Task) (source : IngestibleSource)
    (k : string) : Prop :=
  k ∈ existingItemIdentifiers
        (entitiesOfSource (source_identifier source) entities)
  ∧ k ∉ incomingItemIdentifiers source.

(** The events of a result that concern an item identifier or an entity. *)
Definition ingestEventsFor (k : string) (events : list Event)
  : list TaskIngestEvent :=
  omap
    (fun ev =>
       match ev with
       | TaskIngest e =>
           if decide (tie_metadata e !! INGEST_ITEM_IDENTIFIER_KEY = Some k)
           then Some e else None
       | _ => None
       end)
    events.

Definition deleteEventsOf (entityID : TaskID) (events : list Event)
  : list TaskUpdateDeletedEvent :=
  omap
    (fun ev =>
       match ev with
       | TaskUpdateDeleted e =>
           if decide (tde_entityID e = entityID) then Some e else None
       | _ => None
       end)
    events.

Definition provenanceUpdatesOf (entityID : TaskID) (events : list Event)
  : list TaskUpdateProvenanceEvent :=
  omap
    (fun ev =>
       match ev with
       | TaskUpdateProvenance e =>
           if decide (tpe_entityID e = entityID) then Some e else None
       | _ => None
       end)
    events.

(** One world is a later state of another: same store, clock and source of
    identifiers, and no fewer identifiers drawn. *)
Definition laterWorld (w w' : World) : Prop :=
  store w' = store w ∧ now w' = now w ∧ idSource w' = idSource w
  ∧ idsDrawn w ≤ idsDrawn w'.

(** The entry [mapIngestibleItemsByItemIdentifier] makes for an item. *)
Definition itemEntry (item : IngestibleItem) : string * IngestibleItem :=
  (item_identifier item, item).

(** Where the events of the two maps come from: an ingest event under key
    [k] was created for an item with identifier [k] of a source for which
    [k] is only incoming, a delete event under [k] for an existing entity
    with item identifier [k] of a source for which [k] is only existing. *)
Definition ingestEventOrigin (entities : list Task) (t : number)
    (sources : list IngestibleSource) (w0 w : World)
    (k : string) (ev : TaskIngestEvent) : Prop :=
  ∃ source item w1 w2,
    source ∈ sources ∧ item ∈ source_items source
    ∧ item_identifier item = k ∧ onlyIncoming entities source k
    ∧ laterWorld w0 w1
    ∧ createIngestTaskForSource source t item w1 = (Ok ev, w2)
    ∧ laterWorld w2 w.

Definition deleteEventOrigin (entities : list Task) (t : number)
    (sources : list IngestibleSource) (w0 w : World)
    (k : string) (ev : TaskUpdateDeletedEvent) : Prop :=
  ∃ source e w1 w2,
    source ∈ sources
    ∧ e ∈ entitiesOfSource (source_identifier source) entities
    ∧ itemIdentifierOf e = Some k ∧ onlyExisting entities source k
    ∧ laterWorld w0 w1
    ∧ createDeleteTaskEvent e t w1 = (Ok ev, w2)
    ∧ laterWorld w2 w.

(** Where a provenance update comes from: the item identifier had an
    ingest event and a delete event in the two maps. *)
Definition moveOrigin (I : JSMap.t TaskIngestEvent)
    (D : JSMap.t TaskUpdateDeletedEvent) (w0 w : World)
    (k : string) (ev : TaskUpdateProvenanceEvent) : Prop :=
  ∃ ingestEvent deleteEvent w1 w2,
    JSMap.get k I = Some ingestEvent ∧ JSMap.get k D = Some deleteEvent
    ∧ laterWorld w0 w1
    ∧ createUpdateProvenanceEvent (tde_entityID deleteEvent) ingestEvent w1
      = (Ok ev, w2)
    ∧ laterWorld w2 w.

(** ** The scheduler *)








(** ** Derived rows and [modifyEntities] *)

Definition rowKey (row : TaskComponentRow) : string * string :=
  (row_taskID row, row_componentID row).

Definition rowOf (task : Task) (entry : string * ComponentSchedulingState)
  : TaskComponentRow :=
  {| row_taskID := task_id task;
     row_componentID := entry.1;
     row_dueTimestampMillis := css_dueTimestampMillis entry.2 |}.

(** The schedulable components of an entity, projected to rows: one row
    per component of a task that is not deleted. *)
Definition liveRows (e : Entity) : list TaskComponentRow :=
  match e with
  | Entity_Task task =>
      if task_isDeleted task then []
      else rowOf task <$> map_to_list (task_componentStates task)
  | Entity_AttachmentReference _ => []
  end.

Record ProjectionDelta := {
  upserts : list TaskComponentRow;
  deletes : list (string * string);
}.

(** Modelled from the spec: the projector of section 4.3 is not part of the
    sources. A row of [next] that [previous] does not have as it is becomes
    an upsert; the key of a row of [previous] for which [next] has no row
    (component removed, or [next] deleted) becomes a delete. *)
Definition project (previous : option Entity) (next : Entity)
  : ProjectionDelta :=
  let before := from_option liveRows [] previous in
  let after := liveRows next in
  {| upserts := filter (fun row => row ∉ before) after;
     deletes :=
       filter (fun key => key ∉ (rowKey <$> after)) (rowKey <$> before) |}.

Definition applyDelta (delta : ProjectionDelta)
    (table : gmap (string * string) TaskComponentRow)
  : gmap (string * string) TaskComponentRow :=
  foldr (fun row table => <[rowKey row := row]> table)
    (foldr delete table (deletes delta))
    (upserts delta).

(** Committing one record of the transform's result, given the record the
    transaction read for the same id. *)
Definition commitRecord (current : JSMap.t DatabaseBackendEntityRecord)
    (db : Database) (entry : string * DatabaseBackendEntityRecord)
  : Database :=
  let '(id, record) := entry in
  let previous := JSMap.get id current in
  if decide (previous = Some record) then db
  else
    {| db_entities := JSMap.set id record (db_entities db);
       db_events := db_events db;
       db_derived_taskComponents :=
         applyDelta (project (entity <$> previous) (entity record))
           (db_derived_taskComponents db) |}.

(** Modelled from the spec: [modifyEntities] of section 4.4 is not part of
    the sources. The transaction reads the current entity map, applies the
    transform to it, and for every record of the result whose state differs
    from before stores the record and applies the projector's delta; a
    transform that fails leaves the database as it was. Locking orders
    concurrent calls and has no effect on a single one. *)
Definition modifyEntities (idsToLock : list string)
    (transform : JSMap.t DatabaseBackendEntityRecord →
                 option (JSMap.t DatabaseBackendEntityRecord))
    (db : Database) : Database :=
  let current := db_entities db in
  match transform current with
  | Some updated => fold_left (commitRecord current) (JSMap.entries updated) db
  | None => db
  end.

(** What section 3 asks of the derived rows: the table holds exactly the
    rows of the live components of the stored entities, each under its
    key. *)
Definition derivedConsistent (db : Database) : Prop :=
  ∀ key row,
    db_derived_taskComponents db !! key = Some row
    ↔ rowKey row = key
      ∧ ∃ id record,
          JSMap.get id (db_entities db) = Some record
          ∧ row ∈ liveRows (entity record).

(** The entity table is a map keyed by the id of the entity. *)
Definition keyedByID (entities : JSMap.t DatabaseBackendEntityRecord) : Prop :=
  NoDup (JSMap.keys entities)
  ∧ ∀ id record,
      JSMap.get id entities = Some record → entityID (entity record) = id.

(** *** The scenario of the backend's tests *)

Definition emptyDatabase : Database :=
  {| db_entities := JSMap.empty; db_events := [];
     db_derived_taskComponents := ∅ |}.

(** Modelled from the spec: [createTestTask] of [@withorbit/sample-data] is
    not part of the sources. Section 8: a task with the two components [a]
    and [b], both due at the given time. *)
Definition createTestTask (id : string) (dueTimestampMillis : number) : Task :=
  let state :=
    {| css_intervalMillis := 0; css_dueTimestampMillis := dueTimestampMillis;
       css_historyCount := 0 |} in
  {| task_id := id;
     task_spec := "test";
     task_provenance := None;
     task_componentStates := {[ "a" := state; "b" := state ]};
     task_isDeleted := false;
     task_metadata := ∅ |}.

Definition testRecord (task : Task) (lastEventID : EventID)
    (lastEventTimestampMillis : number) : DatabaseBackendEntityRecord :=
  {| entity := Entity_Task task; lastEventID := lastEventID;
     lastEventTimestampMillis := lastEventTimestampMillis |}.

Definition testTasks : list DatabaseBackendEntityRecord :=
  [ testRecord (createTestTask "a" 50) "x" 5;
    testRecord (createTestTask "b" 100) "y" 4;
    testRecord (createTestTask "c" 150) "z" 3 ].

(** [new Map(entities.map((e) => [e.entity.id, e]))] *)
Definition mapByID (entities : list DatabaseBackendEntityRecord)
  : JSMap.t DatabaseBackendEntityRecord :=
  fold_left (fun m e => JSMap.set (entityID (entity e)) e m) entities
    JSMap.empty.

Definition putEntities (entities : list DatabaseBackendEntityRecord)
    (db : Database) : Database :=
  modifyEntities [] (fun _ => Some (mapByID entities)) db.

(** The update of the test "modified on update". *)
Definition updatedTask : Task :=
  let task := createTestTask "a" 300 in
  {| task_id := task_id task;
     task_spec := task_spec task;
     task_provenance := task_provenance task;
     task_componentStates := delete "b" (task_componentStates task);
     task_isDeleted := task_isDeleted task;
     task_metadata := task_metadata task |}.

Definition updatedRecord : DatabaseBackendEntityRecord :=
  testRecord updatedTask "y" 20.

Definition modifiedOnUpdate (db : Database) : Database :=
  modifyEntities [task_id updatedTask]
    (fun entityMap => Some (JSMap.set (task_id updatedTask) updatedRecord entityMap))
    db.

(** [fetchAllRowsForTable] followed by the filter on [taskID]. *)
Definition derivedRowsOfTask (taskID : TaskID) (db : Database)
  : list TaskComponentRow :=
  filter (fun row => row_taskID row = taskID)
    (map_to_list (db_derived_taskComponents db)).*2.

(** Selecting from a list by a decidable predicate, as [omap] does in
    [ingestEventsFor] and its siblings. *)
Definition keepIf {A} (P : A → Prop) `{∀ x, Decision (P x)} (x : A)
  : option A :=
  if decide (P x) then Some x else None.

(** ** Sample data *)

Definition sampleIDs (n : nat) : string := "id-" +:+ pretty n.

Definition sampleProvenance (source : string) : TaskProvenance :=
  {| prov_identifier := source; prov_title := "Notes";
     prov_url := None; prov_colorPaletteName := None |}.

(** A stored task with the given id, optionally from a source and
    optionally carrying an item identifier. *)
Definition sampleTask (id : string) (source item : option string) : Task :=
  {| task_id := id;
     task_spec := "spec";
     task_provenance := sampleProvenance <$> source;
     task_componentStates := ∅;
     task_isDeleted := false;
     task_metadata :=
       from_option (fun k => {[ INGEST_ITEM_IDENTIFIER_KEY := k ]}) ∅ item |}.

Definition sampleSource (identifier : string) (items : list string)
  : IngestibleSource :=
  {| source_identifier := identifier;
     source_title := "Notes";
     source_url := None;
     source_colorPaletteName := None;
     source_items :=
       (fun k => {| item_identifier := k; item_spec := "spec" |}) <$> items |}.

Definition sampleDatabase (tasks : list Task) : Database :=
  {| db_entities := mapByID ((fun t => testRecord t "e" 0) <$> tasks);
     db_events := [];
     db_derived_taskComponents := ∅ |}.

Definition sampleWorld (tasks : list Task) : World :=
  {| store := {| database := sampleDatabase tasks |};
     now := 0;
     idSource := sampleIDs;
     idsDrawn := 0 |}.

Definition sampleOptions : option IngestOptions :=
  Some {| ingestDateMillis := 1000 |}.

Definition sampleIngestEvent (n : nat) (source item : string)
  : TaskIngestEvent :=
  {| tie_id := sampleIDs n;
     tie_spec := "spec";
     tie_entityID := sampleIDs (S n);
     tie_timestampMillis := 1000;
     tie_metadata := {[ INGEST_ITEM_IDENTIFIER_KEY := item ]};
     tie_provenance := sampleProvenance source |}.

Definition sampleDeleteEvent (n : nat) (entityID : string)
  : TaskUpdateDeletedEvent :=
  {| tde_id := sampleIDs n; tde_entityID := entityID;
     tde_timestampMillis := 1000; tde_isDeleted := true |}.

Definition sampleProvenanceEvent (n : nat) (entityID source : string)
  : TaskUpdateProvenanceEvent :=
  {| tpe_id := sampleIDs n; tpe_entityID := entityID;
     tpe_timestampMillis := 1000;
     tpe_provenance := sampleProvenance source |}.

(** The world after [n] more identifiers have been drawn. *)
Definition afterDraws (n : nat) (w : World) : World :=
  {| store := store w; now := now w; idSource := idSource w;
     idsDrawn := n + idsDrawn w |}.

(** Source [S] was ingested with the items [a] and [b] and now lists [b]
    and [c]. *)
Definition reingestWorld : World :=
  sampleWorld
    [ sampleTask "task-a" (Some "S") (Some "a");
      sampleTask "task-b" (Some "S") (Some "b") ].
Definition reingestSources : list IngestibleSource :=
  [ sampleSource "S" ["b"; "c"] ].

(** Item [x] was ingested from source [A]; now [A] no longer lists it and
    source [B] does. *)
Definition moveWorld : World :=
  sampleWorld [ sampleTask "task-x" (Some "A") (Some "x") ].
Definition moveSources : list IngestibleSource :=
  [ sampleSource "A" []; sampleSource "B" ["x"] ].

(** An empty store, for sources that were never ingested. *)
Definition newSourceWorld : World := sampleWorld [].

(** A stored task of source [S] that lacks the item identifier. *)
Definition missingWorld : World :=
  sampleWorld [ sampleTask "task-m" (Some "S") None ].

(** The same for source [S2], behind a source [S1] with existing entities
    that lists the identifier [x] twice. *)
Definition duplicateFirstWorld : World :=
  sampleWorld
    [ sampleTask "task-q" (Some "S1") (Some "q");
      sampleTask "task-m" (Some "S2") None ].
Definition duplicateFirstSources : list IngestibleSource :=
  [ sampleSource "S1" ["x"; "x"]; sampleSource "S2" [] ].

(** ** The store as seen by a computation *)

(** The same world over another store. *)
Definition withStore (s : OrbitStore) (w : World) : World :=
  {| store := s; now := now w; idSource := idSource w;
     idsDrawn := idsDrawn w |}.

(** A computation that has nothing to do with the store: over another
    store it gives the same result and leaves that store as it is. *)
Definition storeBlind {A} (m : M A) : Prop :=
  ∀ w s, m (withStore s w) = ((m w).1, withStore s (m w).2).

Definition hasProvenance (e : Task) : Prop := is_Some (task_provenance e).

#[global] Instance hasProvenance_dec e : Decision (hasProvenance e).
Proof. unfold hasProvenance. apply _. Defined.

(** A stored task belongs to one of the sources of a call. *)
Definition fromSources (sources : list IngestibleSource) (e : Task) : Prop :=
  Exists (fun s => fromSource (source_identifier s) e) sources.

#[global] Instance fromSources_dec sources e : Decision (fromSources sources e).
Proof. unfold fromSources. apply _. Defined.

(** The store of [reingestWorld] with an event and a derived row more. *)
Definition reingestStoreWithRows : OrbitStore :=
  {| database :=
       {| db_entities := db_entities (database (store reingestWorld));
          db_events := [TaskUpdateDeleted (sampleDeleteEvent 9 "task-z")];
          db_derived_taskComponents :=
            {[ ("task-z", "a") :=
                 {| row_taskID := "task-z"; row_componentID := "a";
                    row_dueTimestampMillis := 50 |} ]} |} |}.

(** The store of [reingestWorld] with two tasks more: one without
    provenance and without item identifier, one from another source. *)
Definition reingestStoreWithStrangers : OrbitStore :=
  {| database :=
       sampleDatabase
         [ sampleTask "task-0" None None;
           sampleTask "task-a" (Some "S") (Some "a");
           sampleTask "task-t" (Some "T") (Some "a");
           sampleTask "task-b" (Some "S") (Some "b") ] |}.

(** The store of [reingestWorld] with a task more that has neither
    provenance nor item identifier. *)
Definition reingestStoreWithUnprovenanced : OrbitStore :=
  {| database :=
       sampleDatabase
         [ sampleTask "task-0" None None;
           sampleTask "task-a" (Some "S") (Some "a");
           sampleTask "task-b" (Some "S") (Some "b") ] |}.

Definition reingestEvents : list Event :=
  [ TaskIngest (sampleIngestEvent 0 "S" "c");
    TaskUpdateDeleted (sampleDeleteEvent 2 "task-a") ].



(** ** Further vocabulary for the events of a result *)

(** [event.timestampMillis], a field of every type of event. *)
Definition timestampMillis (ev : Event) : number :=
  match ev with
  | TaskIngest e => tie_timestampMillis e
  | TaskUpdateDeleted e => tde_timestampMillis e
  | TaskUpdateProvenance e => tpe_timestampMillis e
  end.

(** The identifiers [generateUniqueID] made for an event: the id of the
    event and, for an ingest event, the id of the task it creates. *)
Definition generatedIDs (ev : Event) : list string :=
  match ev with
  | TaskIngest e => [tie_id e; tie_entityID e]
  | TaskUpdateDeleted e => [tde_id e]
  | TaskUpdateProvenance e => [tpe_id e]
  end.

(** Identifiers without repetition, each of them the identifier the world
    hands out at some call from the [n1]-th up to the [n2]-th. *)
Definition drawnIn (w : World) (n1 n2 : nat) (ids : list string) : Prop :=
  NoDup ids ∧ ∀ id, id ∈ ids → ∃ n, n1 ≤ n < n2 ∧ id = idSource w n.

(** From the state of the world on, [generateUniqueID] never hands out an
    identifier twice. *)
Definition uniqueIDs (w : World) : Prop :=
  ∀ m n, idsDrawn w ≤ m → idsDrawn w ≤ n →
         idSource w m = idSource w n → m = n.

(** The ingest event for the [j]-th item of a source whose items are
    ingested one after the other from the world [w] on: each item draws
    two identifiers, the event's and the new task's. *)
Definition nthIngestEvent (source : IngestibleSource) (t : number) (w : World)
    (j : nat) (item : IngestibleItem) : TaskIngestEvent :=
  {| tie_id := idSource w (2 * j + idsDrawn w);
     tie_spec := item_spec item;
     tie_entityID := idSource w (S (2 * j + idsDrawn w));
     tie_timestampMillis := t;
     tie_metadata := {[ INGEST_ITEM_IDENTIFIER_KEY := item_identifier item ]};
     tie_provenance := sourceProvenance source |}.

(** ** Further sample data *)

(** Two stored tasks of source [S] that carry the same item identifier. *)
Definition sharedIdentifierGroup : list Task :=
  [ sampleTask "task-1" (Some "S") (Some "a");
    sampleTask "task-2" (Some "S") (Some "a") ].

(** Source [S] of [reingestWorld] listing the items it was ingested with,
    in another order. *)
Definition unchangedSources : list IngestibleSource :=
  [ sampleSource "S" ["b"; "a"] ].

(** A source that was never ingested and lists the identifier [x] twice,
    with two specs. *)
Definition twiceListedSource : IngestibleSource :=
  {| source_identifier := "N";
     source_title := "Notes";
     source_url := None;
     source_colorPaletteName := None;
     source_items :=
       [ {| item_identifier := "x"; item_spec := "first" |};
         {| item_identifier := "x"; item_spec := "second" |} ] |}.

Definition twiceListedEvent : TaskIngestEvent :=
  {| tie_id := sampleIDs 2;
     tie_spec := "second";
     tie_entityID := sampleIDs 3;
     tie_timestampMillis := 1000;
     tie_metadata := {[ INGEST_ITEM_IDENTIFIER_KEY := "x" ]};
     tie_provenance := sampleProvenance "N" |}.

(** Sources [S] and [T] each have a stored task with the item identifier
    [a], and neither lists it any more. *)
Definition sharedKeyWorld : World :=
  sampleWorld
    [ sampleTask "task-a" (Some "S") (Some "a");
      sampleTask "task-t" (Some "T") (Some "a") ].
Definition sharedKeySources : list IngestibleSource :=
  [ sampleSource "S" []; sampleSource "T" [] ].

(** Source [S] re-ingested as in [reingestSources], in one call with a
    source [T] that lists the item it was ingested with, over the store
    that holds the tasks of both. *)
Definition reingestAmongOthersWorld : World :=
  withStore reingestStoreWithStrangers reingestWorld.
Definition reingestAmongOthersSources : list IngestibleSource :=
  [ sampleSource "S" ["b"; "c"]; sampleSource "T" ["a"] ].

(** A source that was never ingested, with a url and with the empty
    string as color palette name, in one call with another such source
    listing another item. *)
Definition linkedSource : IngestibleSource :=
  {| source_identifier := "N";
     source_title := "Notes";
     source_url := Some "https://example.org/notes";
     source_colorPaletteName := Some "";
     source_items :=
       [ {| item_identifier := "p"; item_spec := "spec of p" |};
         {| item_identifier := "q"; item_spec := "spec of q" |} ] |}.

Definition linkedIngestEvent (n : nat) (item spec : string) : TaskIngestEvent :=
  {| tie_id := sampleIDs n;
     tie_spec := spec;
     tie_entityID := sampleIDs (S n);
     tie_timestampMillis := 1000;
     tie_metadata := {[ INGEST_ITEM_IDENTIFIER_KEY := item ]};
     tie_provenance :=
       {| prov_identifier := "N"; prov_title := "Notes";
          prov_url := Some "https://example.org/notes";
          prov_colorPaletteName := None |} |}.

Definition linkedEvents : list Event :=
  [ TaskIngest (linkedIngestEvent 0 "p" "spec of p");
    TaskIngest (linkedIngestEvent 2 "q" "spec of q");
    TaskIngest (sampleIngestEvent 4 "L" "r") ].

(** Two sources that were never ingested and list the same identifier. *)
Definition twoNewSources : list IngestibleSource :=
  [ sampleSource "N1" ["x"]; sampleSource "N2" ["x"] ].

(** ** The API app

    What the first middleware of [createAPIApp] reads and writes of a
    request: the header [x-forwarded-host] and the url. *)

Record Request := {
  request_forwardedHost : option string;
  request_url : string;
}.

(** [s.startsWith(prefix)] and [s.slice(start)] *)
Definition startsWith (s prefix : string) : bool := String.prefix prefix s.

Definition slice (s : string) (start : nat) : string :=
  String.substring start (String.length s - start) s.

(** The middleware that removes the prefix of the hosting mount point
    from the url of a request that was routed through it. *)
Definition removeMountPrefix (request : Request) : Request :=
  if truthy (request_forwardedHost request)
     && startsWith (request_url request) "/api"
  then {| request_forwardedHost := request_forwardedHost request;
          request_url := slice (request_url request) (String.length "/api") |}
  else request.

(** * Properties *)

(** ** The insertion-ordered map *)

Ltac case_eqb :=
  match goal with
  | |- context [String.eqb ?a ?b] =>
      destruct (String.eqb_spec a b); try subst
  | H : context [String.eqb ?a ?b] |- _ =>
      destruct (String.eqb_spec a b); try subst
  end.

Section jsmap.
Context {V : Type}.
Implicit Types (m : JSMap.t V) (k : string) (v : V).

Lemma get_set_eq m k v : JSMap.get k (JSMap.set k v m) = Some v.
Proof.
  induction m as [|[k' v'] m IH]; simpl; repeat (case_eqb; simpl); done.
Qed.

Lemma get_set_ne m k k' v :
  k ≠ k' → JSMap.get k' (JSMap.set k v m) = JSMap.get k' m.
Proof.
  intros Hne. induction m as [|[k1 v1] m IH]; simpl;
    repeat (case_eqb; simpl); done.
Qed.

Lemma get_set m k k' v :
  JSMap.get k' (JSMap.set k v m)
  = if decide (k = k') then Some v else JSMap.get k' m.
Proof.
  case_decide; subst; [apply get_set_eq | by apply get_set_ne].
Qed.

Lemma get_None m k : JSMap.get k m = None ↔ k ∉ JSMap.keys m.
Proof.
  unfold JSMap.keys. induction m as [|[k' v'] m IH]; simpl.
  - split; [intros _; apply not_elem_of_nil | done].
  - rewrite not_elem_of_cons. case_eqb; [|tauto].
    split; [done | intros [? _]; done].
Qed.

Lemma get_is_Some m k : is_Some (JSMap.get k m) ↔ k ∈ JSMap.keys m.
Proof.
  rewrite <- not_eq_None_Some, get_None.
  destruct (decide (k ∈ JSMap.keys m)); tauto.
Qed.

Lemma get_Some_elem_of m k v : JSMap.get k m = Some v → (k, v) ∈ m.
Proof.
  induction m as [|[k' v'] m IH]; simpl; [done|].
  case_eqb.
  - intros [= ->]. left.
  - intros. right. auto.
Qed.

Lemma get_Some_key m k v : JSMap.get k m = Some v → k ∈ JSMap.keys m.
Proof. intros H. apply get_is_Some. by exists v. Qed.

Lemma elem_of_get_Some m k v :
  NoDup (JSMap.keys m) → (k, v) ∈ m → JSMap.get k m = Some v.
Proof.
  unfold JSMap.keys. induction m as [|[k' v'] m IH]; simpl.
  - intros _ H. by apply elem_of_nil in H.
  - rewrite NoDup_cons. intros [Hk Hnd] [Heq|Hin]%elem_of_cons.
    + injection Heq as -> ->. by case_eqb.
    + case_eqb; [|by auto].
      destruct Hk. apply list_elem_of_fmap. by exists (k', v).
Qed.

Lemma keys_set m k v :
  JSMap.keys (JSMap.set k v m)
  = if decide (k ∈ JSMap.keys m) then JSMap.keys m else JSMap.keys m ++ [k].
Proof.
  unfold JSMap.keys. induction m as [|[k' v'] m IH].
  - by rewrite decide_False by apply not_elem_of_nil.
  - cbn [JSMap.set]. case_eqb.
    + by rewrite decide_True by (rewrite fmap_cons; left).
    + rewrite !fmap_cons, IH. cbn [fst].
      destruct (decide (k ∈ m.*1)).
      * by rewrite decide_True by (by right).
      * rewrite decide_False; [done|]. rewrite not_elem_of_cons. done.
Qed.

Lemma elem_of_keys_set m k k' v :
  k' ∈ JSMap.keys (JSMap.set k v m) ↔ k' = k ∨ k' ∈ JSMap.keys m.
Proof.
  rewrite keys_set. case_decide.
  - split; [tauto | intros [->|?]; done].
  - rewrite elem_of_app, list_elem_of_singleton. tauto.
Qed.

Lemma NoDup_keys_empty : NoDup (JSMap.keys (@JSMap.empty V)).
Proof. apply NoDup_nil_2. Qed.

Lemma NoDup_keys_set m k v :
  NoDup (JSMap.keys m) → NoDup (JSMap.keys (JSMap.set k v m)).
Proof.
  intros Hnd. rewrite keys_set. case_decide; [done|].
  apply NoDup_app. split_and!; [done| |apply NoDup_singleton].
  intros x Hx ->%list_elem_of_singleton. done.
Qed.

Lemma keys_delete_subseteq m k :
  JSMap.keys (JSMap.delete k m) ⊆ JSMap.keys m.
Proof.
  unfold JSMap.keys. induction m as [|[k' v'] m IH]; simpl; [done|].
  case_eqb; simpl.
  - by apply list_subseteq_cons.
  - by apply list_subseteq_skip.
Qed.

Lemma NoDup_keys_delete m k :
  NoDup (JSMap.keys m) → NoDup (JSMap.keys (JSMap.delete k m)).
Proof.
  unfold JSMap.keys. induction m as [|[k' v'] m IH]; simpl; [done|].
  rewrite NoDup_cons. intros [Hk Hnd]. case_eqb; simpl; [done|].
  apply NoDup_cons. split; [|auto].
  intros Hin. apply Hk. by apply (keys_delete_subseteq m k).
Qed.

Lemma get_delete_eq m k :
  NoDup (JSMap.keys m) → JSMap.get k (JSMap.delete k m) = None.
Proof.
  unfold JSMap.keys. induction m as [|[k' v'] m IH]; simpl; [done|].
  rewrite NoDup_cons. intros [Hk Hnd]. case_eqb; simpl.
  - by apply get_None.
  - case_eqb; [done|]. auto.
Qed.

Lemma get_delete_ne m k k' :
  k ≠ k' → JSMap.get k' (JSMap.delete k m) = JSMap.get k' m.
Proof.
  intros Hne. induction m as [|[k1 v1] m IH]; simpl; [done|].
  repeat (case_eqb; simpl); done.
Qed.

Lemma get_delete m k k' :
  NoDup (JSMap.keys m) →
  JSMap.get k' (JSMap.delete k m)
  = if decide (k = k') then None else JSMap.get k' m.
Proof.
  intros Hnd. case_decide; subst;
    [by apply get_delete_eq | by apply get_delete_ne].
Qed.

Lemma elem_of_values m v :
  NoDup (JSMap.keys m) →
  v ∈ JSMap.values m ↔ ∃ k, JSMap.get k m = Some v.
Proof.
  intros Hnd. unfold JSMap.values. rewrite list_elem_of_fmap. split.
  - intros ([k v'] & -> & Hin). exists k. by apply elem_of_get_Some.
  - intros [k Hk%get_Some_elem_of]. by exists (k, v).
Qed.
End jsmap.

(** ** The effects *)

Lemma bind_unfold {A B} (m : M A) (f : A → M B) w :
  (m ≫= f) w
  = match m w with
    | (Ok a, w') => f a w'
    | (Throw e, w') => (Throw e, w')
    end.
Proof. done. Qed.

Lemma bind_Ok {A B} (m : M A) (f : A → M B) w b w' :
  (m ≫= f) w = (Ok b, w') ↔ ∃ a w1, m w = (Ok a, w1) ∧ f a w1 = (Ok b, w').
Proof.
  rewrite bind_unfold. destruct (m w) as [[a|e] w1]; split.
  - intros. by exists a, w1.
  - by intros (? & ? & [= <- <-] & ?).
  - done.
  - by intros (? & ? & [=] & ?).
Qed.

Lemma ret_Ok {A} (a b : A) w w' : ret a w = (Ok b, w') ↔ a = b ∧ w = w'.
Proof. unfold ret. split; [by intros [= -> ->] | by intros [-> ->]]. Qed.

#[global] Instance laterWorld_refl : Reflexive laterWorld.
Proof. by intros w. Qed.

#[global] Instance laterWorld_trans : Transitive laterWorld.
Proof.
  intros w1 w2 w3 (? & ? & ? & ?) (? & ? & ? & ?).
  unfold laterWorld. split_and!; try congruence. lia.
Qed.

(** The loop invariant rule for [forOf]: an invariant indexed by the
    elements visited so far. *)
Lemma forOf_invariant {A X} (body : A → X → M A)
    (Inv : list X → A → World → Prop) xs acc w acc' w' :
  forOf body xs acc w = (Ok acc', w') →
  Inv [] acc w →
  (∀ pre x post a w1 a' w2,
     xs = pre ++ x :: post → Inv pre a w1 → body a x w1 = (Ok a', w2) →
     Inv (pre ++ [x]) a' w2) →
  Inv xs acc' w'.
Proof.
  intros Hrun Hinit Hstep.
  cut (∀ post pre a w1, xs = pre ++ post → Inv pre a w1 →
         forOf body post a w1 = (Ok acc', w') → Inv xs acc' w').
  { intros Hgen. by apply (Hgen xs [] acc w). }
  clear Hrun Hinit. induction post as [|x post IH]; intros pre a w1 Hxs Hinv.
  - simpl. intros [-> ->]%ret_Ok. by rewrite Hxs, app_nil_r.
  - simpl. intros (a' & w2 & Hbody & Hrest)%bind_Ok.
    apply (IH (pre ++ [x]) a' w2); [by rewrite <- app_assoc| |done].
    by apply (Hstep pre x post a w1).
Qed.

Lemma forOfR_invariant {A X} (body : A → X → Result A)
    (Inv : list X → A → Prop) xs acc acc' :
  forOfR body xs acc = Ok acc' →
  Inv [] acc →
  (∀ pre x post a a',
     xs = pre ++ x :: post → Inv pre a → body a x = Ok a' →
     Inv (pre ++ [x]) a') →
  Inv xs acc'.
Proof.
  intros Hrun Hinit Hstep.
  cut (∀ post pre a, xs = pre ++ post → Inv pre a →
         forOfR body post a = Ok acc' → Inv xs acc').
  { intros Hgen. by apply (Hgen xs [] acc). }
  clear Hrun Hinit. induction post as [|x post IH]; intros pre a Hxs Hinv.
  - simpl. intros [= ->]. by rewrite Hxs, app_nil_r.
  - simpl. destruct (body a x) as [a'|e] eqn:Hbody; [|done]. intros Hrest.
    apply (IH (pre ++ [x]) a'); [by rewrite <- app_assoc| |done].
    by apply (Hstep pre x post a).
Qed.

(** ** Grouping the stored tasks *)

Lemma groupEntitiesByProvenanceIdentifiers_get entities i :
  JSMap.get i (groupEntitiesByProvenanceIdentifiers entities)
  = match entitiesOfSource i entities with
    | [] => None
    | group => Some group
    end.
Proof.
  unfold groupEntitiesByProvenanceIdentifiers, entitiesOfSource.
  induction entities as [|e es IH] using rev_ind; [done|].
  rewrite fold_left_app, filter_app. cbn [fold_left].
  set (G := fold_left _ es _) in *.
  rewrite filter_cons, filter_nil.
  destruct (decide (fromSource i e)) as [Hi|Hi]; unfold fromSource in Hi.
  - destruct (task_provenance e) as [p|]; [|done].
    injection Hi as ->. rewrite IH.
    destruct (filter _ es) as [|e0 g]; by rewrite get_set_eq.
  - rewrite app_nil_r, <- IH.
    destruct (task_provenance e) as [p|]; [|done].
    assert (prov_identifier p ≠ i) by (intros Heq; apply Hi; by rewrite <- Heq).
    by destruct (JSMap.get (prov_identifier p) G); rewrite get_set_ne.
Qed.

(** ** Loops that fill a map *)

(** The three loops of [ingestSources] that fill [ingestEvents] or
    [deleteEvents] have the same shape: for the elements that satisfy a
    condition, an event is created and set under the key of the element. *)
Section set_loops.
Context {X V : Type}.
Variable body : JSMap.t V → X → M (JSMap.t V).
Variable key : X → string.
Variable C : X → Prop.
Variable R : X → V → World → World → Prop.

Hypothesis body_spec : ∀ acc x w acc' w',
  body acc x w = (Ok acc', w') →
  (¬ C x ∧ acc' = acc ∧ w' = w)
  ∨ (C x ∧ ∃ v, acc' = JSMap.set (key x) v acc ∧ R x v w w').
Hypothesis R_later : ∀ x v w w', R x v w w' → laterWorld w w'.

Lemma forOf_set_spec xs acc w acc' w' :
  forOf body xs acc w = (Ok acc', w') →
  laterWorld w w'
  ∧ (NoDup (JSMap.keys acc) → NoDup (JSMap.keys acc'))
  ∧ (∀ k, k ∈ JSMap.keys acc'
          ↔ k ∈ JSMap.keys acc ∨ ∃ x, x ∈ xs ∧ C x ∧ key x = k)
  ∧ (∀ k v, JSMap.get k acc' = Some v →
       JSMap.get k acc = Some v
       ∨ ∃ x w1 w2, x ∈ xs ∧ C x ∧ key x = k
                    ∧ laterWorld w w1 ∧ R x v w1 w2 ∧ laterWorld w2 w').
Proof using body_spec R_later.
  intros Hrun.
  apply (forOf_invariant body
    (λ pre a w1,
       laterWorld w w1
       ∧ (NoDup (JSMap.keys acc) → NoDup (JSMap.keys a))
       ∧ (∀ k, k ∈ JSMap.keys a
               ↔ k ∈ JSMap.keys acc ∨ ∃ x, x ∈ pre ∧ C x ∧ key x = k)
       ∧ (∀ k v, JSMap.get k a = Some v →
            JSMap.get k acc = Some v
            ∨ ∃ x wa wb, x ∈ pre ∧ C x ∧ key x = k
                         ∧ laterWorld w wa ∧ R x v wa wb
                         ∧ laterWorld wb w1)) _ _ _ _ _ Hrun).
  - split_and!; [done|done| |by left].
    intros k. split; [by left|]. intros [? | (x & Hx & _)]; [done|].
    by apply elem_of_nil in Hx.
  - intros pre x post a w1 a' w2 _ (Hl & Hnd & Hkeys & Hget) Hbody.
    destruct (body_spec _ _ _ _ _ Hbody)
      as [(HnC & -> & ->)|(HC & v & -> & HR)].
    + split_and!; [done|done| |].
      * intros k. rewrite Hkeys. split; intros [? | (y & Hy & ? & ?)];
          [by left| |by left|].
        -- right. exists y. by rewrite elem_of_app; auto.
        -- right. exists y. split; [|done].
           apply elem_of_app in Hy as [?| ->%list_elem_of_singleton]; done.
      * intros k v Hk. destruct (Hget k v Hk)
          as [? | (y & wa & wb & ? & ? & ? & ? & ? & ?)]; [by left|].
        right. exists y, wa, wb. rewrite elem_of_app. auto 10.
    + pose proof (R_later _ _ _ _ HR) as Hl'.
      split_and!.
      * by etrans.
      * intros ?. apply NoDup_keys_set; auto.
      * intros k. rewrite elem_of_keys_set, Hkeys. split.
        -- intros [->|[? | (y & ? & ? & ?)]]; [|by left|].
           ++ right. exists x. rewrite elem_of_app, list_elem_of_singleton.
              auto.
           ++ right. exists y. rewrite elem_of_app. auto.
        -- intros [? | (y & Hy & ? & ?)]; [auto|].
           apply elem_of_app in Hy as [?| ->%list_elem_of_singleton];
             [|auto]. right. right. by exists y.
      * intros k v'. rewrite get_set. case_decide as Hk.
        -- intros [= <-]. right. exists x, w1, w2.
           rewrite elem_of_app, list_elem_of_singleton.
           split_and!; try done; auto.
        -- intros Hget'. destruct (Hget k v' Hget')
             as [? | (y & wa & wb & ? & ? & ? & ? & ? & ?)]; [by left|].
           right. exists y, wa, wb. rewrite elem_of_app.
           split_and!; auto. by etrans.
Qed.
End set_loops.

(** ** The two keyed mappings *)

Lemma set_fresh {V} (m : JSMap.t V) k v :
  JSMap.get k m = None → JSMap.set k v m = m ++ [(k, v)].
Proof.
  induction m as [|[k' v'] m IH]; simpl; [done|].
  case_eqb; [done|]. intros Hk. by rewrite IH.
Qed.

Lemma truthy_Some x : truthy x = true → ∃ s, x = Some s ∧ s ≠ "".
Proof.
  destruct x as [s|]; [|done]. simpl. intros Hs. exists s. split; [done|].
  intros ->. done.
Qed.

Lemma mapEntitiesByItemIdentifier_Ok group E :
  mapEntitiesByItemIdentifier group = Ok E →
  NoDup (JSMap.keys E)
  ∧ (∀ k, k ∈ JSMap.keys E ↔ k ∈ existingItemIdentifiers group)
  ∧ (∀ k e, JSMap.get k E = Some e → e ∈ group ∧ itemIdentifierOf e = Some k).
Proof.
  intros Hrun.
  apply (forOfR_invariant _
    (λ pre a,
       NoDup (JSMap.keys a)
       ∧ (∀ k, k ∈ JSMap.keys a ↔ k ∈ existingItemIdentifiers pre)
       ∧ (∀ k e, JSMap.get k a = Some e →
            e ∈ pre ∧ itemIdentifierOf e = Some k)) _ _ _ Hrun).
  - split_and!; [apply NoDup_nil_2|done|done].
  - intros pre x post a a' _ (Hnd & Hkeys & Hget). cbv beta zeta.
    fold (itemIdentifierOf x).
    destruct (truthy (itemIdentifierOf x)) eqn:Ht; [|done].
    apply truthy_Some in Ht as (i & Hi & _). rewrite Hi. simpl.
    intros [= <-]. split_and!.
    + by apply NoDup_keys_set.
    + intros k. rewrite elem_of_keys_set, Hkeys.
      unfold existingItemIdentifiers. rewrite omap_app, elem_of_app. simpl.
      rewrite Hi, list_elem_of_singleton. tauto.
    + intros k e. rewrite get_set, elem_of_app, list_elem_of_singleton.
      case_decide as Hk.
      * intros [= <-]. subst. auto.
      * intros [??]%Hget. auto.
Qed.

Lemma mapEntitiesByItemIdentifier_Throw group err :
  mapEntitiesByItemIdentifier group = Throw err →
  err = MissingItemIdentifierError.
Proof.
  unfold mapEntitiesByItemIdentifier. generalize (@JSMap.empty Task).
  induction group as [|e g IH]; intros acc; simpl; [done|].
  destruct (truthy _); [apply IH | by intros [= <-]].
Qed.

Lemma mapEntitiesByItemIdentifier_missing group e :
  e ∈ group → truthy (itemIdentifierOf e) = false →
  mapEntitiesByItemIdentifier group = Throw MissingItemIdentifierError.
Proof.
  intros Hin He.
  destruct (mapEntitiesByItemIdentifier group) as [E|err] eqn:Hrun.
  - exfalso. revert Hrun. unfold mapEntitiesByItemIdentifier.
    generalize (@JSMap.empty Task).
    induction group as [|e' g IH]; intros acc; simpl.
    + by apply elem_of_nil in Hin.
    + fold (itemIdentifierOf e').
      apply elem_of_cons in Hin as [<-|Hin]; [by rewrite He|].
      destruct (truthy (itemIdentifierOf e')); [by apply IH | done].
  - by apply mapEntitiesByItemIdentifier_Throw in Hrun as ->.
Qed.

Lemma mapEntitiesByItemIdentifier_total group :
  (∀ e, e ∈ group → truthy (itemIdentifierOf e) = true) →
  ∃ E, mapEntitiesByItemIdentifier group = Ok E.
Proof.
  unfold mapEntitiesByItemIdentifier. generalize (@JSMap.empty Task).
  induction group as [|e g IH]; intros acc Hall; simpl; [by eexists|].
  fold (itemIdentifierOf e). rewrite (Hall e) by left.
  apply IH. intros e' He'. apply Hall. by right.
Qed.

Lemma mapIngestibleItemsByItemIdentifier_Ok items N :
  mapIngestibleItemsByItemIdentifier items = Ok N →
  N = itemEntry <$> items ∧ NoDup (item_identifier <$> items).
Proof.
  intros Hrun.
  apply (forOfR_invariant _
    (λ pre a, a = itemEntry <$> pre ∧ NoDup (item_identifier <$> pre))
    _ _ _ Hrun).
  - split; [done|apply NoDup_nil_2].
  - intros pre x post a a' _ [-> Hnd]. cbv beta.
    destruct (JSMap.get _ _) eqn:Hget; [done|]. intros [= <-].
    rewrite (set_fresh _ _ _ Hget), !fmap_app. split; [done|].
    apply NoDup_app. split_and!; [done| |apply NoDup_singleton].
    intros k Hk ->%list_elem_of_singleton.
    apply get_None in Hget. apply Hget. unfold JSMap.keys.
    by rewrite <- list_fmap_compose.
Qed.

Lemma mapIngestibleItemsByItemIdentifier_Throw items err :
  mapIngestibleItemsByItemIdentifier items = Throw err →
  (∃ k, err = DuplicateItemIdentifierError k)
  ∧ ¬ NoDup (item_identifier <$> items).
Proof.
  unfold mapIngestibleItemsByItemIdentifier.
  cut (∀ pre, forOfR
    (λ mapping item,
       match JSMap.get (item_identifier item) mapping with
       | Some _ => Throw (DuplicateItemIdentifierError (item_identifier item))
       | None => Ok (JSMap.set (item_identifier item) item mapping)
       end) items (itemEntry <$> pre) = Throw err →
    (∃ k, err = DuplicateItemIdentifierError k)
    ∧ ¬ NoDup (item_identifier <$> (pre ++ items))).
  { intros H. apply (H []). }
  induction items as [|x items IH]; intros pre; simpl; [done|].
  destruct (JSMap.get _ _) eqn:Hget.
  - intros [= <-]. split; [by eexists|].
    rewrite fmap_app, fmap_cons. intros Hnd%NoDup_app.
    destruct Hnd as (_ & Hdisj & _). apply (Hdisj (item_identifier x)).
    + apply get_Some_key in Hget. unfold JSMap.keys in Hget.
      by rewrite <- list_fmap_compose in Hget.
    + left.
  - rewrite (set_fresh _ _ _ Hget).
    change [(item_identifier x, x)] with (itemEntry <$> [x]).
    rewrite <- fmap_app. intros [? Hnd]%IH. split; [done|].
    by rewrite <- app_assoc in Hnd.
Qed.

Lemma mapIngestibleItemsByItemIdentifier_total items :
  NoDup (item_identifier <$> items) →
  mapIngestibleItemsByItemIdentifier items = Ok (itemEntry <$> items).
Proof.
  intros Hnd.
  destruct (mapIngestibleItemsByItemIdentifier items) as [N|err] eqn:Hrun.
  - by apply mapIngestibleItemsByItemIdentifier_Ok in Hrun as [-> _].
  - by apply mapIngestibleItemsByItemIdentifier_Throw in Hrun as [_ []].
Qed.

(** ** Creating events *)

Lemma generateUniqueID_later w i w' :
  generateUniqueID w = (Ok i, w') → laterWorld w w'.
Proof.
  intros [= <- <-]. unfold laterWorld. simpl. split_and!; [done..|lia].
Qed.

Lemma createIngestTaskForSource_Ok source t item w ev w' :
  createIngestTaskForSource source t item w = (Ok ev, w') →
  tie_id ev = idSource w (idsDrawn w)
  ∧ tie_entityID ev = idSource w (S (idsDrawn w))
  ∧ tie_spec ev = item_spec item
  ∧ tie_timestampMillis ev = t
  ∧ tie_metadata ev = {[ INGEST_ITEM_IDENTIFIER_KEY := item_identifier item ]}
  ∧ tie_provenance ev = sourceProvenance source
  ∧ idsDrawn w' = S (S (idsDrawn w))
  ∧ laterWorld w w'.
Proof.
  intros [= <- <-]. unfold laterWorld. simpl. split_and!; [done..|lia].
Qed.

Lemma createIngestTaskForSource_total source t item w :
  ∃ ev w', createIngestTaskForSource source t item w = (Ok ev, w').
Proof. by eexists _, _. Qed.

Lemma createDeleteTaskEvent_Ok task t w ev w' :
  createDeleteTaskEvent task t w = (Ok ev, w') →
  tde_id ev = idSource w (idsDrawn w)
  ∧ tde_entityID ev = task_id task
  ∧ tde_timestampMillis ev = t
  ∧ tde_isDeleted ev = true
  ∧ idsDrawn w' = S (idsDrawn w)
  ∧ laterWorld w w'.
Proof.
  intros [= <- <-]. unfold laterWorld. simpl. split_and!; [done..|lia].
Qed.

Lemma createUpdateProvenanceEvent_Ok originalEntityId ingestEvent w ev w' :
  createUpdateProvenanceEvent originalEntityId ingestEvent w = (Ok ev, w') →
  tpe_id ev = idSource w (idsDrawn w)
  ∧ tpe_entityID ev = originalEntityId
  ∧ tpe_timestampMillis ev = tie_timestampMillis ingestEvent
  ∧ tpe_provenance ev = tie_provenance ingestEvent
  ∧ idsDrawn w' = S (idsDrawn w)
  ∧ laterWorld w w'.
Proof.
  intros [= <- <-]. unfold laterWorld. simpl. split_and!; [done..|lia].
Qed.

(** ** One source *)

Lemma liftResult_Ok {A} (r : Result A) w a w' :
  liftResult r w = (Ok a, w') ↔ r = Ok a ∧ w' = w.
Proof. unfold liftResult. split; [by intros [= -> ->] | by intros [-> ->]]. Qed.

Lemma ingestSource_spec entities t I D source w I' D' w' :
  ingestSource (groupEntitiesByProvenanceIdentifiers entities) t (I, D)
    source w = (Ok (I', D'), w') →
  laterWorld w w'
  ∧ (NoDup (JSMap.keys I) → NoDup (JSMap.keys I'))
  ∧ (NoDup (JSMap.keys D) → NoDup (JSMap.keys D'))
  ∧ (∀ k, k ∈ JSMap.keys I'
          ↔ k ∈ JSMap.keys I ∨ onlyIncoming entities source k)
  ∧ (∀ k, k ∈ JSMap.keys D'
          ↔ k ∈ JSMap.keys D ∨ onlyExisting entities source k)
  ∧ (∀ k ev, JSMap.get k I' = Some ev →
       JSMap.get k I = Some ev
       ∨ ingestEventOrigin entities t [source] w w' k ev)
  ∧ (∀ k ev, JSMap.get k D' = Some ev →
       JSMap.get k D = Some ev
       ∨ deleteEventOrigin entities t [source] w w' k ev).
Proof.
  unfold ingestSource, ingestEventOrigin, deleteEventOrigin, onlyIncoming,
    onlyExisting, incomingItemIdentifiers.
  rewrite groupEntitiesByProvenanceIdentifiers_get.
  destruct (entitiesOfSource (source_identifier source) entities)
    as [|e0 g0] eqn:Hg.
  - intros (I1 & w1 & Hloop & [[= <- <-] <-]%ret_Ok)%bind_Ok.
    apply (forOf_set_spec _ item_identifier (λ _, True)
             (λ item ev wa wb,
                createIngestTaskForSource source t item wa = (Ok ev, wb)))
      in Hloop as (Hl & Hnd & Hkeys & Hget).
    + split_and!; [done|done|done| | | |].
      * intros k. rewrite Hkeys. rewrite list_elem_of_fmap. split.
        -- intros [?|(x & ? & _ & <-)]; [by left|]. right.
           split; [by exists x | apply not_elem_of_nil].
        -- intros [?|[(x & -> & ?) _]]; [by left|]. right. by exists x.
      * intros k. split; [by left|].
        intros [?|[[]%elem_of_nil _]]. done.
      * intros k ev Hk. destruct (Hget k ev Hk)
          as [?|(x & wa & wb & ? & _ & <- & ? & ? & ?)]; [by left|].
        right. exists source, x, wa, wb. rewrite Hg. split_and!; try done.
        -- by apply list_elem_of_singleton.
        -- apply list_elem_of_fmap. by exists x.
        -- apply not_elem_of_nil.
      * intros k ev Hk. by left.
    + intros acc x wa acc' wb (ev & wc & Hev & [<- <-]%ret_Ok)%bind_Ok.
      right. split; [done|]. by exists ev.
    + intros x ev wa wb Hev.
      by apply createIngestTaskForSource_Ok in Hev as (_&_&_&_&_&_&_&?).
  - set (group := e0 :: g0) in *.
    intros (E & wE & [HE ->]%liftResult_Ok & Hrun)%bind_Ok.
    apply bind_Ok in Hrun as (N & wN & [HN ->]%liftResult_Ok & Hrun).
    apply bind_Ok in Hrun as (I1 & w1 & Hloop1 & Hrun).
    apply bind_Ok in Hrun as (D1 & w2 & Hloop2 & [[= <- <-] <-]%ret_Ok).
    apply mapEntitiesByItemIdentifier_Ok in HE as (HEnd & HEkeys & HEget).
    apply mapIngestibleItemsByItemIdentifier_Ok in HN as [-> HNnd].
    assert (HNkeys : JSMap.keys (itemEntry <$> source_items source)
                     = item_identifier <$> source_items source).
    { unfold JSMap.keys. by rewrite <- list_fmap_compose. }
    apply (forOf_set_spec _ fst (λ x, JSMap.get x.1 E = None)
             (λ x ev wa wb,
                createIngestTaskForSource source t x.2 wa = (Ok ev, wb)))
      in Hloop1 as (Hl1 & Hnd1 & Hkeys1 & Hget1).
    2:{ intros acc [k item] wa acc' wb. simpl.
        destruct (JSMap.get k E) eqn:Hk.
        - intros [<- <-]%ret_Ok. by left.
        - intros (ev & wc & Hev & [<- <-]%ret_Ok)%bind_Ok.
          right. split; [done|]. by exists ev. }
    2:{ intros x ev wa wb Hev.
        by apply createIngestTaskForSource_Ok in Hev as (_&_&_&_&_&_&_&?). }
    apply (forOf_set_spec _ fst
             (λ x, JSMap.get x.1 (itemEntry <$> source_items source) = None)
             (λ x ev wa wb, createDeleteTaskEvent x.2 t wa = (Ok ev, wb)))
      in Hloop2 as (Hl2 & Hnd2 & Hkeys2 & Hget2).
    2:{ intros acc [k e] wa acc' wb. simpl.
        destruct (JSMap.get k _) eqn:Hk.
        - intros [<- <-]%ret_Ok. by left.
        - intros (ev & wc & Hev & [<- <-]%ret_Ok)%bind_Ok.
          right. split; [done|]. by exists ev. }
    2:{ intros x ev wa wb Hev.
        by apply createDeleteTaskEvent_Ok in Hev as (_&_&_&_&_&?). }
    unfold JSMap.entries in *.
    split_and!; [by etrans|done|done| | | |].
    + intros k. rewrite Hkeys1. apply or_iff_compat_l. split.
      * intros ([k' item] & Hin & Hnone & <-). cbn [fst snd] in *.
        apply list_elem_of_fmap in Hin as (item' & [= -> ->] & Hin).
        split.
        -- apply list_elem_of_fmap. by exists item'.
        -- rewrite <- HEkeys. by apply get_None.
      * intros [(item & -> & Hin)%list_elem_of_fmap Hnot].
        exists (itemEntry item). split_and!; [|simpl|done].
        -- apply list_elem_of_fmap. by exists item.
        -- apply get_None. by rewrite HEkeys.
    + intros k. rewrite Hkeys2. apply or_iff_compat_l. split.
      * intros ([k' e] & Hin & Hnone & <-). cbn [fst snd] in *. split.
        -- apply HEkeys. apply (get_Some_key _ _ e).
           by apply elem_of_get_Some.
        -- rewrite <- HNkeys. by apply get_None.
      * intros [Hk%HEkeys%get_is_Some Hnot]. destruct Hk as [e He].
        exists (k, e). split_and!; [by apply get_Some_elem_of|simpl|done].
        apply get_None. by rewrite HNkeys.
    + intros k ev Hk. destruct (Hget1 k ev Hk)
        as [?|([k' item] & wa & wb & Hin & Hnone & <- & ? & ? & ?)];
        [by left|]. cbn [fst snd] in *. right.
      apply list_elem_of_fmap in Hin as (item' & [= -> ->] & Hin).
      exists source, item', wa, wb. rewrite Hg. split_and!; try done.
      * by apply list_elem_of_singleton.
      * apply list_elem_of_fmap. by exists item'.
      * rewrite <- HEkeys. by apply get_None.
      * by etrans.
    + intros k ev Hk. destruct (Hget2 k ev Hk)
        as [?|([k' e] & wa & wb & Hin & Hnone & <- & ? & ? & ?)];
        [by left|]. cbn [fst snd] in *. right.
      apply elem_of_get_Some in Hin; [|done].
      destruct (HEget _ _ Hin) as [Hegroup Hekey].
      exists source, e, wa, wb. rewrite Hg. split_and!; try done.
      * by apply list_elem_of_singleton.
      * apply HEkeys. by apply (get_Some_key _ _ e).
      * rewrite <- HNkeys. by apply get_None.
      * by etrans.
Qed.

(** ** All sources *)

Lemma ingestEventOrigin_mono entities t sources sources' w0 wa wb wc k ev :
  sources ⊆ sources' → laterWorld w0 wa → laterWorld wb wc →
  ingestEventOrigin entities t sources wa wb k ev →
  ingestEventOrigin entities t sources' w0 wc k ev.
Proof.
  intros Hsub H0 H1 (s & item & w1 & w2 & ? & ? & ? & ? & ? & ? & ?).
  exists s, item, w1, w2. split_and!; try done; [by apply Hsub| |]; by etrans.
Qed.

Lemma deleteEventOrigin_mono entities t sources sources' w0 wa wb wc k ev :
  sources ⊆ sources' → laterWorld w0 wa → laterWorld wb wc →
  deleteEventOrigin entities t sources wa wb k ev →
  deleteEventOrigin entities t sources' w0 wc k ev.
Proof.
  intros Hsub H0 H1 (s & e & w1 & w2 & ? & ? & ? & ? & ? & ? & ?).
  exists s, e, w1, w2. split_and!; try done; [by apply Hsub| |]; by etrans.
Qed.

Lemma classifySources_spec entities t sources w I D w' :
  classifySources entities t sources w = (Ok (I, D), w') →
  laterWorld w w'
  ∧ NoDup (JSMap.keys I) ∧ NoDup (JSMap.keys D)
  ∧ (∀ k, k ∈ JSMap.keys I
          ↔ ∃ s, s ∈ sources ∧ onlyIncoming entities s k)
  ∧ (∀ k, k ∈ JSMap.keys D
          ↔ ∃ s, s ∈ sources ∧ onlyExisting entities s k)
  ∧ (∀ k ev, JSMap.get k I = Some ev →
       ingestEventOrigin entities t sources w w' k ev)
  ∧ (∀ k ev, JSMap.get k D = Some ev →
       deleteEventOrigin entities t sources w w' k ev).
Proof.
  intros Hrun.
  apply (forOf_invariant _
    (λ pre (a : EventMaps) w1,
       laterWorld w w1
       ∧ NoDup (JSMap.keys a.1) ∧ NoDup (JSMap.keys a.2)
       ∧ (∀ k, k ∈ JSMap.keys a.1
               ↔ ∃ s, s ∈ pre ∧ onlyIncoming entities s k)
       ∧ (∀ k, k ∈ JSMap.keys a.2
               ↔ ∃ s, s ∈ pre ∧ onlyExisting entities s k)
       ∧ (∀ k ev, JSMap.get k a.1 = Some ev →
            ingestEventOrigin entities t pre w w1 k ev)
       ∧ (∀ k ev, JSMap.get k a.2 = Some ev →
            deleteEventOrigin entities t pre w w1 k ev))
    _ _ _ _ _ Hrun).
  - simpl. split_and!; try done; try apply NoDup_nil_2.
    + intros k. split; [by intros ?%elem_of_nil|].
      by intros (s & ?%elem_of_nil & _).
    + intros k. split; [by intros ?%elem_of_nil|].
      by intros (s & ?%elem_of_nil & _).
  - intros pre s post [I0 D0] w1 [I1 D1] w2 _
      (Hl & HndI & HndD & HkI & HkD & HgI & HgD) Hstep. cbn [fst snd] in *.
    apply ingestSource_spec in Hstep
      as (Hl' & HndI' & HndD' & HkI' & HkD' & HgI' & HgD').
    split_and!; [by etrans|auto|auto| | | |].
    + intros k. rewrite HkI', HkI. split.
      * intros [(s' & ? & ?)|?]; [exists s'|exists s];
          rewrite elem_of_app, list_elem_of_singleton; auto.
      * intros (s' & [?| ->%list_elem_of_singleton]%elem_of_app & ?);
          [left; by exists s' | by right].
    + intros k. rewrite HkD', HkD. split.
      * intros [(s' & ? & ?)|?]; [exists s'|exists s];
          rewrite elem_of_app, list_elem_of_singleton; auto.
      * intros (s' & [?| ->%list_elem_of_singleton]%elem_of_app & ?);
          [left; by exists s' | by right].
    + intros k ev [Hold%HgI|Hnew]%HgI'.
      * eapply ingestEventOrigin_mono; [|reflexivity|exact Hl'|exact Hold].
        by apply list_subseteq_app_l.
      * eapply ingestEventOrigin_mono; [|exact Hl|reflexivity|exact Hnew].
        by apply list_subseteq_app_r.
    + intros k ev [Hold%HgD|Hnew]%HgD'.
      * eapply deleteEventOrigin_mono; [|reflexivity|exact Hl'|exact Hold].
        by apply list_subseteq_app_l.
      * eapply deleteEventOrigin_mono; [|exact Hl|reflexivity|exact Hnew].
        by apply list_subseteq_app_r.
Qed.

(** ** Moves *)

Lemma moveOrigin_mono I D w0 wa wb k ev :
  laterWorld wa wb → moveOrigin I D w0 wa k ev → moveOrigin I D w0 wb k ev.
Proof.
  intros Hl (ie & de & w1 & w2 & ? & ? & ? & ? & ?).
  exists ie, de, w1, w2. split_and!; try done. by etrans.
Qed.

Lemma detectMoves_spec I D w I' D' U w' :
  NoDup (JSMap.keys I) → NoDup (JSMap.keys D) →
  detectMoves (I, D) w = (Ok (I', D', U), w') →
  laterWorld w w'
  ∧ NoDup (JSMap.keys I') ∧ NoDup (JSMap.keys D')
  ∧ (∀ k, JSMap.get k I'
          = if decide (k ∈ JSMap.keys D) then None else JSMap.get k I)
  ∧ (∀ k, JSMap.get k D'
          = if decide (k ∈ JSMap.keys I) then None else JSMap.get k D)
  ∧ Forall2 (moveOrigin I D w w')
      (filter (λ k, k ∈ JSMap.keys D) (JSMap.keys I)) U.
Proof.
  intros HndI HndD Hrun. unfold detectMoves, JSMap.entries in Hrun.
  cbn [fst snd] in Hrun.
  apply (forOf_invariant _
    (λ pre (st : MoveState) w1,
       laterWorld w w1
       ∧ NoDup (JSMap.keys st.1.1) ∧ NoDup (JSMap.keys st.1.2)
       ∧ (∀ k, JSMap.get k st.1.1
               = if decide (k ∈ pre.*1 ∧ k ∈ JSMap.keys D) then None
                 else JSMap.get k I)
       ∧ (∀ k, JSMap.get k st.1.2
               = if decide (k ∈ pre.*1) then None else JSMap.get k D)
       ∧ Forall2 (moveOrigin I D w w1)
           (filter (λ k, k ∈ JSMap.keys D) pre.*1) st.2)) in Hrun.
  - cbn [fst snd] in Hrun.
    destruct Hrun as (Hl & HndI' & HndD' & HgI & HgD & HU).
    split_and!; try done.
    + intros k. rewrite HgI. repeat case_decide; try done; try tauto.
      apply get_None. unfold JSMap.keys. tauto.
  - cbn [fst snd]. split_and!; done.
  - intros pre [k0 ie] post [[Ic Dc] Uc] w1 [[Ic' Dc'] Uc'] w2 HI
      (Hl & HndIc & HndDc & HgI & HgD & HU). cbn [fst snd] in *.
    assert (Hk0 : k0 ∉ pre.*1).
    { unfold JSMap.keys in HndI. rewrite HI, fmap_app in HndI.
      apply NoDup_app in HndI as (_ & Hdisj & _). intros Hin.
      apply (Hdisj _ Hin). left. }
    assert (Hie : JSMap.get k0 I = Some ie).
    { apply elem_of_get_Some; [done|]. rewrite HI, elem_of_app. right. left. }
    clear HI Hrun. unfold detectMove. rewrite HgD, decide_False by done.
    rewrite fmap_app. change ([(k0, ie)].*1) with [k0].
    rewrite filter_app, filter_cons, filter_nil.
    assert (Hlast : k0 ∈ pre.*1 ++ [k0]) by (apply elem_of_app; right; left).
    assert (Hother : ∀ k, k0 ≠ k → k ∈ pre.*1 ++ [k0] ↔ k ∈ pre.*1).
    { intros k Hne. rewrite elem_of_app, list_elem_of_singleton.
      split; [intros [?|?]; [done|congruence] | auto]. }
    destruct (JSMap.get k0 D) as [de|] eqn:Hde.
    + intros (u & wu & Hu & [[= <- <- <-] <-]%ret_Ok)%bind_Ok.
      pose proof Hu as (_&_&_&_&_&Hlu)%createUpdateProvenanceEvent_Ok.
      pose proof (get_Some_key _ _ _ Hde) as HkD.
      split_and!.
      * by etrans.
      * by apply NoDup_keys_delete.
      * by apply NoDup_keys_delete.
      * intros k. rewrite get_delete, HgI by done.
        destruct (decide (k0 = k)) as [<-|Hne]; [by rewrite decide_True|].
        pose proof (Hother k Hne).
        repeat case_decide; try done; exfalso; tauto.
      * intros k. rewrite get_delete, HgD by done.
        destruct (decide (k0 = k)) as [<-|Hne]; [by rewrite decide_True|].
        pose proof (Hother k Hne).
        repeat case_decide; try done; exfalso; tauto.
      * rewrite decide_True by done. apply Forall2_app.
        -- eapply Forall2_impl; [exact HU|]. intros ???.
           by eapply moveOrigin_mono.
        -- constructor; [|constructor].
           exists ie, de, w1, wu. split_and!; done.
    + intros [[= <- <- <-] <-]%ret_Ok.
      assert (HkD : k0 ∉ JSMap.keys D) by by apply get_None.
      split_and!; try done.
      * intros k. rewrite HgI.
        destruct (decide (k0 = k)) as [<-|Hne].
        -- rewrite !decide_False; [done|tauto|tauto].
        -- pose proof (Hother k Hne).
           repeat case_decide; try done; exfalso; tauto.
      * intros k. rewrite HgD.
        destruct (decide (k0 = k)) as [<-|Hne].
        -- by rewrite decide_False, decide_True.
        -- pose proof (Hother k Hne).
           repeat case_decide; try done; exfalso; tauto.
      * rewrite decide_False, app_nil_r by done. done.
Qed.

(** ** The result of a run *)

Lemma ingestSources_unfold sources opts w :
  ingestSources sources opts w
  = (maps ← classifySources (storedTasks w) (ingestDateOf opts w) sources;
     st ← detectMoves maps;
     ret (concatEvents st)) w.
Proof. by destruct opts. Qed.

Lemma ingestSources_Ok sources opts w events w' :
  ingestSources sources opts w = (Ok events, w') →
  ∃ I D wc I' D' U,
    classifySources (storedTasks w) (ingestDateOf opts w) sources w
    = (Ok (I, D), wc)
    ∧ detectMoves (I, D) wc = (Ok (I', D', U), w')
    ∧ events = concatEvents (I', D', U).
Proof.
  rewrite ingestSources_unfold.
  intros ([I D] & wc & Hc & Hrun)%bind_Ok.
  apply bind_Ok in Hrun as ([[I' D'] U] & wm & Hm & [<- <-]%ret_Ok).
  by exists I, D, wc, I', D', U.
Qed.

Lemma NoDup_fmap_eq {A B} (f : A → B) (l : list A) x y :
  NoDup (f <$> l) → x ∈ l → y ∈ l → f x = f y → x = y.
Proof.
  induction l as [|a l IH]; simpl; [by intros _ ?%elem_of_nil|].
  rewrite NoDup_cons. intros [Ha Hnd].
  intros [->|Hx]%elem_of_cons [->|Hy]%elem_of_cons Heq; auto.
  - destruct Ha. rewrite Heq. by apply list_elem_of_fmap_2.
  - destruct Ha. rewrite <- Heq. by apply list_elem_of_fmap_2.
Qed.

Lemma omap_fmap_compose {A B C} (f : A → B) (g : B → option C) (l : list A) :
  omap g (f <$> l) = omap (g ∘ f) l.
Proof. induction l as [|a l IH]; csimpl; [done|]. by rewrite IH. Qed.

Lemma omap_None {A B} (f : A → option B) (l : list A) :
  (∀ x, x ∈ l → f x = None) → omap f l = [].
Proof.
  induction l as [|a l IH]; intros Hall; csimpl; [done|].
  rewrite (Hall a) by left. apply IH. intros x Hx. apply Hall. by right.
Qed.

Lemma keepIf_True {A} (P : A → Prop) `{∀ x, Decision (P x)} x :
  P x → keepIf P x = Some x.
Proof. intros. unfold keepIf. by rewrite decide_True. Qed.

Lemma keepIf_False {A} (P : A → Prop) `{∀ x, Decision (P x)} x :
  ¬ P x → keepIf P x = None.
Proof. intros. unfold keepIf. by rewrite decide_False. Qed.

(** In a map whose values can be told apart by a predicate that holds of
    the value under [k] only, selecting by the predicate is a lookup. *)
Lemma omap_keepIf_values {V} (P : V → Prop) `{∀ v, Decision (P v)}
    (m : JSMap.t V) k :
  NoDup (JSMap.keys m) →
  (∀ k' v, JSMap.get k' m = Some v → P v ↔ k' = k) →
  omap (keepIf P) (JSMap.values m)
  = match JSMap.get k m with Some v => [v] | None => [] end.
Proof.
  unfold JSMap.values, JSMap.keys.
  induction m as [|[k1 v1] m IH]; intros Hnd HP; [done|].
  rewrite fmap_cons in Hnd. apply NoDup_cons in Hnd as [Hk1 Hnd].
  cbn [fst] in Hk1.
  assert (HP' : ∀ k' v, JSMap.get k' m = Some v → P v ↔ k' = k).
  { intros k' v Hget. apply HP. simpl. case_eqb; [|done].
    destruct Hk1. by apply (get_Some_key m _ v). }
  specialize (IH Hnd HP').
  pose proof (HP k1 v1) as H1. simpl in H1. rewrite String.eqb_refl in H1.
  specialize (H1 eq_refl). csimpl. rewrite IH.
  destruct (decide (P v1)) as [HPv|HPv].
  - rewrite (keepIf_True P v1 HPv).
    apply H1 in HPv as ->. rewrite String.eqb_refl.
    apply get_None in Hk1. by rewrite Hk1.
  - rewrite (keepIf_False P v1 HPv).
    case_eqb; [|done]. destruct HPv. by apply H1.
Qed.

(** The same for a list that is related element by element to a list of
    distinct keys. *)
Lemma omap_keepIf_Forall2 {V} (P : V → Prop) `{∀ v, Decision (P v)}
    (R : string → V → Prop) (ks : list string) (vs : list V) k :
  NoDup ks → Forall2 R ks vs →
  (∀ k' v, k' ∈ ks → R k' v → P v ↔ k' = k) →
  (k ∉ ks → omap (keepIf P) vs = [])
  ∧ (k ∈ ks → ∃ v, R k v ∧ omap (keepIf P) vs = [v]).
Proof.
  intros Hnd HR. induction HR as [|k1 v1 ks vs HR1 HR IH]; intros HP.
  - split; [done|by intros ?%elem_of_nil].
  - apply NoDup_cons in Hnd as [Hk1 Hnd].
    destruct (IH Hnd) as [IHout IHin].
    { intros k' v Hk'. apply HP. by right. }
    pose proof (HP k1 v1 ltac:(left) HR1) as H1.
    csimpl. destruct (decide (P v1)) as [HPv|HPv].
    + rewrite (keepIf_True P v1 HPv).
      apply H1 in HPv as ->. rewrite (IHout Hk1). split.
      * intros Hk. destruct Hk. left.
      * intros _. by exists v1.
    + rewrite (keepIf_False P v1 HPv).
      assert (k1 ≠ k) by (intros ->; by apply HPv, H1).
      rewrite not_elem_of_cons, elem_of_cons. split.
      * intros [_ ?]. auto.
      * intros [->|?]; [done|auto].
Qed.

Lemma ingestEventsFor_concat k I D U :
  ingestEventsFor k (concatEvents (I, D, U))
  = omap
      (keepIf (λ e, tie_metadata e !! INGEST_ITEM_IDENTIFIER_KEY = Some k))
      (JSMap.values I).
Proof.
  unfold ingestEventsFor, concatEvents.
  rewrite !omap_app, !omap_fmap_compose.
  rewrite (omap_None _ (JSMap.values D)), (omap_None _ U), !app_nil_r by done.
  done.
Qed.

Lemma deleteEventsOf_concat i I D U :
  deleteEventsOf i (concatEvents (I, D, U))
  = omap (keepIf (λ e, tde_entityID e = i)) (JSMap.values D).
Proof.
  unfold deleteEventsOf, concatEvents.
  rewrite !omap_app, !omap_fmap_compose.
  rewrite (omap_None _ (JSMap.values I)), (omap_None _ U), app_nil_r by done.
  done.
Qed.

Lemma provenanceUpdatesOf_concat i I D U :
  provenanceUpdatesOf i (concatEvents (I, D, U))
  = omap (keepIf (λ e, tpe_entityID e = i)) U.
Proof.
  unfold provenanceUpdatesOf, concatEvents.
  rewrite !omap_app, !omap_fmap_compose.
  by rewrite (omap_None _ (JSMap.values I)), (omap_None _ (JSMap.values D)).
Qed.

(** ** What the two maps hold after the loop over the sources *)

Lemma elem_of_entitiesOfSource i entities e :
  e ∈ entitiesOfSource i entities ↔ fromSource i e ∧ e ∈ entities.
Proof. apply list_elem_of_filter. Qed.

Lemma classified_ingest entities t sources w I D wc k ev :
  classifySources entities t sources w = (Ok (I, D), wc) →
  JSMap.get k I = Some ev →
  tie_metadata ev = {[ INGEST_ITEM_IDENTIFIER_KEY := k ]}
  ∧ tie_timestampMillis ev = t
  ∧ ∃ source item n,
      source ∈ sources ∧ item ∈ source_items source
      ∧ item_identifier item = k ∧ onlyIncoming entities source k
      ∧ tie_provenance ev = sourceProvenance source
      ∧ tie_spec ev = item_spec item
      ∧ idsDrawn w ≤ n ∧ S n < idsDrawn wc
      ∧ tie_id ev = idSource w n ∧ tie_entityID ev = idSource w (S n).
Proof.
  intros (_&_&_&_&_& HgI &_)%classifySources_spec Hget.
  destruct (HgI k ev Hget)
    as (s & item & w1 & w2 & Hs & Hitem & <- & Honly & Hl1 & Hev & Hl2).
  apply createIngestTaskForSource_Ok in Hev
    as (Hid & Heid & Hspec & Ht & Hmeta & Hprov & Hdrawn & _).
  destruct Hl1 as (_ & _ & Hsrc & Hle1). destruct Hl2 as (_ & _ & _ & Hle2).
  split_and!; [done..|].
  exists s, item, (idsDrawn w1). rewrite <- Hsrc.
  split_and!; try done. lia.
Qed.

Lemma classified_delete entities t sources w I D wc k ev :
  classifySources entities t sources w = (Ok (I, D), wc) →
  JSMap.get k D = Some ev →
  ∃ source e,
    source ∈ sources ∧ e ∈ entities
    ∧ fromSource (source_identifier source) e
    ∧ itemIdentifierOf e = Some k ∧ onlyExisting entities source k
    ∧ tde_entityID ev = task_id e ∧ tde_timestampMillis ev = t
    ∧ tde_isDeleted ev = true.
Proof.
  intros (_&_&_&_&_&_& HgD)%classifySources_spec Hget.
  destruct (HgD k ev Hget)
    as (s & e & w1 & w2 & Hs & He & Hkey & Honly & _ & Hev & _).
  apply elem_of_entitiesOfSource in He as [Hfrom He].
  apply createDeleteTaskEvent_Ok in Hev as (_ & Heid & Ht & Hdel & _).
  exists s, e. split_and!; done.
Qed.

(** With distinct entity ids in the store, a delete event determines its
    key. *)
Lemma classified_delete_inj entities t sources w I D wc k k' ev ev' :
  NoDup (task_id <$> entities) →
  classifySources entities t sources w = (Ok (I, D), wc) →
  JSMap.get k D = Some ev → JSMap.get k' D = Some ev' →
  tde_entityID ev = tde_entityID ev' → k = k'.
Proof.
  intros Hnd Hrun Hk Hk' Heq.
  destruct (classified_delete _ _ _ _ _ _ _ _ _ Hrun Hk)
    as (_ & e & _ & He & _ & Hkey & _ & Hid & _).
  destruct (classified_delete _ _ _ _ _ _ _ _ _ Hrun Hk')
    as (_ & e' & _ & He' & _ & Hkey' & _ & Hid' & _).
  assert (e = e') as <- by (apply (NoDup_fmap_eq task_id entities); congruence).
  congruence.
Qed.

(** ** The events of a result, by item identifier and by entity *)

Section result.
Context (sources : list IngestibleSource) (opts : option IngestOptions).
Context (w wc w' : World) (events : list Event).
Context (I I' : JSMap.t TaskIngestEvent).
Context (D D' : JSMap.t TaskUpdateDeletedEvent).
Context (U : list TaskUpdateProvenanceEvent).

Let entities := storedTasks w.
Let t := ingestDateOf opts w.

Hypothesis Hclassify :
  classifySources entities t sources w = (Ok (I, D), wc).
Hypothesis Hmoves : detectMoves (I, D) wc = (Ok (I', D', U), w').
Hypothesis Hevents : events = concatEvents (I', D', U).

Lemma result_ingestEventsFor k :
  ingestEventsFor k events
  = if decide (k ∈ JSMap.keys D) then []
    else match JSMap.get k I with Some ev => [ev] | None => [] end.
Proof using Hclassify Hmoves Hevents.
  pose proof (classifySources_spec _ _ _ _ _ _ _ Hclassify)
    as (_ & HndI & HndD & _).
  pose proof (detectMoves_spec _ _ _ _ _ _ _ HndI HndD Hmoves)
    as (_ & HndI' & _ & HgI' & _).
  rewrite Hevents, ingestEventsFor_concat.
  rewrite (omap_keepIf_values _ _ k HndI').
  - rewrite HgI'. by case_decide.
  - intros k' ev. rewrite HgI'. case_decide; [done|]. intros Hget.
    destruct (classified_ingest _ _ _ _ _ _ _ _ _ Hclassify Hget) as [-> _].
    rewrite lookup_singleton_eq. split; congruence.
Qed.

Lemma result_deleteEventsOf k ev :
  NoDup (task_id <$> entities) →
  JSMap.get k D = Some ev →
  deleteEventsOf (tde_entityID ev) events
  = if decide (k ∈ JSMap.keys I) then [] else [ev].
Proof using Hclassify Hmoves Hevents.
  intros Hids Hk.
  pose proof (classifySources_spec _ _ _ _ _ _ _ Hclassify)
    as (_ & HndI & HndD & _).
  pose proof (detectMoves_spec _ _ _ _ _ _ _ HndI HndD Hmoves)
    as (_ & _ & HndD' & _ & HgD' & _).
  rewrite Hevents, deleteEventsOf_concat.
  rewrite (omap_keepIf_values _ _ k HndD').
  - rewrite HgD', Hk. by case_decide.
  - intros k' ev'. rewrite HgD'. case_decide; [done|]. intros Hk'. split.
    + intros Heq. symmetry.
      by apply (classified_delete_inj _ _ _ _ _ _ _ _ _ _ _ Hids Hclassify
                  Hk Hk').
    + intros ->. congruence.
Qed.

Lemma result_provenanceUpdatesOf k ev :
  NoDup (task_id <$> entities) →
  JSMap.get k D = Some ev →
  match JSMap.get k I with
  | Some ingestEvent =>
      ∃ u, provenanceUpdatesOf (tde_entityID ev) events = [u]
           ∧ tpe_entityID u = tde_entityID ev
           ∧ tpe_timestampMillis u = tie_timestampMillis ingestEvent
           ∧ tpe_provenance u = tie_provenance ingestEvent
           ∧ ∃ n, idsDrawn w ≤ n < idsDrawn w' ∧ tpe_id u = idSource w n
  | None => provenanceUpdatesOf (tde_entityID ev) events = []
  end.
Proof using Hclassify Hmoves Hevents.
  intros Hids Hk.
  pose proof (classifySources_spec _ _ _ _ _ _ _ Hclassify)
    as (Hlc & HndI & HndD & _).
  pose proof (detectMoves_spec _ _ _ _ _ _ _ HndI HndD Hmoves)
    as (_ & _ & _ & _ & _ & HU).
  rewrite Hevents, provenanceUpdatesOf_concat.
  destruct (omap_keepIf_Forall2 (λ e, tpe_entityID e = tde_entityID ev)
              _ _ _ k (NoDup_filter _ _ HndI) HU) as [Hout Hin].
  { intros k' u _ (ie' & de' & w1 & w2 & _ & Hk' & _ & Hu & _).
    apply createUpdateProvenanceEvent_Ok in Hu as (_ & -> & _). split.
    - intros Heq. by apply (classified_delete_inj _ _ _ _ _ _ _ _ _ _ _
                              Hids Hclassify Hk' Hk).
    - intros ->. congruence. }
  destruct (JSMap.get k I) as [ie|] eqn:HkI.
  - destruct Hin as (u & (ie' & de' & w1 & w2 & ? & ? & Hl1 & Hu & Hl2) & ->).
    { apply list_elem_of_filter. split.
      - by apply (get_Some_key _ _ ev).
      - by apply (get_Some_key _ _ ie). }
    simplify_eq. exists u.
    apply createUpdateProvenanceEvent_Ok in Hu as (Hid & ? & ? & ? & Hn & _).
    split_and!; try done. exists (idsDrawn w1).
    destruct Hlc as (_&_&Hsrc&?). destruct Hl1 as (_&_&Hsrc1&?).
    destruct Hl2 as (_&_&_&?).
    rewrite Hid, Hsrc1, Hsrc. split; [lia|done].
  - apply Hout. intros [_ Hin']%list_elem_of_filter.
    by apply get_None in HkI.
Qed.

(** An entity for which the loop over the sources made no delete event
    has no delete event and no provenance update in the result. *)
Lemma result_untouched_entity i :
  (∀ k ev, JSMap.get k D = Some ev → tde_entityID ev ≠ i) →
  deleteEventsOf i events = [] ∧ provenanceUpdatesOf i events = [].
Proof using Hclassify Hmoves Hevents.
  intros Hnone.
  pose proof (classifySources_spec _ _ _ _ _ _ _ Hclassify)
    as (_ & HndI & HndD & _).
  pose proof (detectMoves_spec _ _ _ _ _ _ _ HndI HndD Hmoves)
    as (_ & _ & HndD' & _ & HgD' & HU).
  rewrite Hevents, deleteEventsOf_concat, provenanceUpdatesOf_concat. split.
  - apply omap_None. intros ev [k Hk]%elem_of_values; [|done].
    rewrite HgD' in Hk. case_decide; [done|].
    apply keepIf_False. by apply (Hnone k).
  - apply omap_None. intros u Hu.
    apply list_elem_of_lookup in Hu as [j Hj].
    destruct (Forall2_lookup_r _ _ _ _ _ HU Hj)
      as (k & _ & (ie & de & w1 & w2 & _ & Hk & _ & Hcreate & _)).
    apply createUpdateProvenanceEvent_Ok in Hcreate as (_ & Heq & _).
    apply keepIf_False. rewrite Heq. by apply (Hnone k).
Qed.
End result.

(** ** Moves *)

(** C2: when the loop over the sources leaves an ingest event and a delete
    event under the same item identifier, the loop over the moves deletes
    both entries and emits one provenance update per such identifier. The
    update is in the result; its entity is the entity of the cancelled
    delete event, an existing entity with that item identifier, and its
    provenance and timestamp are those of the cancelled ingest event. The
    result holds no ingest event for the identifier. In a store with
    distinct entity ids it holds no delete event for any entity with that
    identifier and exactly one provenance update for the entity. *)
Theorem move_replaces_ingest_and_delete
    sources opts w events w' I D wc k ingestEvent deleteEvent :
  ingestSources sources opts w = (Ok events, w') →
  classifySources (storedTasks w) (ingestDateOf opts w) sources w
  = (Ok (I, D), wc) →
  JSMap.get k I = Some ingestEvent →
  JSMap.get k D = Some deleteEvent →
  (∃ e, e ∈ storedTasks w ∧ itemIdentifierOf e = Some k
        ∧ task_id e = tde_entityID deleteEvent)
  ∧ (∃ I' D' U,
       detectMoves (I, D) wc = (Ok (I', D', U), w')
       ∧ events = concatEvents (I', D', U)
       ∧ JSMap.get k I' = None ∧ JSMap.get k D' = None
       ∧ NoDup (filter (λ k, k ∈ JSMap.keys D) (JSMap.keys I))
       ∧ Forall2 (moveOrigin I D wc w')
           (filter (λ k, k ∈ JSMap.keys D) (JSMap.keys I)) U)
  ∧ (∃ u, TaskUpdateProvenance u ∈ events
          ∧ tpe_entityID u = tde_entityID deleteEvent
          ∧ tpe_provenance u = tie_provenance ingestEvent
          ∧ tpe_timestampMillis u = tie_timestampMillis ingestEvent)
  ∧ ingestEventsFor k events = []
  ∧ (NoDup (task_id <$> storedTasks w) →
     (∀ e, e ∈ storedTasks w → itemIdentifierOf e = Some k →
           deleteEventsOf (task_id e) events = [])
     ∧ ∃ u, provenanceUpdatesOf (tde_entityID deleteEvent) events = [u]
            ∧ tpe_entityID u = tde_entityID deleteEvent
            ∧ tpe_provenance u = tie_provenance ingestEvent
            ∧ tpe_timestampMillis u = tie_timestampMillis ingestEvent).
Proof.
  intros Hrun Hclassify HkI HkD.
  apply ingestSources_Ok in Hrun
    as (I0 & D0 & wc0 & I' & D' & U & Hclassify' & Hmoves & Hevents).
  rewrite Hclassify in Hclassify'. injection Hclassify' as <- <- <-.
  pose proof (get_Some_key _ _ _ HkI) as HinI.
  pose proof (get_Some_key _ _ _ HkD) as HinD.
  pose proof (classifySources_spec _ _ _ _ _ _ _ Hclassify)
    as (_ & HndI & HndD & _).
  pose proof (detectMoves_spec _ _ _ _ _ _ _ HndI HndD Hmoves)
    as (_ & _ & _ & HgI' & HgD' & HU).
  split_and!.
  - destruct (classified_delete _ _ _ _ _ _ _ _ _ Hclassify HkD)
      as (_ & e & _ & He & _ & Hkey & _ & Hid & _).
    by exists e.
  - exists I', D', U. split_and!; try done.
    + by rewrite HgI', decide_True.
    + by rewrite HgD', decide_True.
    + by apply NoDup_filter.
  - assert (Hmoved : k ∈ filter (λ k, k ∈ JSMap.keys D) (JSMap.keys I))
      by by apply list_elem_of_filter.
    apply list_elem_of_lookup in Hmoved as [j Hj].
    destruct (Forall2_lookup_l _ _ _ _ _ HU Hj)
      as (u & Hu & (ie & de & w1 & w2 & ? & ? & _ & Hcreate & _)).
    simplify_eq.
    apply createUpdateProvenanceEvent_Ok in Hcreate as (_ & ? & ? & ? & _).
    exists u. split_and!; try done. unfold concatEvents.
    rewrite !elem_of_app. right. right. apply list_elem_of_fmap_2.
    by apply list_elem_of_lookup_2 in Hu.
  - rewrite (result_ingestEventsFor _ _ _ _ _ _ _ _ _ _ _ Hclassify Hmoves
               Hevents).
    by rewrite decide_True.
  - intros Hids. split.
    + intros e He Hkey.
      destruct (decide (task_id e = tde_entityID deleteEvent)) as [->|Hne].
      * rewrite (result_deleteEventsOf _ _ _ _ _ _ _ _ _ _ _ Hclassify Hmoves
                   Hevents k) by done.
        by rewrite decide_True.
      * eapply result_untouched_entity; [done..|].
        intros k1 ev1 Hk1 Heq.
        destruct (classified_delete _ _ _ _ _ _ _ _ _ Hclassify Hk1)
          as (_ & e1 & _ & He1 & _ & Hkey1 & _ & Hid1 & _).
        assert (e1 = e) as ->
          by (apply (NoDup_fmap_eq task_id (storedTasks w)); congruence).
        assert (k1 = k) as -> by congruence.
        congruence.
    + pose proof (result_provenanceUpdatesOf _ _ _ _ _ _ _ _ _ _ _ Hclassify
                    Hmoves Hevents k deleteEvent Hids HkD) as Hu.
      rewrite HkI in Hu. destruct Hu as (u & ? & ? & ? & ? & _).
      by exists u.
Qed.

Lemma move_replaces_ingest_and_delete_witness :
  let events := [TaskUpdateProvenance (sampleProvenanceEvent 3 "task-x" "B")] in
  (∃ e, e ∈ storedTasks moveWorld ∧ itemIdentifierOf e = Some "x"
        ∧ task_id e = "task-x")
  ∧ (∃ u, TaskUpdateProvenance u ∈ events
          ∧ tpe_entityID u = "task-x"
          ∧ tpe_provenance u = sampleProvenance "B"
          ∧ tpe_timestampMillis u = 1000%Q)
  ∧ ingestEventsFor "x" events = []
  ∧ (∀ e, e ∈ storedTasks moveWorld → itemIdentifierOf e = Some "x" →
          deleteEventsOf (task_id e) events = [])
  ∧ ∃ u, provenanceUpdatesOf "task-x" events = [u]
         ∧ tpe_entityID u = "task-x"
         ∧ tpe_provenance u = sampleProvenance "B"
         ∧ tpe_timestampMillis u = 1000%Q.
Proof.
  destruct (move_replaces_ingest_and_delete moveSources sampleOptions
              moveWorld
              [TaskUpdateProvenance (sampleProvenanceEvent 3 "task-x" "B")]
              (afterDraws 4 moveWorld)
              [("x", sampleIngestEvent 1 "B" "x")]
              [("x", sampleDeleteEvent 0 "task-x")]
              (afterDraws 3 moveWorld) "x"
              (sampleIngestEvent 1 "B" "x") (sampleDeleteEvent 0 "task-x")
              ltac:(by vm_compute) ltac:(by vm_compute) eq_refl eq_refl)
    as (Hentity & _ & Hupdate & Hingest & Hdistinct).
  destruct (Hdistinct ltac:(compute_done)) as [Hdelete Hone].
  cbv zeta. split_and!; [exact Hentity|exact Hupdate|exact Hingest
                        |exact Hdelete|exact Hone].
Defined.

(** ** Classification by set difference *)

Lemma classified_keys_I entities t sources w I D wc k :
  classifySources entities t sources w = (Ok (I, D), wc) →
  k ∈ JSMap.keys I ↔ ∃ s, s ∈ sources ∧ onlyIncoming entities s k.
Proof. intros (_&_&_& H &_)%classifySources_spec. apply H. Qed.

Lemma classified_keys_D entities t sources w I D wc k :
  classifySources entities t sources w = (Ok (I, D), wc) →
  k ∈ JSMap.keys D ↔ ∃ s, s ∈ sources ∧ onlyExisting entities s k.
Proof. intros (_&_&_&_& H &_)%classifySources_spec. apply H. Qed.

(** C1 (as amended): in a call that returns, for a source with existing
    entities, the item identifiers are classified by set difference, as far
    as no other source of the same call classifies the identifier too. An
    identifier only among the incoming items yields exactly one ingest
    event, unless some source of the call has it only among its existing
    entities (a move). An identifier only among the existing entities
    yields exactly one delete event, for an existing entity of that source
    with that identifier, unless some source of the call has it only among
    its incoming items (a move) or a source of the call with another
    identifier has it only among its existing entities too. An identifier
    on both sides that no source of the call classifies yields no event at
    all. Delete events are told apart by their entity, in a store with
    distinct entity ids. Re-ingesting a source with the items a and b with
    the items b and c gives one ingest event for c and one delete event
    for the entity of a. *)
Theorem classification_by_set_difference :
  (∀ sources opts w events w' source k,
     ingestSources sources opts w = (Ok events, w') →
     source ∈ sources →
     entitiesOfSource (source_identifier source) (storedTasks w) ≠ [] →
     let entities := storedTasks w in
     (onlyIncoming entities source k →
      (∀ s, s ∈ sources → ¬ onlyExisting entities s k) →
      ∃ ev, ingestEventsFor k events = [ev]
            ∧ tie_metadata ev = {[ INGEST_ITEM_IDENTIFIER_KEY := k ]}
            ∧ tie_timestampMillis ev = ingestDateOf opts w)
     ∧ (NoDup (task_id <$> entities) →
        onlyExisting entities source k →
        (∀ s, s ∈ sources → ¬ onlyIncoming entities s k) →
        (∀ s, s ∈ sources → onlyExisting entities s k →
              source_identifier s = source_identifier source) →
        ∃ e ev, e ∈ entitiesOfSource (source_identifier source) entities
                ∧ itemIdentifierOf e = Some k
                ∧ deleteEventsOf (task_id e) events = [ev]
                ∧ tde_entityID ev = task_id e
                ∧ tde_isDeleted ev = true
                ∧ tde_timestampMillis ev = ingestDateOf opts w
                ∧ ∀ e', e' ∈ entities → itemIdentifierOf e' = Some k →
                        task_id e' ≠ task_id e →
                        deleteEventsOf (task_id e') events = [])
     ∧ (k ∈ incomingItemIdentifiers source →
        k ∈ existingItemIdentifiers
              (entitiesOfSource (source_identifier source) entities) →
        (∀ s, s ∈ sources →
              ¬ onlyIncoming entities s k ∧ ¬ onlyExisting entities s k) →
        ingestEventsFor k events = []
        ∧ (NoDup (task_id <$> entities) →
           ∀ e, e ∈ entities → itemIdentifierOf e = Some k →
                deleteEventsOf (task_id e) events = []
                ∧ provenanceUpdatesOf (task_id e) events = [])))
  ∧ (ingestSources reingestSources sampleOptions reingestWorld).1
    = Ok [ TaskIngest (sampleIngestEvent 0 "S" "c");
           TaskUpdateDeleted (sampleDeleteEvent 2 "task-a") ].
Proof.
  split; [|by vm_compute].
  intros sources opts w events w' source k Hrun Hsource _ entities.
  subst entities.
  apply ingestSources_Ok in Hrun
    as (I & D & wc & I' & D' & U & Hclassify & Hmoves & Hevents).
  pose proof (result_ingestEventsFor _ _ _ _ _ _ _ _ _ _ _ Hclassify Hmoves
                Hevents k) as Hingest.
  pose proof (classified_keys_I _ _ _ _ _ _ _ k Hclassify) as HkI.
  pose proof (classified_keys_D _ _ _ _ _ _ _ k Hclassify) as HkD.
  assert (Hinj : NoDup (task_id <$> storedTasks w) →
            ∀ k1 ev1 e, JSMap.get k1 D = Some ev1 →
            e ∈ storedTasks w → tde_entityID ev1 = task_id e →
            itemIdentifierOf e = Some k1).
  { intros Hids k1 ev1 e Hk1 He Heq.
    destruct (classified_delete _ _ _ _ _ _ _ _ _ Hclassify Hk1)
      as (_ & e1 & _ & He1 & _ & Hkey1 & _ & Hid1 & _).
    assert (e1 = e) as ->
      by (apply (NoDup_fmap_eq task_id (storedTasks w)); congruence).
    done. }
  split_and!.
  - intros Honly Hnot.
    assert (HI : k ∈ JSMap.keys I) by (apply HkI; by exists source).
    assert (HD : k ∉ JSMap.keys D).
    { rewrite HkD. intros (s & Hs & Hex). by apply (Hnot s). }
    apply get_is_Some in HI as [ev Hev].
    rewrite decide_False, Hev in Hingest by done. exists ev.
    destruct (classified_ingest _ _ _ _ _ _ _ _ _ Hclassify Hev) as (? & ? & _).
    done.
  - intros Hids Honly Hnot Hsame.
    assert (HD : k ∈ JSMap.keys D) by (apply HkD; by exists source).
    assert (HI : k ∉ JSMap.keys I).
    { rewrite HkI. intros (s & Hs & Hin). by apply (Hnot s). }
    apply get_is_Some in HD as [ev Hev].
    destruct (classified_delete _ _ _ _ _ _ _ _ _ Hclassify Hev)
      as (s & e & Hs & He & Hfrom & Hkey & Hex & Hid & Ht & Hdel).
    exists e, ev. split_and!; try done.
    + apply elem_of_entitiesOfSource. split; [|done].
      by rewrite <- (Hsame s Hs Hex).
    + rewrite <- Hid.
      rewrite (result_deleteEventsOf _ _ _ _ _ _ _ _ _ _ _ Hclassify Hmoves
                 Hevents k) by done.
      by rewrite decide_False.
    + intros e' He' Hkey' Hne.
      eapply result_untouched_entity; [done..|].
      intros k1 ev1 Hk1 Heq.
      pose proof (Hinj Hids _ _ _ Hk1 He' Heq) as Hkey1.
      assert (k1 = k) as -> by congruence.
      congruence.
  - intros _ _ Hnot.
    assert (HD : k ∉ JSMap.keys D).
    { rewrite HkD. intros (s & Hs & Hex). by destruct (Hnot s Hs). }
    assert (HI : k ∉ JSMap.keys I).
    { rewrite HkI. intros (s & Hs & Hin). by destruct (Hnot s Hs). }
    split.
    + rewrite Hingest, decide_False by done.
      apply get_None in HI. by rewrite HI.
    + intros Hids e He Hkey.
      eapply result_untouched_entity; [done..|].
      intros k1 ev1 Hk1 Heq.
      pose proof (Hinj Hids _ _ _ Hk1 He Heq) as Hkey1.
      assert (k1 = k) as -> by congruence.
      by apply HD, (get_Some_key _ _ ev1).
Qed.

Lemma classification_by_set_difference_witness :
  let entities := storedTasks reingestAmongOthersWorld in
  (∃ ev, ingestEventsFor "c" reingestEvents = [ev]
         ∧ tie_metadata ev = {[ INGEST_ITEM_IDENTIFIER_KEY := "c" ]}
         ∧ tie_timestampMillis ev = 1000%Q)
  ∧ (∃ e ev, e ∈ entitiesOfSource "S" entities
             ∧ itemIdentifierOf e = Some "a"
             ∧ deleteEventsOf (task_id e) reingestEvents = [ev]
             ∧ tde_entityID ev = task_id e
             ∧ tde_isDeleted ev = true
             ∧ tde_timestampMillis ev = 1000%Q
             ∧ ∀ e', e' ∈ entities → itemIdentifierOf e' = Some "a" →
                     task_id e' ≠ task_id e →
                     deleteEventsOf (task_id e') reingestEvents = [])
  ∧ ingestEventsFor "b" reingestEvents = []
  ∧ ∀ e, e ∈ entities → itemIdentifierOf e = Some "b" →
         deleteEventsOf (task_id e) reingestEvents = []
         ∧ provenanceUpdatesOf (task_id e) reingestEvents = [].
Proof.
  cbv zeta.
  assert (Hall : ∀ (P : IngestibleSource → Prop),
            P (sampleSource "S" ["b"; "c"]) → P (sampleSource "T" ["a"]) →
            ∀ s, s ∈ reingestAmongOthersSources → P s).
  { intros P HS HT s Hs. apply elem_of_cons in Hs as [->|Hs]; [done|].
    apply list_elem_of_singleton in Hs. by subst. }
  assert (Hids : NoDup (task_id <$> storedTasks reingestAmongOthersWorld))
    by compute_done.
  pose proof (λ k,
    proj1 classification_by_set_difference reingestAmongOthersSources
      sampleOptions reingestAmongOthersWorld reingestEvents
      (afterDraws 3 reingestAmongOthersWorld) (sampleSource "S" ["b"; "c"]) k
      ltac:(by vm_compute) ltac:(left) ltac:(by vm_compute)) as H.
  cbv zeta in H. split; [|split].
  - apply (H "c").
    + split; compute_done.
    + apply Hall; intros [Hin _]; revert Hin; compute_done.
  - apply (H "a"); [done| | |].
    + split; compute_done.
    + apply Hall; intros [Hin Hout]; revert Hin Hout; compute_done.
    + apply (Hall (λ s, onlyExisting _ s "a" → source_identifier s = "S"));
        [done|]. intros [_ Hout]. revert Hout. compute_done.
  - destruct (H "b") as (_ & _ & Hb).
    destruct Hb as [Hingest Hrest].
    + compute_done.
    + compute_done.
    + apply Hall; split; intros [Hin Hout]; revert Hin Hout; compute_done.
    + split; [exact Hingest|exact (Hrest Hids)].
Defined.

(** C1 as stated fails when another source of the same call classifies
    the identifier too. Source A has an existing entity with item
    identifier x and no longer lists x, but the result holds no delete
    event at all, because source B lists x and the pair becomes a move.
    And sources S and T each have an existing entity with item identifier
    a that they no longer list, but the result holds one delete event, for
    the entity of T, and none for the entity of S: the delete events of
    all sources are kept by item identifier. *)
Lemma classification_counterexample :
  (let events :=
     [TaskUpdateProvenance (sampleProvenanceEvent 3 "task-x" "B")] in
   (ingestSources moveSources sampleOptions moveWorld).1 = Ok events
   ∧ sampleSource "A" [] ∈ moveSources
   ∧ entitiesOfSource "A" (storedTasks moveWorld) ≠ []
   ∧ onlyExisting (storedTasks moveWorld) (sampleSource "A" []) "x"
   ∧ ∀ i, deleteEventsOf i events = [])
  ∧ (let events := [TaskUpdateDeleted (sampleDeleteEvent 1 "task-t")] in
     (ingestSources sharedKeySources sampleOptions sharedKeyWorld).1
     = Ok events
     ∧ sampleSource "S" [] ∈ sharedKeySources
     ∧ entitiesOfSource "S" (storedTasks sharedKeyWorld)
       = [sampleTask "task-a" (Some "S") (Some "a")]
     ∧ onlyExisting (storedTasks sharedKeyWorld) (sampleSource "S" []) "a"
     ∧ (∀ s, s ∈ sharedKeySources →
             ¬ onlyIncoming (storedTasks sharedKeyWorld) s "a")
     ∧ deleteEventsOf "task-a" events = []).
Proof.
  split.
  - split_and!; [by vm_compute|left|by vm_compute| |done].
    split; compute_done.
  - split_and!; [by vm_compute|left|by vm_compute| | |done].
    + split; compute_done.
    + intros s Hs [Hin _]. revert Hin.
      apply elem_of_cons in Hs as [->|Hs];
        [|apply list_elem_of_singleton in Hs as ->]; compute_done.
Qed.

(** ** Errors *)

Lemma forOf_total {A X} (body : A → X → M A) xs acc w :
  (∀ a x w1, ∃ a' w2, body a x w1 = (Ok a', w2)) →
  ∃ acc' w', forOf body xs acc w = (Ok acc', w').
Proof.
  intros Hbody. revert acc w.
  induction xs as [|x xs IH]; intros acc w; simpl; [by eexists _, _|].
  destruct (Hbody acc x w) as (a' & w2 & Hx).
  destruct (IH a' w2) as (acc' & w' & Hxs).
  exists acc', w'. apply bind_Ok. by exists a', w2.
Qed.

Lemma bind_Throw {A B} (m : M A) (f : A → M B) w err w' :
  (m ≫= f) w = (Throw err, w') ↔
  m w = (Throw err, w')
  ∨ ∃ a w1, m w = (Ok a, w1) ∧ f a w1 = (Throw err, w').
Proof.
  rewrite bind_unfold. destruct (m w) as [[a|e] w1]; split.
  - intros. right. by exists a, w1.
  - intros [[=]|(? & ? & [= <- <-] & ?)]. done.
  - intros [= <- <-]. by left.
  - intros [[= <- <-]|(? & ? & [=] & _)]. done.
Qed.

Lemma forOf_total_no_Throw {A X} (body : A → X → M A) xs acc w err w' :
  (∀ a x w1, ∃ a' w2, body a x w1 = (Ok a', w2)) →
  forOf body xs acc w ≠ (Throw err, w').
Proof.
  intros Hbody Hrun.
  destruct (forOf_total body xs acc w Hbody) as (? & ? & Hok). congruence.
Qed.

(** The body of the loop over the sources fails only in the two keyed
    mappings. *)
Lemma ingestSource_Throw G t maps source w err w' :
  ingestSource G t maps source w = (Throw err, w') →
  err = MissingItemIdentifierError
  ∨ ∃ k, err = DuplicateItemIdentifierError k
         ∧ ¬ NoDup (incomingItemIdentifiers source).
Proof.
  destruct maps as [I D]. unfold ingestSource.
  destruct (JSMap.get _ G) as [group|].
  - intros [Hthrow|(E & wE & _ & Hrest)]%bind_Throw.
    { injection Hthrow as Hthrow _.
      apply mapEntitiesByItemIdentifier_Throw in Hthrow. by left. }
    apply bind_Throw in Hrest as [Hthrow|(N & wN & _ & Hrest)].
    { injection Hthrow as Hthrow _.
      apply mapIngestibleItemsByItemIdentifier_Throw in Hthrow
        as [[k ->] Hdup]. right. by exists k. }
    apply bind_Throw in Hrest as [Hthrow|(I1 & w1 & _ & Hrest)].
    { exfalso. revert Hthrow. apply forOf_total_no_Throw.
      intros a [k item] w1. destruct (JSMap.get k E); by eexists _, _. }
    apply bind_Throw in Hrest as [Hthrow|(D1 & w2 & _ & [=])].
    exfalso. revert Hthrow. apply forOf_total_no_Throw.
    intros a [k e] w2. destruct (JSMap.get k N); by eexists _, _.
  - intros [Hthrow|(I1 & w1 & _ & [=])]%bind_Throw.
    exfalso. revert Hthrow. apply forOf_total_no_Throw.
    intros a item w1. by eexists _, _.
Qed.

Lemma ingestSource_missing entities t maps source w e :
  e ∈ entities → fromSource (source_identifier source) e →
  truthy (itemIdentifierOf e) = false →
  ingestSource (groupEntitiesByProvenanceIdentifiers entities) t maps source w
  = (Throw MissingItemIdentifierError, w).
Proof.
  intros He Hfrom Hkey. destruct maps as [I D]. unfold ingestSource.
  rewrite groupEntitiesByProvenanceIdentifiers_get.
  assert (Hin : e ∈ entitiesOfSource (source_identifier source) entities)
    by by apply elem_of_entitiesOfSource.
  destruct (entitiesOfSource _ _) as [|e0 g] eqn:Hg;
    [by apply elem_of_nil in Hin|].
  rewrite bind_unfold. unfold liftResult.
  by rewrite (mapEntitiesByItemIdentifier_missing _ e Hin Hkey).
Qed.

Lemma ingestSources_Throw_classify sources opts w err :
  (ingestSources sources opts w).1 = Throw err ↔
  (classifySources (storedTasks w) (ingestDateOf opts w) sources w).1
  = Throw err.
Proof.
  rewrite ingestSources_unfold, bind_unfold.
  destruct (classifySources _ _ _ _) as [[[I D]|e] wc];
    [|by simpl; split; intros [= ->]].
  rewrite bind_unfold. split; [|done]. intros Hrun. exfalso.
  destruct (forOf_total detectMove (JSMap.entries I) (I, D, []) wc)
    as ([[I' D'] U] & w' & Hok).
  { intros [[Ia Da] Ua] [k ev] w1. unfold detectMove.
    destruct (JSMap.get k Da); by eexists _, _. }
  unfold detectMoves in Hrun. cbn [fst snd] in Hrun. by rewrite Hok in Hrun.
Qed.

Lemma forOf_ingestSource_missing entities t earlier source later e maps w :
  e ∈ entities → fromSource (source_identifier source) e →
  truthy (itemIdentifierOf e) = false →
  let run :=
    forOf (ingestSource (groupEntitiesByProvenanceIdentifiers entities) t)
      (earlier ++ source :: later) maps w in
  run.1 = Throw MissingItemIdentifierError
  ∨ ∃ s k, s ∈ earlier ∧ ¬ NoDup (incomingItemIdentifiers s)
           ∧ run.1 = Throw (DuplicateItemIdentifierError k).
Proof.
  intros He Hfrom Htruthy. cbv zeta. revert maps w.
  induction earlier as [|s earlier IH]; intros maps w; simpl.
  - left. rewrite bind_unfold.
    by rewrite (ingestSource_missing _ _ _ _ _ e He Hfrom Htruthy).
  - rewrite bind_unfold.
    destruct (ingestSource _ _ maps s w) as [[maps'|err] w1] eqn:Hs.
    + destruct (IH maps' w1) as [H|(s' & k & ? & ? & H)]; [by left|].
      right. exists s', k. split_and!; [by right|done|done].
    + apply ingestSource_Throw in Hs as [->|(k & -> & Hdup)]; [by left|].
      right. exists s, k. split_and!; [left|done|done].
Qed.

(** C6 (as amended): when an existing task of an incoming source lacks the
    item identifier in its metadata, the call fails: with
    [MissingItemIdentifierError], unless a source earlier in the list
    lists an item identifier twice, in which case the call can fail with
    [DuplicateItemIdentifierError] before it reaches the source. *)
Theorem missing_item_identifier_fails earlier source later opts w e :
  e ∈ storedTasks w →
  fromSource (source_identifier source) e →
  itemIdentifierOf e = None →
  (ingestSources (earlier ++ source :: later) opts w).1
  = Throw MissingItemIdentifierError
  ∨ ∃ s k,
      s ∈ earlier ∧ ¬ NoDup (incomingItemIdentifiers s)
      ∧ (ingestSources (earlier ++ source :: later) opts w).1
        = Throw (DuplicateItemIdentifierError k).
Proof.
  intros He Hfrom Hkey.
  assert (Htruthy : truthy (itemIdentifierOf e) = false) by by rewrite Hkey.
  destruct (forOf_ingestSource_missing (storedTasks w) (ingestDateOf opts w)
              earlier source later e (JSMap.empty, JSMap.empty) w
              He Hfrom Htruthy) as [H|(s & k & ? & ? & H)];
    apply ingestSources_Throw_classify in H; [by left|].
  right. by exists s, k.
Qed.

Lemma missing_item_identifier_fails_witness :
  (ingestSources [sampleSource "S" ["a"]] sampleOptions missingWorld).1
  = Throw MissingItemIdentifierError
  ∨ ∃ s k,
      s ∈ [] ∧ ¬ NoDup (incomingItemIdentifiers s)
      ∧ (ingestSources [sampleSource "S" ["a"]] sampleOptions missingWorld).1
        = Throw (DuplicateItemIdentifierError k).
Proof.
  apply (missing_item_identifier_fails [] (sampleSource "S" ["a"]) []
           sampleOptions missingWorld (sampleTask "task-m" (Some "S") None)).
  - by vm_compute; left.
  - reflexivity.
  - reflexivity.
Defined.

(** C6 as stated fails behind a source with duplicates: the task of source
    S2 lacks the item identifier, but the call fails with
    [DuplicateItemIdentifierError] for source S1. *)
Lemma missing_item_identifier_counterexample :
  sampleTask "task-m" (Some "S2") None ∈ storedTasks duplicateFirstWorld
  ∧ sampleSource "S2" [] ∈ duplicateFirstSources
  ∧ fromSource "S2" (sampleTask "task-m" (Some "S2") None)
  ∧ itemIdentifierOf (sampleTask "task-m" (Some "S2") None) = None
  ∧ (ingestSources duplicateFirstSources sampleOptions duplicateFirstWorld).1
    = Throw (DuplicateItemIdentifierError "x")
  ∧ (ingestSources duplicateFirstSources sampleOptions duplicateFirstWorld).1
    ≠ Throw MissingItemIdentifierError.
Proof.
  split_and!; [by vm_compute; right; left|right; left|done|done|by vm_compute|].
  by vm_compute.
Qed.

(** C3: a source with existing entities that lists an item identifier
    twice fails with [DuplicateItemIdentifierError] for that identifier,
    but a source without existing entities does not: its items are set
    into [ingestEvents] without the check, the call returns, and the
    second item silently replaces the first. *)
Theorem duplicate_items_of_new_source_not_rejected :
  (ingestSources [sampleSource "S" ["x"; "x"]] sampleOptions
     (sampleWorld [sampleTask "task-q" (Some "S") (Some "q")])).1
  = Throw (DuplicateItemIdentifierError "x")
  ∧ (ingestSources [sampleSource "N" ["x"; "x"]] sampleOptions
       newSourceWorld).1
    = Ok [TaskIngest (sampleIngestEvent 2 "N" "x")].
Proof. split; by vm_compute. Qed.

(** ** The store is only read, and only by the query *)

Lemma withStore_store w : withStore (store w) w = w.
Proof. by destruct w. Qed.

Lemma storeBlind_ret {A} (a : A) : storeBlind (ret a).
Proof. done. Qed.

Lemma storeBlind_liftResult {A} (r : Result A) : storeBlind (liftResult r).
Proof. done. Qed.

Lemma storeBlind_generateUniqueID : storeBlind generateUniqueID.
Proof. done. Qed.

Lemma storeBlind_bind {A B} (m : M A) (f : A → M B) :
  storeBlind m → (∀ a, storeBlind (f a)) → storeBlind (m ≫= f).
Proof.
  intros Hm Hf w s. rewrite !bind_unfold, Hm.
  destruct (m w) as [[a|e] w1]; simpl; [apply Hf|done].
Qed.

Lemma storeBlind_forOf {A X} (body : A → X → M A) xs acc :
  (∀ a x, storeBlind (body a x)) → storeBlind (forOf body xs acc).
Proof.
  intros Hbody. revert acc. induction xs as [|x xs IH]; intros acc; simpl.
  - apply storeBlind_ret.
  - apply storeBlind_bind; [apply Hbody|apply IH].
Qed.

Lemma storeBlind_createIngestTaskForSource source t item :
  storeBlind (createIngestTaskForSource source t item).
Proof. done. Qed.

Lemma storeBlind_createDeleteTaskEvent task t :
  storeBlind (createDeleteTaskEvent task t).
Proof. done. Qed.

Lemma storeBlind_createUpdateProvenanceEvent i ev :
  storeBlind (createUpdateProvenanceEvent i ev).
Proof. done. Qed.

Lemma storeBlind_ingestSource G t maps source :
  storeBlind (ingestSource G t maps source).
Proof.
  destruct maps as [I D]. unfold ingestSource.
  destruct (JSMap.get _ G) as [group|].
  - apply storeBlind_bind; [apply storeBlind_liftResult|intros E].
    apply storeBlind_bind; [apply storeBlind_liftResult|intros N].
    apply storeBlind_bind.
    { apply storeBlind_forOf. intros a [k item].
      destruct (JSMap.get k E); [apply storeBlind_ret|].
      apply storeBlind_bind; [done|intros; apply storeBlind_ret]. }
    intros I1. apply storeBlind_bind; [|intros; apply storeBlind_ret].
    apply storeBlind_forOf. intros a [k e].
    destruct (JSMap.get k N); [apply storeBlind_ret|].
    apply storeBlind_bind; [done|intros; apply storeBlind_ret].
  - apply storeBlind_bind; [|intros; apply storeBlind_ret].
    apply storeBlind_forOf. intros a item.
    apply storeBlind_bind; [done|intros; apply storeBlind_ret].
Qed.

Lemma storeBlind_classifySources entities t sources :
  storeBlind (classifySources entities t sources).
Proof. apply storeBlind_forOf. intros. apply storeBlind_ingestSource. Qed.

Lemma storeBlind_detectMoves maps : storeBlind (detectMoves maps).
Proof.
  apply storeBlind_forOf. intros [[I D] U] [k ev]. unfold detectMove.
  destruct (JSMap.get k D); [|apply storeBlind_ret].
  apply storeBlind_bind; [done|intros; apply storeBlind_ret].
Qed.

(** What [ingestSources] does with the tasks it got from the query. *)
Lemma storeBlind_reconcile entities t sources :
  storeBlind (maps ← classifySources entities t sources;
              st ← detectMoves maps;
              ret (concatEvents st)).
Proof.
  apply storeBlind_bind; [apply storeBlind_classifySources|intros maps].
  apply storeBlind_bind; [apply storeBlind_detectMoves|intros st].
  apply storeBlind_ret.
Qed.

Lemma storeBlind_store {A} (m : M A) w :
  storeBlind m → store (m w).2 = store w.
Proof.
  intros Hm. specialize (Hm w (store w)). rewrite withStore_store in Hm.
  by rewrite Hm.
Qed.

(** C5: [ingestSources] leaves the store as it is, whether it returns or
    throws: entities, events and derived rows are those of before. The
    store enters the run through the [listEntities] query only: over any
    other store that answers the query alike, the call gives the same
    result and leaves that store as it is. *)
Theorem ingestSources_does_not_mutate_the_store sources opts w :
  store (ingestSources sources opts w).2 = store w
  ∧ ∀ s, storedTasks (withStore s w) = storedTasks w →
         ingestSources sources opts (withStore s w)
         = ((ingestSources sources opts w).1,
            withStore s (ingestSources sources opts w).2).
Proof.
  split.
  - rewrite ingestSources_unfold.
    apply storeBlind_store, storeBlind_reconcile.
  - intros s Htasks. rewrite !ingestSources_unfold, Htasks.
    replace (ingestDateOf opts (withStore s w)) with (ingestDateOf opts w)
      by by destruct opts.
    apply storeBlind_reconcile.
Qed.

Lemma ingestSources_does_not_mutate_the_store_witness :
  store (ingestSources reingestSources sampleOptions reingestWorld).2
  = store reingestWorld
  ∧ ingestSources reingestSources sampleOptions
      (withStore reingestStoreWithRows reingestWorld)
    = ((ingestSources reingestSources sampleOptions reingestWorld).1,
       withStore reingestStoreWithRows
         (ingestSources reingestSources sampleOptions reingestWorld).2).
Proof.
  split.
  - apply (ingestSources_does_not_mutate_the_store reingestSources
             sampleOptions reingestWorld).
  - apply (ingestSources_does_not_mutate_the_store reingestSources
             sampleOptions reingestWorld).
    by vm_compute.
Defined.

(** ** Which stored tasks a run depends on *)

Lemma forOf_ext {A X} (body1 body2 : A → X → M A) xs acc w :
  (∀ a x w1, x ∈ xs → body1 a x w1 = body2 a x w1) →
  forOf body1 xs acc w = forOf body2 xs acc w.
Proof.
  revert acc w. induction xs as [|x xs IH]; intros acc w Hext; [done|].
  simpl. rewrite !bind_unfold, Hext by left.
  destruct (body2 acc x w) as [[a|e] w1]; [|done].
  apply IH. intros. apply Hext. by right.
Qed.

Lemma ingestSource_ext G1 G2 t maps source w :
  JSMap.get (source_identifier source) G1
  = JSMap.get (source_identifier source) G2 →
  ingestSource G1 t maps source w = ingestSource G2 t maps source w.
Proof. intros HG. destruct maps as [I D]. unfold ingestSource. by rewrite HG. Qed.

(** The loop over the sources depends on the stored tasks only through
    the groups of its sources. *)
Lemma classifySources_ext entities1 entities2 t sources w :
  (∀ s, s ∈ sources →
        entitiesOfSource (source_identifier s) entities1
        = entitiesOfSource (source_identifier s) entities2) →
  classifySources entities1 t sources w = classifySources entities2 t sources w.
Proof.
  intros Hgroups. apply forOf_ext. intros maps s w1 Hs.
  apply ingestSource_ext.
  by rewrite !groupEntitiesByProvenanceIdentifiers_get, (Hgroups s Hs).
Qed.

Lemma ingestSources_ext sources opts w s :
  (∀ source, source ∈ sources →
     entitiesOfSource (source_identifier source) (storedTasks (withStore s w))
     = entitiesOfSource (source_identifier source) (storedTasks w)) →
  (ingestSources sources opts (withStore s w)).1
  = (ingestSources sources opts w).1.
Proof.
  intros Hgroups. rewrite !ingestSources_unfold.
  replace (ingestDateOf opts (withStore s w)) with (ingestDateOf opts w)
    by by destruct opts.
  rewrite !bind_unfold, (classifySources_ext _ (storedTasks w)) by done.
  rewrite storeBlind_classifySources.
  destruct (classifySources _ _ _ w) as [[maps|e] wc]; [|done]. simpl.
  by rewrite (storeBlind_bind _ _ (storeBlind_detectMoves maps)
                (λ st, storeBlind_ret (concatEvents st))).
Qed.

Lemma entitiesOfSource_filter (P : Task → Prop) `{∀ e, Decision (P e)}
    i entities :
  (∀ e, fromSource i e → P e) →
  entitiesOfSource i (filter P entities) = entitiesOfSource i entities.
Proof.
  intros HP. unfold entitiesOfSource. rewrite list_filter_filter.
  apply list_filter_iff. intros e. split; [by intros [? _]|]. auto.
Qed.

(** The delete events and the provenance updates of a result are events
    for stored tasks of the sources of the call. *)
Lemma result_delete_origin sources opts w events w' ev :
  ingestSources sources opts w = (Ok events, w') →
  TaskUpdateDeleted ev ∈ events →
  ∃ e, e ∈ storedTasks w ∧ fromSources sources e
       ∧ tde_entityID ev = task_id e.
Proof.
  intros (I & D & wc & I' & D' & U & Hclassify & Hmoves & ->)%ingestSources_Ok.
  pose proof (classifySources_spec _ _ _ _ _ _ _ Hclassify)
    as (_ & HndI & HndD & _).
  pose proof (detectMoves_spec _ _ _ _ _ _ _ HndI HndD Hmoves)
    as (_ & _ & HndD' & _ & HgD' & _).
  unfold concatEvents. rewrite !elem_of_app, !list_elem_of_fmap.
  intros [(? & [=] & _)|[(ev' & [= <-] & Hin)|(? & [=] & _)]].
  apply elem_of_values in Hin as [k Hk]; [|done].
  rewrite HgD' in Hk. case_decide; [done|].
  destruct (classified_delete _ _ _ _ _ _ _ _ _ Hclassify Hk)
    as (s & e & Hs & He & Hfrom & _ & _ & Hid & _).
  exists e. split_and!; [done| |done].
  apply Exists_exists. by exists s.
Qed.

Lemma result_update_origin sources opts w events w' ev :
  ingestSources sources opts w = (Ok events, w') →
  TaskUpdateProvenance ev ∈ events →
  ∃ e, e ∈ storedTasks w ∧ fromSources sources e
       ∧ tpe_entityID ev = task_id e.
Proof.
  intros (I & D & wc & I' & D' & U & Hclassify & Hmoves & ->)%ingestSources_Ok.
  pose proof (classifySources_spec _ _ _ _ _ _ _ Hclassify)
    as (_ & HndI & HndD & _).
  pose proof (detectMoves_spec _ _ _ _ _ _ _ HndI HndD Hmoves)
    as (_ & _ & _ & _ & _ & HU).
  unfold concatEvents. rewrite !elem_of_app, !list_elem_of_fmap.
  intros [(? & [=] & _)|[(? & [=] & _)|(ev' & [= <-] & Hin)]].
  apply list_elem_of_lookup in Hin as [j Hj].
  destruct (Forall2_lookup_r _ _ _ _ _ HU Hj)
    as (k & _ & (ie & de & w1 & w2 & _ & Hk & _ & Hcreate & _)).
  apply createUpdateProvenanceEvent_Ok in Hcreate as (_ & Heq & _).
  destruct (classified_delete _ _ _ _ _ _ _ _ _ Hclassify Hk)
    as (s & e & Hs & He & Hfrom & _ & _ & Hid & _).
  exists e. split_and!; [done| |congruence].
  apply Exists_exists. by exists s.
Qed.

(** A stored task that is not one of the tasks of the sources of the call
    gets no delete event and no provenance update, in a store with
    distinct ids. *)
Lemma result_stranger sources opts w events w' e :
  NoDup (task_id <$> storedTasks w) →
  ingestSources sources opts w = (Ok events, w') →
  e ∈ storedTasks w → ¬ fromSources sources e →
  deleteEventsOf (task_id e) events = []
  ∧ provenanceUpdatesOf (task_id e) events = [].
Proof.
  intros Hids Hrun He Hnot.
  pose proof Hrun
    as (I & D & wc & I' & D' & U & Hclassify & Hmoves & ->)%ingestSources_Ok.
  eapply result_untouched_entity; [done..|].
  intros k ev Hk Heq.
  destruct (classified_delete _ _ _ _ _ _ _ _ _ Hclassify Hk)
    as (s & e1 & Hs & He1 & Hfrom & _ & _ & Hid & _).
  assert (e1 = e) as ->
    by (apply (NoDup_fmap_eq task_id (storedTasks w)); congruence).
  apply Hnot, Exists_exists. by exists s.
Qed.

Lemma fromSource_hasProvenance i e : fromSource i e → hasProvenance e.
Proof.
  unfold fromSource, hasProvenance. by destruct (task_provenance e).
Qed.

Lemma forOf_Throw {A X} (body : A → X → M A) xs acc w err w' :
  forOf body xs acc w = (Throw err, w') →
  ∃ x a w1, x ∈ xs ∧ body a x w1 = (Throw err, w').
Proof.
  revert acc w. induction xs as [|x xs IH]; intros acc w; simpl; [done|].
  intros [Hx|(a & w1 & _ & Hxs)]%bind_Throw.
  - exists x, acc, w. split; [left|done].
  - destruct (IH _ _ Hxs) as (y & b & w2 & ? & ?).
    exists y, b, w2. split; [by right|done].
Qed.

Lemma mapEntitiesByItemIdentifier_Throw_elem_of group err :
  mapEntitiesByItemIdentifier group = Throw err →
  ∃ e, e ∈ group ∧ truthy (itemIdentifierOf e) = false.
Proof.
  unfold mapEntitiesByItemIdentifier. generalize (@JSMap.empty Task).
  induction group as [|e g IH]; intros acc; simpl; [done|].
  fold (itemIdentifierOf e).
  destruct (truthy (itemIdentifierOf e)) eqn:He.
  - intros (e' & ? & ?)%IH. exists e'. split; [by right|done].
  - intros _. exists e. split; [left|done].
Qed.

(** [MissingItemIdentifierError] comes from a stored task of a source of
    the call. *)
Lemma ingestSources_Throw_missing sources opts w :
  (ingestSources sources opts w).1 = Throw MissingItemIdentifierError →
  ∃ s e, s ∈ sources ∧ e ∈ storedTasks w
         ∧ fromSource (source_identifier s) e
         ∧ truthy (itemIdentifierOf e) = false.
Proof.
  intros Hthrow%ingestSources_Throw_classify.
  destruct (classifySources _ _ _ _) as [r wc] eqn:Hrun.
  simpl in Hthrow. subst r.
  apply forOf_Throw in Hrun as (s & [I D] & w1 & Hs & Hrun).
  exists s. unfold ingestSource in Hrun.
  rewrite groupEntitiesByProvenanceIdentifiers_get in Hrun.
  destruct (entitiesOfSource (source_identifier s) (storedTasks w))
    as [|e0 g] eqn:Hg.
  - apply bind_Throw in Hrun as [Hrun|(I1 & w2 & _ & [=])].
    exfalso. revert Hrun. apply forOf_total_no_Throw.
    intros. by eexists _, _.
  - apply bind_Throw in Hrun as [Hrun|(E & wE & _ & Hrun)].
    { injection Hrun as Hrun _.
      apply mapEntitiesByItemIdentifier_Throw_elem_of in Hrun
        as (e & He & Hkey).
      rewrite <- Hg in He. apply elem_of_entitiesOfSource in He as [? ?].
      by exists e. }
    apply bind_Throw in Hrun as [Hrun|(N & wN & _ & Hrun)].
    { injection Hrun as Hrun _.
      by apply mapIngestibleItemsByItemIdentifier_Throw in Hrun as [[k [=]] _]. }
    apply bind_Throw in Hrun as [Hrun|(I1 & w2 & _ & Hrun)].
    { exfalso. revert Hrun. apply forOf_total_no_Throw.
      intros a [k item] w2. destruct (JSMap.get k E); by eexists _, _. }
    apply bind_Throw in Hrun as [Hrun|(D1 & w3 & _ & [=])].
    exfalso. revert Hrun. apply forOf_total_no_Throw.
    intros a [k e] w3. destruct (JSMap.get k N); by eexists _, _.
Qed.

(** C9: a stored task without provenance is invisible to the run. Its
    source is looked up through the provenance identifier only: the group
    of a source is the list of the stored tasks with that provenance
    identifier. The run is the same over any store with the same tasks
    with provenance, whatever tasks without provenance it holds and
    whatever their metadata; [MissingItemIdentifierError] is raised for a
    stored task with the provenance identifier of a source of the call
    only; and in a store with distinct ids the result holds no delete
    event and no provenance update for a task without provenance. *)
Theorem tasks_without_provenance_are_invisible sources opts w :
  (∀ i, JSMap.get i (groupEntitiesByProvenanceIdentifiers (storedTasks w))
        = match entitiesOfSource i (storedTasks w) with
          | [] => None
          | group => Some group
          end)
  ∧ (∀ s, filter hasProvenance (storedTasks (withStore s w))
          = filter hasProvenance (storedTasks w) →
          (ingestSources sources opts (withStore s w)).1
          = (ingestSources sources opts w).1)
  ∧ ((ingestSources sources opts w).1 = Throw MissingItemIdentifierError →
     ∃ s e, s ∈ sources ∧ e ∈ storedTasks w ∧ hasProvenance e
            ∧ fromSource (source_identifier s) e
            ∧ truthy (itemIdentifierOf e) = false)
  ∧ (∀ events w' e,
       NoDup (task_id <$> storedTasks w) →
       ingestSources sources opts w = (Ok events, w') →
       e ∈ storedTasks w → task_provenance e = None →
       deleteEventsOf (task_id e) events = []
       ∧ provenanceUpdatesOf (task_id e) events = []).
Proof.
  split_and!.
  - intros i. apply groupEntitiesByProvenanceIdentifiers_get.
  - intros s Hsame. apply ingestSources_ext. intros source _.
    rewrite <- (entitiesOfSource_filter hasProvenance _ (storedTasks w)),
      <- (entitiesOfSource_filter hasProvenance _
            (storedTasks (withStore s w)))
      by apply fromSource_hasProvenance.
    by rewrite Hsame.
  - intros (s & e & ? & ? & Hfrom & ?)%ingestSources_Throw_missing.
    exists s, e. split_and!; try done.
    by apply (fromSource_hasProvenance _ e Hfrom).
  - intros events w' e Hids Hrun He Hnone.
    apply (result_stranger _ _ _ _ _ _ Hids Hrun He).
    intros (s & _ & Hfrom%fromSource_hasProvenance)%Exists_exists.
    unfold hasProvenance in Hfrom. rewrite Hnone in Hfrom.
    by destruct Hfrom.
Qed.

(** C10: the delete events and the provenance updates of a result are
    events for stored tasks whose provenance identifier is the identifier
    of a source of the call. Tasks of other sources contribute nothing:
    the run is the same over any store with the same tasks of the sources
    of the call, and in a store with distinct ids the result holds no
    delete event and no provenance update for a task of another source. *)
Theorem only_tasks_of_the_sources_are_touched sources opts w :
  (∀ events w',
     ingestSources sources opts w = (Ok events, w') →
     (∀ ev, TaskUpdateDeleted ev ∈ events →
        ∃ e, e ∈ storedTasks w ∧ fromSources sources e
             ∧ tde_entityID ev = task_id e)
     ∧ (∀ ev, TaskUpdateProvenance ev ∈ events →
          ∃ e, e ∈ storedTasks w ∧ fromSources sources e
               ∧ tpe_entityID ev = task_id e))
  ∧ (∀ s, filter (fromSources sources) (storedTasks (withStore s w))
          = filter (fromSources sources) (storedTasks w) →
          (ingestSources sources opts (withStore s w)).1
          = (ingestSources sources opts w).1)
  ∧ (∀ events w' e,
       NoDup (task_id <$> storedTasks w) →
       ingestSources sources opts w = (Ok events, w') →
       e ∈ storedTasks w → ¬ fromSources sources e →
       deleteEventsOf (task_id e) events = []
       ∧ provenanceUpdatesOf (task_id e) events = []).
Proof.
  split_and!.
  - intros events w' Hrun. split; intros ev.
    + by apply (result_delete_origin _ _ _ _ _ _ Hrun).
    + by apply (result_update_origin _ _ _ _ _ _ Hrun).
  - intros s Hsame. apply ingestSources_ext. intros source Hsource.
    assert (Hsub : ∀ e, fromSource (source_identifier source) e →
                        fromSources sources e).
    { intros e Hfrom. apply Exists_exists. by exists source. }
    rewrite <- (entitiesOfSource_filter (fromSources sources) _
                  (storedTasks w)),
      <- (entitiesOfSource_filter (fromSources sources) _
            (storedTasks (withStore s w))) by done.
    by rewrite Hsame.
  - intros events w' e. apply result_stranger.
Qed.

Lemma tasks_without_provenance_are_invisible_witness :
  (ingestSources reingestSources sampleOptions
     (withStore reingestStoreWithUnprovenanced reingestWorld)).1
  = (ingestSources reingestSources sampleOptions reingestWorld).1
  ∧ (∃ s e, s ∈ [sampleSource "S" ["a"]] ∧ e ∈ storedTasks missingWorld
            ∧ hasProvenance e ∧ fromSource (source_identifier s) e
            ∧ truthy (itemIdentifierOf e) = false)
  ∧ deleteEventsOf "task-0" reingestEvents = []
  ∧ provenanceUpdatesOf "task-0" reingestEvents = [].
Proof.
  split; [|split].
  - apply (tasks_without_provenance_are_invisible reingestSources
             sampleOptions reingestWorld).
    by vm_compute.
  - apply (tasks_without_provenance_are_invisible [sampleSource "S" ["a"]]
             sampleOptions missingWorld).
    by vm_compute.
  - apply (tasks_without_provenance_are_invisible reingestSources
             sampleOptions
             (withStore reingestStoreWithUnprovenanced reingestWorld)
           ) with (w' := afterDraws 3
                     (withStore reingestStoreWithUnprovenanced reingestWorld))
                  (e := sampleTask "task-0" None None).
    + compute_done.
    + by vm_compute.
    + by vm_compute; left.
    + reflexivity.
Defined.

Lemma only_tasks_of_the_sources_are_touched_witness :
  (∃ e, e ∈ storedTasks (withStore reingestStoreWithStrangers reingestWorld)
        ∧ fromSources reingestSources e ∧ "task-a" = task_id e)
  ∧ (ingestSources reingestSources sampleOptions
       (withStore reingestStoreWithStrangers reingestWorld)).1
    = (ingestSources reingestSources sampleOptions reingestWorld).1
  ∧ deleteEventsOf "task-t" reingestEvents = []
  ∧ provenanceUpdatesOf "task-t" reingestEvents = [].
Proof.
  pose proof (only_tasks_of_the_sources_are_touched reingestSources
                sampleOptions
                (withStore reingestStoreWithStrangers reingestWorld))
    as (Horigin & _ & Hstranger).
  split; [|split].
  - apply (proj1 (Horigin reingestEvents
             (afterDraws 3
                (withStore reingestStoreWithStrangers reingestWorld))
             ltac:(by vm_compute)) (sampleDeleteEvent 2 "task-a")).
    right. left.
  - apply (only_tasks_of_the_sources_are_touched reingestSources
             sampleOptions reingestWorld).
    by vm_compute.
  - apply (Hstranger reingestEvents
             (afterDraws 3
                (withStore reingestStoreWithStrangers reingestWorld))
             (sampleTask "task-t" (Some "T") (Some "a"))).
    + compute_done.
    + by vm_compute.
    + by vm_compute; right; right; left.
    + compute_done.
Defined.

(** ** The scheduler *)





(** ** Derived rows *)

Lemma liveRows_taskID e row : row ∈ liveRows e → row_taskID row = entityID e.
Proof.
  destruct e as [task|a]; simpl; [|by intros ?%elem_of_nil].
  destruct (task_isDeleted task); [by intros ?%elem_of_nil|].
  by intros (entry & -> & _)%list_elem_of_fmap.
Qed.

Lemma liveRows_NoDup e : NoDup (rowKey <$> liveRows e).
Proof.
  destruct e as [task|a]; simpl; [|apply NoDup_nil_2].
  destruct (task_isDeleted task); [apply NoDup_nil_2|].
  rewrite <- list_fmap_compose.
  apply NoDup_fmap_2_strong; [|apply NoDup_map_to_list].
  intros [c1 s1] [c2 s2] H1 H2 [= Hc]. subst.
  apply elem_of_map_to_list in H1, H2. congruence.
Qed.

Lemma liveRows_task task row :
  row ∈ liveRows (Entity_Task task) ↔
  task_isDeleted task = false
  ∧ ∃ c state, task_componentStates task !! c = Some state
               ∧ row = rowOf task (c, state).
Proof.
  simpl. destruct (task_isDeleted task).
  - split; [by intros ?%elem_of_nil|by intros [[=] _]].
  - rewrite list_elem_of_fmap. split.
    + intros ([c state] & -> & Hin%elem_of_map_to_list). eauto.
    + intros (_ & c & state & Hc & ->). exists (c, state).
      split; [done|]. by apply elem_of_map_to_list.
Qed.

Lemma liveRows_key_inj e row1 row2 :
  row1 ∈ liveRows e → row2 ∈ liveRows e → rowKey row1 = rowKey row2 →
  row1 = row2.
Proof. apply NoDup_fmap_eq, liveRows_NoDup. Qed.

Lemma lookup_foldr_upsert (rows : list TaskComponentRow)
    (table : gmap (string * string) TaskComponentRow) key row :
  NoDup (rowKey <$> rows) →
  (foldr (λ row table, <[rowKey row := row]> table) table rows) !! key
  = Some row
  ↔ (row ∈ rows ∧ rowKey row = key)
    ∨ ((key ∉ rowKey <$> rows) ∧ table !! key = Some row).
Proof.
  induction rows as [|r rows IH]; intros Hnd.
  - simpl. split; [intros; right; split; [apply not_elem_of_nil|done]|].
    intros [[?%elem_of_nil _]|[_ ?]]; done.
  - rewrite fmap_cons in Hnd. apply NoDup_cons in Hnd as [Hr Hnd].
    cbn [foldr]. rewrite lookup_insert. case_decide as Hkey.
    + split.
      * intros [= <-]. left. split; [left|done].
      * intros [[[->|Hin]%elem_of_cons Hk]|[Hnot _]]; [done| |].
        -- destruct Hr. rewrite Hkey, <- Hk. by apply list_elem_of_fmap_2.
        -- destruct Hnot. rewrite fmap_cons, Hkey. left.
    + rewrite (IH Hnd), fmap_cons, elem_of_cons, not_elem_of_cons. split.
      * intros [[??]|[??]]; [left|right]; auto.
      * intros [[[->|?] ?]|[[??] ?]]; [done|left|right]; auto.
Qed.

Lemma lookup_applyDelta previous next table key row :
  (applyDelta (project previous next) table) !! key = Some row
  ↔ (row ∈ upserts (project previous next) ∧ rowKey row = key)
    ∨ ((key ∉ rowKey <$> upserts (project previous next))
       ∧ (key ∉ deletes (project previous next))
       ∧ table !! key = Some row).
Proof.
  unfold applyDelta. rewrite lookup_foldr_upsert, lookup_foldr_delete_Some.
  - tauto.
  - simpl. apply NoDup_fmap_2_strong.
    + intros r1 r2 [_ H1]%list_elem_of_filter [_ H2]%list_elem_of_filter.
      by apply (liveRows_key_inj next).
    + apply NoDup_filter. eapply NoDup_fmap_1, liveRows_NoDup.
Qed.

(** Committing a record keeps the derived rows consistent with the
    entities. *)
Lemma commitRecord_consistent current db id record :
  keyedByID (db_entities db) → derivedConsistent db →
  JSMap.get id current = JSMap.get id (db_entities db) →
  entityID (entity record) = id →
  keyedByID (db_entities (commitRecord current db (id, record)))
  ∧ derivedConsistent (commitRecord current db (id, record))
  ∧ ∀ id', id' ≠ id →
      JSMap.get id' (db_entities (commitRecord current db (id, record)))
      = JSMap.get id' (db_entities db).
Proof.
  intros [Hnd Hkeyed] Hcons Hcur Hid. unfold commitRecord.
  rewrite Hcur. case_decide as Hsame; [done|].
  set (previous := JSMap.get id (db_entities db)) in *.
  set (before := from_option liveRows [] (entity <$> previous)).
  set (after := liveRows (entity record)).
  assert (Hbefore : ∀ row, row ∈ before ↔
            ∃ prev, previous = Some prev ∧ row ∈ liveRows (entity prev)).
  { intros row. unfold before. destruct previous as [prev|]; simpl.
    - split; [by exists prev|by intros (? & [= <-] & ?)].
    - split; [by intros ?%elem_of_nil|by intros (? & [=] & _)]. }
  assert (Hbefore_id : ∀ row, row ∈ before → row_taskID row = id).
  { intros row (prev & Hprev & Hrow)%Hbefore.
    rewrite (liveRows_taskID _ _ Hrow). by apply Hkeyed. }
  assert (Hbefore_inj : ∀ r1 r2, r1 ∈ before → r2 ∈ before →
            rowKey r1 = rowKey r2 → r1 = r2).
  { intros r1 r2 (p1 & Hp1 & H1)%Hbefore (p2 & Hp2 & H2)%Hbefore.
    assert (p1 = p2) as <- by congruence.
    by apply (liveRows_key_inj (entity p1)). }
  assert (Hafter_id : ∀ row, row ∈ after → row_taskID row = id).
  { intros row Hrow. by rewrite (liveRows_taskID _ _ Hrow). }
  split_and!; cbn [db_entities db_derived_taskComponents].
  - split; [by apply NoDup_keys_set|].
    intros id' record'. rewrite get_set. case_decide; [|by apply Hkeyed].
    intros [= <-]. by subst.
  - intros key row. cbn [db_entities db_derived_taskComponents].
    rewrite lookup_applyDelta. cbn [upserts deletes project].
    fold before after. split.
    + intros [[[Hnew Hrow]%list_elem_of_filter Hkey]|(Hup & Hdel & Hold)].
      * split; [done|]. exists id, record. by rewrite get_set_eq.
      * apply Hcons in Hold as (Hkey & id0 & rec0 & Hget0 & Hrow).
        split; [done|]. destruct (decide (id0 = id)) as [->|Hne].
        -- exists id, record. rewrite get_set_eq. split; [done|].
           assert (Hrow_before : row ∈ before).
           { apply Hbefore. by exists rec0. }
           assert (Hin : key ∈ rowKey <$> after).
           { destruct (decide (key ∈ rowKey <$> after)) as [|Hnot]; [done|].
             destruct Hdel. apply list_elem_of_filter. split; [done|].
             rewrite <- Hkey. by apply list_elem_of_fmap_2. }
           apply list_elem_of_fmap in Hin as (row' & Hkey' & Hrow').
           destruct (decide (row' ∈ before)) as [Hb|Hb].
           ++ by rewrite (Hbefore_inj row row' Hrow_before Hb) by congruence.
           ++ destruct Hup. rewrite Hkey'. apply list_elem_of_fmap_2.
              by apply list_elem_of_filter.
        -- exists id0, rec0. by rewrite get_set_ne.
    + intros (Hkey & id' & record' & Hget & Hrow).
      rewrite get_set in Hget. case_decide as Hid'.
      * injection Hget as <-. clear Hid'.
        destruct (decide (row ∈ before)) as [Hb|Hb].
        -- right. split_and!.
           ++ intros (row' & Hkey' & [Hnew Hrow']%list_elem_of_filter)
                %list_elem_of_fmap.
              apply Hnew.
              by rewrite <- (liveRows_key_inj _ row row' Hrow Hrow')
                by congruence.
           ++ intros [Hnot _]%list_elem_of_filter. apply Hnot.
              rewrite <- Hkey. by apply list_elem_of_fmap_2.
           ++ apply Hcons. split; [done|].
              apply Hbefore in Hb as (prev & Hprev & Hb).
              by exists id, prev.
        -- left. split; [|done]. by apply list_elem_of_filter.
      * pose proof (liveRows_taskID _ _ Hrow) as Htid.
        rewrite (Hkeyed _ _ Hget) in Htid. right. split_and!.
        -- intros (row' & Hkey' & [_ Hrow']%list_elem_of_filter)
             %list_elem_of_fmap.
           apply Hafter_id in Hrow'. apply Hid'.
           rewrite <- Hrow', <- Htid.
           assert (rowKey row = rowKey row') as [= ? _] by congruence.
           done.
        -- intros [_ (row' & Hkey' & Hrow')%list_elem_of_fmap]
             %list_elem_of_filter.
           apply Hbefore_id in Hrow'. apply Hid'.
           rewrite <- Hrow', <- Htid.
           assert (rowKey row = rowKey row') as [= ? _] by congruence.
           done.
        -- apply Hcons. split; [done|]. by exists id', record'.
  - intros id' Hne. by rewrite get_set_ne.
Qed.

Lemma fold_commitRecord_consistent current entries db :
  NoDup entries.*1 →
  (∀ id record, (id, record) ∈ entries → entityID (entity record) = id) →
  keyedByID (db_entities db) → derivedConsistent db →
  (∀ id, id ∈ entries.*1 →
         JSMap.get id current = JSMap.get id (db_entities db)) →
  keyedByID (db_entities (fold_left (commitRecord current) entries db))
  ∧ derivedConsistent (fold_left (commitRecord current) entries db).
Proof.
  revert db. induction entries as [|[id record] entries IH];
    intros db Hnd Hids Hkeyed Hcons Hcur; [done|].
  rewrite fmap_cons in Hnd. apply NoDup_cons in Hnd as [Hid Hnd].
  cbn [fst] in Hid. cbn [fold_left].
  destruct (commitRecord_consistent current db id record)
    as (Hkeyed' & Hcons' & Hother); [done|done| |by apply Hids; left|].
  { apply Hcur. left. }
  apply IH; [done| |done|done|].
  - intros id' record' Hin. apply Hids. by right.
  - intros id' Hin. rewrite Hother.
    + apply Hcur. by right.
    + by intros ->.
Qed.

Lemma derivedConsistent_emptyDatabase : derivedConsistent emptyDatabase.
Proof.
  intros key row. simpl. rewrite lookup_empty. split; [done|].
  by intros (_ & id & record & [=] & _).
Qed.

(** How the consistency of the derived rows reads for one component and
    for one row. *)
Lemma derivedConsistent_live_component db id record task c state :
  keyedByID (db_entities db) → derivedConsistent db →
  JSMap.get id (db_entities db) = Some record →
  entity record = Entity_Task task → task_isDeleted task = false →
  task_componentStates task !! c = Some state →
  db_derived_taskComponents db !! (id, c)
  = Some {| row_taskID := id; row_componentID := c;
            row_dueTimestampMillis := css_dueTimestampMillis state |}.
Proof.
  intros [_ Hkeyed] Hcons Hget Htask Hlive Hc.
  pose proof (Hkeyed _ _ Hget) as Hid. rewrite Htask in Hid. simpl in Hid.
  apply Hcons. split; [done|]. exists id, record. split; [done|].
  rewrite Htask. apply liveRows_task. split; [done|].
  exists c, state. split; [done|]. unfold rowOf. by rewrite Hid.
Qed.

Lemma derivedConsistent_row db key row :
  keyedByID (db_entities db) → derivedConsistent db →
  db_derived_taskComponents db !! key = Some row →
  ∃ record task state,
    JSMap.get key.1 (db_entities db) = Some record
    ∧ entity record = Entity_Task task
    ∧ task_isDeleted task = false
    ∧ task_componentStates task !! key.2 = Some state
    ∧ row = {| row_taskID := key.1; row_componentID := key.2;
               row_dueTimestampMillis := css_dueTimestampMillis state |}.
Proof.
  intros [_ Hkeyed] Hcons (<- & id & record & Hget & Hrow)%Hcons.
  pose proof (Hkeyed _ _ Hget) as Hid.
  destruct (entity record) as [task|a] eqn:Htask;
    [|by apply elem_of_nil in Hrow].
  apply liveRows_task in Hrow as (Hlive & c & state & Hc & ->).
  simpl in Hid. exists record, task, state. cbn. rewrite Hid.
  split_and!; try done. unfold rowOf. by rewrite Hid.
Qed.

Lemma keyedByID_set entities record :
  keyedByID entities →
  keyedByID (JSMap.set (entityID (entity record)) record entities).
Proof.
  intros [Hnd Hkeyed]. split; [by apply NoDup_keys_set|].
  intros id record'. rewrite get_set. case_decide; [|by apply Hkeyed].
  intros [= <-]. done.
Qed.

(** The map that [putEntities] hands to [modifyEntities] is keyed by id. *)
Lemma keyedByID_mapByID records : keyedByID (mapByID records).
Proof.
  unfold mapByID. induction records as [|e records IH] using rev_ind.
  - split; [apply NoDup_nil_2|done].
  - rewrite fold_left_app. by apply keyedByID_set.
Qed.

(** C4: a [modifyEntities] call keeps the derived rows consistent with the
    entities: afterwards every component of every stored task that is not
    deleted has its row, with the task's id, the component's id and the
    component's due time, and the table holds no other row, so removed
    components and deleted entities have none. The entity table is keyed
    by entity id, before the call and in the transform's result. The empty
    database is consistent. Inserting the test tasks gives the two rows of
    task a due at 50, and the update that removes component b and moves
    the due time to 300 leaves the one row of component a due at 300. *)
Theorem modifyEntities_keeps_derived_rows_consistent :
  (∀ idsToLock transform db,
     keyedByID (db_entities db) → derivedConsistent db →
     (∀ updated, transform (db_entities db) = Some updated →
                 keyedByID updated) →
     let db' := modifyEntities idsToLock transform db in
     keyedByID (db_entities db') ∧ derivedConsistent db'
     ∧ (∀ id record task c state,
          JSMap.get id (db_entities db') = Some record →
          entity record = Entity_Task task → task_isDeleted task = false →
          task_componentStates task !! c = Some state →
          db_derived_taskComponents db' !! (id, c)
          = Some {| row_taskID := id; row_componentID := c;
                    row_dueTimestampMillis := css_dueTimestampMillis state |})
     ∧ (∀ key row,
          db_derived_taskComponents db' !! key = Some row →
          ∃ record task state,
            JSMap.get key.1 (db_entities db') = Some record
            ∧ entity record = Entity_Task task
            ∧ task_isDeleted task = false
            ∧ task_componentStates task !! key.2 = Some state
            ∧ row = {| row_taskID := key.1; row_componentID := key.2;
                       row_dueTimestampMillis :=
                         css_dueTimestampMillis state |}))
  ∧ (keyedByID (db_entities emptyDatabase) ∧ derivedConsistent emptyDatabase)
  ∧ derivedRowsOfTask "a" (putEntities testTasks emptyDatabase)
    = [ {| row_taskID := "a"; row_componentID := "a";
           row_dueTimestampMillis := 50 |};
        {| row_taskID := "a"; row_componentID := "b";
           row_dueTimestampMillis := 50 |} ]
  ∧ derivedRowsOfTask "a"
      (modifiedOnUpdate (putEntities testTasks emptyDatabase))
    = [ {| row_taskID := "a"; row_componentID := "a";
           row_dueTimestampMillis := 300 |} ].
Proof.
  split_and!; [|by split; [apply NoDup_nil_2|]
               |apply derivedConsistent_emptyDatabase
               |by vm_compute|by vm_compute].
  intros idsToLock transform db Hkeyed Hcons Htransform db'.
  assert (Hdb' : keyedByID (db_entities db') ∧ derivedConsistent db').
  { subst db'. unfold modifyEntities.
    destruct (transform (db_entities db)) as [updated|] eqn:Hupdated; [|done].
    destruct (Htransform updated eq_refl) as [Hnd Hids].
    apply fold_commitRecord_consistent; try done.
    intros id record Hin. apply Hids. by apply elem_of_get_Some. }
  destruct Hdb' as [Hkeyed' Hcons']. split_and!; [done|done| |].
  - intros id record task c state. by apply derivedConsistent_live_component.
  - intros key row. by apply derivedConsistent_row.
Qed.

Lemma modifyEntities_keeps_derived_rows_consistent_witness :
  let db' := putEntities testTasks emptyDatabase in
  keyedByID (db_entities db') ∧ derivedConsistent db'
  ∧ (∀ id record task c state,
       JSMap.get id (db_entities db') = Some record →
       entity record = Entity_Task task → task_isDeleted task = false →
       task_componentStates task !! c = Some state →
       db_derived_taskComponents db' !! (id, c)
       = Some {| row_taskID := id; row_componentID := c;
                 row_dueTimestampMillis := css_dueTimestampMillis state |})
  ∧ (∀ key row,
       db_derived_taskComponents db' !! key = Some row →
       ∃ record task state,
         JSMap.get key.1 (db_entities db') = Some record
         ∧ entity record = Entity_Task task
         ∧ task_isDeleted task = false
         ∧ task_componentStates task !! key.2 = Some state
         ∧ row = {| row_taskID := key.1; row_componentID := key.2;
                    row_dueTimestampMillis := css_dueTimestampMillis state |}).
Proof.
  apply (proj1 modifyEntities_keeps_derived_rows_consistent []
           (λ _, Some (mapByID testTasks)) emptyDatabase).
  - split; [apply NoDup_nil_2|done].
  - apply derivedConsistent_emptyDatabase.
  - intros updated [= <-]. apply keyedByID_mapByID.
Defined.

(** ** When a call returns *)

Lemma forOf_total_elem_of {A X} (body : A → X → M A) xs acc w :
  (∀ a x w1, x ∈ xs → ∃ a' w2, body a x w1 = (Ok a', w2)) →
  ∃ acc' w', forOf body xs acc w = (Ok acc', w').
Proof.
  revert acc w. induction xs as [|x xs IH]; intros acc w Hbody; simpl;
    [by eexists _, _|].
  destruct (Hbody acc x w ltac:(left)) as (a' & w2 & Hx).
  destruct (IH a' w2) as (acc' & w' & Hxs).
  { intros. apply Hbody. by right. }
  exists acc', w'. apply bind_Ok. by exists a', w2.
Qed.

(** The call returns when the stored tasks of its sources carry their item
    identifiers and no source with existing entities lists an identifier
    twice. *)
Lemma ingestSources_returns sources opts w :
  (∀ s e, s ∈ sources → e ∈ storedTasks w →
          fromSource (source_identifier s) e →
          truthy (itemIdentifierOf e) = true) →
  (∀ s, s ∈ sources →
        entitiesOfSource (source_identifier s) (storedTasks w) ≠ [] →
        NoDup (incomingItemIdentifiers s)) →
  ∃ events w', ingestSources sources opts w = (Ok events, w').
Proof.
  intros Hkeys Hnodup. rewrite ingestSources_unfold.
  destruct (forOf_total_elem_of
              (ingestSource
                 (groupEntitiesByProvenanceIdentifiers (storedTasks w))
                 (ingestDateOf opts w))
              sources (JSMap.empty, JSMap.empty) w)
    as ([I D] & wc & Hclassify).
  { intros [I D] s w1 Hs. unfold ingestSource.
    rewrite groupEntitiesByProvenanceIdentifiers_get.
    destruct (entitiesOfSource (source_identifier s) (storedTasks w))
      as [|e0 g] eqn:Hg.
    - destruct (forOf_total
                  (λ ingestEvents item,
                     ingestEvent ← createIngestTaskForSource s
                                     (ingestDateOf opts w) item;
                     ret (JSMap.set (item_identifier item) ingestEvent
                            ingestEvents))
                  (source_items s) I w1) as (I1 & w2 & HI1).
      { intros. by eexists _, _. }
      exists (I1, D), w2. apply bind_Ok. by exists I1, w2.
    - destruct (mapEntitiesByItemIdentifier_total (e0 :: g)) as [E HE].
      { intros e He. rewrite <- Hg in He.
        apply elem_of_entitiesOfSource in He as [Hfrom He].
        by apply (Hkeys s). }
      pose proof (mapIngestibleItemsByItemIdentifier_total (source_items s))
        as HN.
      rewrite HE, HN by (apply Hnodup; [done|by rewrite Hg]).
      rewrite bind_unfold. cbn [liftResult]. rewrite bind_unfold.
      cbn [liftResult].
      set (N := itemEntry <$> source_items s).
      destruct (forOf_total
                  (λ ingestEvents '(key, potentialNewItem),
                     match JSMap.get key E with
                     | None =>
                         ev ← createIngestTaskForSource s
                                (ingestDateOf opts w) potentialNewItem;
                         ret (JSMap.set key ev ingestEvents)
                     | Some _ => ret ingestEvents
                     end)
                  (JSMap.entries N) I w1) as (I1 & w2 & HI1).
      { intros a [k item] w3. destruct (JSMap.get k E); by eexists _, _. }
      destruct (forOf_total
                  (λ deleteEvents '(key, existingTask),
                     match JSMap.get key N with
                     | None =>
                         ev ← createDeleteTaskEvent existingTask
                                (ingestDateOf opts w);
                         ret (JSMap.set key ev deleteEvents)
                     | Some _ => ret deleteEvents
                     end)
                  (JSMap.entries E) D w2) as (D1 & w3 & HD1).
      { intros a [k e] w4. destruct (JSMap.get k N); by eexists _, _. }
      exists (I1, D1), w3.
      apply bind_Ok. exists I1, w2. split; [done|].
      apply bind_Ok. by exists D1, w3. }
  destruct (forOf_total detectMove (JSMap.entries I) (I, D, []) wc)
    as (st & w' & Hmoves).
  { intros [[Ia Da] Ua] [k ev] w1. unfold detectMove.
    destruct (JSMap.get k Da); by eexists _, _. }
  exists (concatEvents st), w'.
  apply bind_Ok. exists (I, D), wc. split; [done|].
  apply bind_Ok. by exists st, w'.
Qed.

(** * Further properties of the ingester *)

(** ** The two keyed mappings, exactly *)

Lemma forOfR_app {A X} (body : A → X → Result A) xs ys acc :
  forOfR body (xs ++ ys) acc
  = match forOfR body xs acc with
    | Ok acc' => forOfR body ys acc'
    | Throw e => Throw e
    end.
Proof.
  revert acc. induction xs as [|x xs IH]; intros acc; simpl; [done|].
  destruct (body acc x); [apply IH|done].
Qed.

Lemma keys_itemEntry (items : list IngestibleItem) :
  JSMap.keys (itemEntry <$> items) = item_identifier <$> items.
Proof. unfold JSMap.keys. by rewrite <- list_fmap_compose. Qed.

(** X1: [mapIngestibleItemsByItemIdentifier] returns exactly when no two
    items share an identifier, and then the map lists the items in their
    order, each under its identifier. *)
Theorem mapIngestibleItemsByItemIdentifier_returns_iff items N :
  mapIngestibleItemsByItemIdentifier items = Ok N
  ↔ NoDup (item_identifier <$> items) ∧ N = itemEntry <$> items.
Proof.
  split.
  - by intros [? ?]%mapIngestibleItemsByItemIdentifier_Ok.
  - intros [Hnd ->]. by apply mapIngestibleItemsByItemIdentifier_total.
Qed.

(** The error names the first item whose identifier an earlier item has. *)
Lemma mapIngestibleItemsByItemIdentifier_Throw_first items err :
  mapIngestibleItemsByItemIdentifier items = Throw err →
  ∃ pre item post,
    items = pre ++ item :: post
    ∧ NoDup (item_identifier <$> pre)
    ∧ item_identifier item ∈ item_identifier <$> pre
    ∧ err = DuplicateItemIdentifierError (item_identifier item).
Proof.
  induction items as [|x items IH] using rev_ind; [done|].
  unfold mapIngestibleItemsByItemIdentifier. rewrite forOfR_app.
  fold (mapIngestibleItemsByItemIdentifier items).
  destruct (mapIngestibleItemsByItemIdentifier items) as [N|e] eqn:Hrun.
  - apply mapIngestibleItemsByItemIdentifier_Ok in Hrun as [-> Hnd]. simpl.
    destruct (JSMap.get _ _) eqn:Hget; [|done]. intros [= <-].
    exists items, x, []. split_and!; try done.
    apply get_Some_key in Hget. by rewrite keys_itemEntry in Hget.
  - intros [= ->].
    destruct (IH eq_refl) as (pre & item & post & -> & ? & ? & ?).
    exists pre, item, (post ++ [x]). by rewrite <- app_assoc.
Qed.

Lemma mapIngestibleItemsByItemIdentifier_Throw_at pre item post :
  NoDup (item_identifier <$> pre) →
  item_identifier item ∈ item_identifier <$> pre →
  mapIngestibleItemsByItemIdentifier (pre ++ item :: post)
  = Throw (DuplicateItemIdentifierError (item_identifier item)).
Proof.
  intros Hnd Hin.
  unfold mapIngestibleItemsByItemIdentifier. rewrite forOfR_app.
  fold (mapIngestibleItemsByItemIdentifier pre).
  rewrite (mapIngestibleItemsByItemIdentifier_total _ Hnd). simpl.
  destruct (JSMap.get _ _) eqn:Hget; [done|].
  apply get_None in Hget. by rewrite keys_itemEntry in Hget.
Qed.

(** X2: [mapIngestibleItemsByItemIdentifier] throws exactly when some item
    repeats the identifier of an earlier one, and the error names the
    identifier of the first such item. *)
Theorem mapIngestibleItemsByItemIdentifier_throws_iff items err :
  mapIngestibleItemsByItemIdentifier items = Throw err
  ↔ ∃ pre item post,
      items = pre ++ item :: post
      ∧ NoDup (item_identifier <$> pre)
      ∧ item_identifier item ∈ item_identifier <$> pre
      ∧ err = DuplicateItemIdentifierError (item_identifier item).
Proof.
  split; [apply mapIngestibleItemsByItemIdentifier_Throw_first|].
  intros (pre & item & post & -> & Hnd & Hin & ->).
  by apply mapIngestibleItemsByItemIdentifier_Throw_at.
Qed.

Lemma truthy_false x : truthy x = false ↔ x = None ∨ x = Some "".
Proof.
  destruct x as [s|]; simpl.
  - destruct (String.eqb_spec s "") as [->|Hs]; simpl.
    + split; [by right|done].
    + split; [done|]. intros [|[= ?]]; done.
  - split; [by left|done].
Qed.

(** X3: when stored tasks of one group share an item identifier, the map
    of [mapEntitiesByItemIdentifier] holds the last of them under it. *)
Theorem mapEntitiesByItemIdentifier_last_wins group E :
  mapEntitiesByItemIdentifier group = Ok E →
  ∀ k, JSMap.get k E
       = last (filter (λ e, itemIdentifierOf e = Some k) group).
Proof.
  intros Hrun.
  apply (forOfR_invariant _
    (λ pre a, ∀ k, JSMap.get k a
                   = last (filter (λ e, itemIdentifierOf e = Some k) pre))
    _ _ _ Hrun); [done|].
  intros pre x post a a' _ Hget. cbv beta zeta.
  fold (itemIdentifierOf x).
  destruct (truthy (itemIdentifierOf x)) eqn:Ht; [|done].
  apply truthy_Some in Ht as (i & Hi & _). rewrite Hi. simpl.
  intros [= <-] k. rewrite get_set, filter_app, filter_cons, filter_nil, Hi.
  repeat case_decide; try congruence.
  - by rewrite last_snoc.
  - by rewrite app_nil_r.
Qed.

Lemma mapEntitiesByItemIdentifier_last_wins_witness :
  JSMap.get "a" [("a", sampleTask "task-2" (Some "S") (Some "a"))]
  = last (filter (λ e, itemIdentifierOf e = Some "a") sharedIdentifierGroup).
Proof.
  apply (mapEntitiesByItemIdentifier_last_wins sharedIdentifierGroup).
  by vm_compute.
Defined.

(** X4: [mapEntitiesByItemIdentifier] throws exactly when a task of the
    group has no item identifier or the empty string as one, and then it
    throws [MissingItemIdentifierError]. *)
Theorem mapEntitiesByItemIdentifier_throws_iff group err :
  mapEntitiesByItemIdentifier group = Throw err
  ↔ err = MissingItemIdentifierError
    ∧ ∃ e, e ∈ group
           ∧ (itemIdentifierOf e = None ∨ itemIdentifierOf e = Some "").
Proof.
  split.
  - intros Hrun. split; [by apply mapEntitiesByItemIdentifier_Throw in Hrun|].
    apply mapEntitiesByItemIdentifier_Throw_elem_of in Hrun as (e & ? & Ht).
    exists e. by rewrite <- truthy_false.
  - intros (-> & e & He & Ht%truthy_false).
    by apply (mapEntitiesByItemIdentifier_missing _ e).
Qed.

(** ** When a call returns, exactly *)

Lemma forOf_unchanged {A X} (body : A → X → M A) xs acc w :
  (∀ a x w1, x ∈ xs → body a x w1 = (Ok a, w1)) →
  forOf body xs acc w = (Ok acc, w).
Proof.
  induction xs as [|x xs IH]; intros Hbody; simpl; [done|].
  rewrite bind_unfold, Hbody by left. apply IH. intros. apply Hbody. by right.
Qed.

Lemma forOf_Ok_elem_of {A X} (body : A → X → M A) xs acc w acc' w' x :
  forOf body xs acc w = (Ok acc', w') → x ∈ xs →
  ∃ a w1 a' w2, body a x w1 = (Ok a', w2).
Proof.
  revert acc w. induction xs as [|y xs IH]; intros acc w; simpl.
  - by intros _ ?%elem_of_nil.
  - intros (a1 & w1 & Hy & Hxs)%bind_Ok [->|Hin]%elem_of_cons.
    + by exists acc, w, a1, w1.
    + by apply (IH _ _ Hxs).
Qed.

(** A source with existing entities passes only when the two keyed
    mappings can be built. *)
Lemma ingestSource_Ok_inv entities t maps s w1 r w2 :
  ingestSource (groupEntitiesByProvenanceIdentifiers entities) t maps s w1
  = (Ok r, w2) →
  entitiesOfSource (source_identifier s) entities ≠ [] →
  (∀ e, e ∈ entitiesOfSource (source_identifier s) entities →
        truthy (itemIdentifierOf e) = true)
  ∧ NoDup (incomingItemIdentifiers s).
Proof.
  destruct maps as [I D]. unfold ingestSource.
  rewrite groupEntitiesByProvenanceIdentifiers_get.
  destruct (entitiesOfSource (source_identifier s) entities)
    as [|e0 g] eqn:Hg; [done|].
  intros (E & wE & [HE ->]%liftResult_Ok & Hrest)%bind_Ok _.
  apply bind_Ok in Hrest as (N & wN & [HN ->]%liftResult_Ok & _).
  split.
  - intros e He. destruct (truthy (itemIdentifierOf e)) eqn:Ht; [done|].
    by rewrite (mapEntitiesByItemIdentifier_missing _ e He Ht) in HE.
  - by apply mapIngestibleItemsByItemIdentifier_Ok in HN as [_ ?].
Qed.

(** X5: a call returns exactly when the stored tasks of its sources carry
    their item identifiers and no source with existing entities lists an
    identifier twice; otherwise it throws. *)
Theorem ingestSources_returns_iff sources opts w :
  (∃ events w', ingestSources sources opts w = (Ok events, w'))
  ↔ (∀ s e, s ∈ sources → e ∈ storedTasks w →
            fromSource (source_identifier s) e →
            truthy (itemIdentifierOf e) = true)
    ∧ (∀ s, s ∈ sources →
            entitiesOfSource (source_identifier s) (storedTasks w) ≠ [] →
            NoDup (incomingItemIdentifiers s)).
Proof.
  split; [|intros [? ?]; by apply ingestSources_returns].
  intros (events & w' & Hrun).
  apply ingestSources_Ok in Hrun as (I & D & wc & _ & _ & _ & Hclassify & _).
  split.
  - intros s e Hs He Hfrom.
    destruct (forOf_Ok_elem_of _ _ _ _ _ _ _ Hclassify Hs)
      as (a & w1 & a' & w2 & Hrun).
    assert (Hin : e ∈ entitiesOfSource (source_identifier s) (storedTasks w))
      by by apply elem_of_entitiesOfSource.
    apply ingestSource_Ok_inv in Hrun as [Hall _]; [by apply Hall|].
    intros Hnil. rewrite Hnil in Hin. by apply elem_of_nil in Hin.
  - intros s Hs Hne.
    destruct (forOf_Ok_elem_of _ _ _ _ _ _ _ Hclassify Hs)
      as (a & w1 & a' & w2 & Hrun).
    by apply ingestSource_Ok_inv in Hrun as [_ ?].
Qed.

(** ** Sources that did not change *)

Lemma ingestSource_in_sync entities t maps s w :
  (∀ e, e ∈ entitiesOfSource (source_identifier s) entities →
        truthy (itemIdentifierOf e) = true) →
  NoDup (incomingItemIdentifiers s) →
  (∀ k, k ∈ incomingItemIdentifiers s
        ↔ k ∈ existingItemIdentifiers
                (entitiesOfSource (source_identifier s) entities)) →
  ingestSource (groupEntitiesByProvenanceIdentifiers entities) t maps s w
  = (Ok maps, w).
Proof.
  intros Hkeys Hnd Hsync. destruct maps as [I D]. unfold ingestSource.
  rewrite groupEntitiesByProvenanceIdentifiers_get.
  destruct (entitiesOfSource (source_identifier s) entities)
    as [|e0 g] eqn:Hg.
  - destruct (source_items s) as [|x xs] eqn:Hitems; [done|].
    exfalso. apply (elem_of_nil (item_identifier x)), Hsync.
    unfold incomingItemIdentifiers. rewrite Hitems. left.
  - destruct (mapEntitiesByItemIdentifier_total _ Hkeys) as [E HE].
    pose proof (mapEntitiesByItemIdentifier_Ok _ _ HE) as (_ & HkE & _).
    rewrite HE, (mapIngestibleItemsByItemIdentifier_total _ Hnd).
    rewrite bind_unfold. cbn [liftResult]. rewrite bind_unfold.
    cbn [liftResult]. rewrite bind_unfold, forOf_unchanged.
    + rewrite bind_unfold, forOf_unchanged; [done|].
      intros a [k e] w1 Hin.
      assert (is_Some (JSMap.get k (itemEntry <$> source_items s)))
        as [? ->]; [|done].
      apply get_is_Some. rewrite keys_itemEntry. apply Hsync, HkE.
      apply list_elem_of_fmap. by exists (k, e).
    + intros a [k item] w1 Hin.
      assert (is_Some (JSMap.get k E)) as [? ->]; [|done].
      apply get_is_Some, HkE, Hsync.
      apply list_elem_of_fmap in Hin as (it & [= -> ->] & Hit).
      by apply list_elem_of_fmap_2.
Qed.

(** X6: sources that list exactly the item identifiers their stored tasks
    carry yield no event, and the call draws no identifier; in particular
    a call without sources returns no event. *)
Theorem unchanged_sources_yield_no_events sources opts w :
  (∀ s e, s ∈ sources → e ∈ storedTasks w →
          fromSource (source_identifier s) e →
          truthy (itemIdentifierOf e) = true) →
  (∀ s, s ∈ sources → NoDup (incomingItemIdentifiers s)) →
  (∀ s k, s ∈ sources →
          k ∈ incomingItemIdentifiers s
          ↔ k ∈ existingItemIdentifiers
                  (entitiesOfSource (source_identifier s) (storedTasks w))) →
  ingestSources sources opts w = (Ok [], w).
Proof.
  intros Hkeys Hnd Hsync. rewrite ingestSources_unfold.
  rewrite bind_unfold. unfold classifySources. rewrite forOf_unchanged; [done|].
  intros maps s w1 Hs. apply ingestSource_in_sync;
    [|by apply Hnd|intros k; by apply Hsync].
  intros e [? ?]%elem_of_entitiesOfSource. by apply (Hkeys s).
Qed.

Lemma unchanged_sources_yield_no_events_witness :
  ingestSources unchangedSources sampleOptions reingestWorld
  = (Ok [], reingestWorld).
Proof.
  apply unchanged_sources_yield_no_events.
  - intros s e _ He _. revert e He. apply Forall_forall. compute_done.
  - intros s ->%list_elem_of_singleton. compute_done.
  - intros s k ->%list_elem_of_singleton.
    assert (existingItemIdentifiers
              (entitiesOfSource "S" (storedTasks reingestWorld))
            = ["a"; "b"]) as Hex by (by vm_compute).
    change (source_identifier _) with "S". rewrite Hex.
    change (incomingItemIdentifiers _) with ["b"; "a"].
    rewrite !elem_of_cons, !elem_of_nil. tauto.
Defined.

(** ** The events of a result *)

(** X7: a result holds at most one ingest event per item identifier, and
    it holds one exactly for the identifiers that some source of the call
    lists without having a stored task for it, and that no source of the
    call has a stored task for without listing it. *)
Theorem ingest_event_iff sources opts w events w' k :
  ingestSources sources opts w = (Ok events, w') →
  length (ingestEventsFor k events) ≤ 1
  ∧ (ingestEventsFor k events ≠ []
     ↔ (∃ s, s ∈ sources ∧ onlyIncoming (storedTasks w) s k)
       ∧ ¬ ∃ s, s ∈ sources ∧ onlyExisting (storedTasks w) s k).
Proof.
  intros (I & D & wc & I' & D' & U & Hclassify & Hmoves & ->)%ingestSources_Ok.
  rewrite (result_ingestEventsFor sources opts w wc w' _ I I' D D' U
             Hclassify Hmoves eq_refl k).
  rewrite <- (classified_keys_I _ _ _ _ _ _ _ k Hclassify).
  rewrite <- (classified_keys_D _ _ _ _ _ _ _ k Hclassify).
  case_decide as HD.
  - split; [simpl; lia|]. split; [done|]. by intros [_ []].
  - destruct (JSMap.get k I) as [ev|] eqn:HI.
    + split; [simpl; lia|]. split; [|done]. intros _.
      split; [by apply get_Some_key in HI|done].
    + split; [simpl; lia|]. split; [done|]. intros [HkI _].
      by apply get_None in HI.
Qed.

Lemma ingest_event_iff_witness :
  length (ingestEventsFor "c" reingestEvents) ≤ 1
  ∧ (ingestEventsFor "c" reingestEvents ≠ []
     ↔ (∃ s, s ∈ reingestSources
             ∧ onlyIncoming (storedTasks reingestWorld) s "c")
       ∧ ¬ ∃ s, s ∈ reingestSources
                ∧ onlyExisting (storedTasks reingestWorld) s "c").
Proof.
  apply (ingest_event_iff reingestSources sampleOptions reingestWorld
           reingestEvents (afterDraws 3 reingestWorld) "c").
  by vm_compute.
Defined.

(** X8: every event of a result carries the ingest date of the call, the
    option when given and the clock's time otherwise, and every delete
    event of a result marks its task as deleted. *)
Theorem events_carry_the_ingest_date sources opts w events w' :
  ingestSources sources opts w = (Ok events, w') →
  (∀ ev, ev ∈ events → timestampMillis ev = ingestDateOf opts w)
  ∧ (∀ e, TaskUpdateDeleted e ∈ events → tde_isDeleted e = true).
Proof.
  intros (I & D & wc & I' & D' & U & Hclassify & Hmoves & ->)%ingestSources_Ok.
  pose proof (classifySources_spec _ _ _ _ _ _ _ Hclassify)
    as (_ & HndI & HndD & _).
  pose proof (detectMoves_spec _ _ _ _ _ _ _ HndI HndD Hmoves)
    as (_ & HndI' & HndD' & HgI' & HgD' & HU).
  assert (HD' : ∀ e, e ∈ JSMap.values D' →
                     tde_timestampMillis e = ingestDateOf opts w
                     ∧ tde_isDeleted e = true).
  { intros e [k Hk]%elem_of_values; [|done].
    rewrite HgD' in Hk. case_decide; [done|].
    by destruct (classified_delete _ _ _ _ _ _ _ _ _ Hclassify Hk)
      as (_ & _ & _ & _ & _ & _ & _ & _ & ? & ?). }
  unfold concatEvents. split.
  - intros ev. rewrite !elem_of_app, !list_elem_of_fmap.
    intros [(e & -> & Hin)|[(e & -> & Hin)|(e & -> & Hin)]]; simpl.
    + apply elem_of_values in Hin as [k Hk]; [|done].
      rewrite HgI' in Hk. case_decide; [done|].
      by destruct (classified_ingest _ _ _ _ _ _ _ _ _ Hclassify Hk)
        as (_ & ? & _).
    + by apply HD'.
    + apply list_elem_of_lookup in Hin as [j Hj].
      destruct (Forall2_lookup_r _ _ _ _ _ HU Hj)
        as (k & _ & (ie & de & w1 & w2 & Hk & _ & _ & Hcreate & _)).
      apply createUpdateProvenanceEvent_Ok in Hcreate as (_ & _ & -> & _).
      by destruct (classified_ingest _ _ _ _ _ _ _ _ _ Hclassify Hk)
        as (_ & ? & _).
  - intros e. rewrite !elem_of_app, !list_elem_of_fmap.
    intros [(? & [=] & _)|[(e' & [= <-] & Hin)|(? & [=] & _)]].
    by apply HD'.
Qed.

Lemma events_carry_the_ingest_date_witness :
  (∀ ev, ev ∈ reingestEvents → timestampMillis ev = 1000%Q)
  ∧ (∀ e, TaskUpdateDeleted e ∈ reingestEvents → tde_isDeleted e = true).
Proof.
  apply (events_carry_the_ingest_date reingestSources sampleOptions
           reingestWorld reingestEvents (afterDraws 3 reingestWorld)).
  by vm_compute.
Defined.

(** X9: an ingest event of a result is for an item that a source of the
    call lists: it has the item's spec, the item's identifier as its
    metadata and the provenance of that source, no stored task of that
    source carries the item's identifier, and no source of the call has a
    stored task with that identifier that it no longer lists. *)
Theorem ingest_events_come_from_listed_items sources opts w events w' ev :
  ingestSources sources opts w = (Ok events, w') →
  TaskIngest ev ∈ events →
  ∃ source item,
    source ∈ sources ∧ item ∈ source_items source
    ∧ tie_spec ev = item_spec item
    ∧ tie_metadata ev
      = {[ INGEST_ITEM_IDENTIFIER_KEY := item_identifier item ]}
    ∧ tie_provenance ev = sourceProvenance source
    ∧ (∀ e, e ∈ storedTasks w → fromSource (source_identifier source) e →
            itemIdentifierOf e ≠ Some (item_identifier item))
    ∧ (∀ s, s ∈ sources →
            ¬ onlyExisting (storedTasks w) s (item_identifier item)).
Proof.
  intros (I & D & wc & I' & D' & U & Hclassify & Hmoves & ->)%ingestSources_Ok.
  pose proof (classifySources_spec _ _ _ _ _ _ _ Hclassify)
    as (_ & HndI & HndD & _).
  pose proof (detectMoves_spec _ _ _ _ _ _ _ HndI HndD Hmoves)
    as (_ & HndI' & _ & HgI' & _).
  unfold concatEvents. rewrite !elem_of_app, !list_elem_of_fmap.
  intros [(ev' & [= <-] & Hin)|[(? & [=] & _)|(? & [=] & _)]].
  apply elem_of_values in Hin as [k Hk]; [|done].
  rewrite HgI' in Hk. case_decide as HkD; [done|].
  destruct (classified_ingest _ _ _ _ _ _ _ _ _ Hclassify Hk)
    as (Hmeta & _ & source & item & n & Hs & Hitem & <- & [_ Hnew] & Hprov
        & Hspec & _).
  exists source, item. split_and!; try done.
  - intros e He Hfrom Hid. apply Hnew. apply list_elem_of_omap.
    exists e. split; [by apply elem_of_entitiesOfSource|done].
  - intros s Hs' Hold. apply HkD.
    apply (classified_keys_D _ _ _ _ _ _ _ _ Hclassify). by exists s.
Qed.

Lemma ingest_events_come_from_listed_items_witness :
  ∃ source item,
    source ∈ reingestSources ∧ item ∈ source_items source
    ∧ tie_spec (sampleIngestEvent 0 "S" "c") = item_spec item
    ∧ tie_metadata (sampleIngestEvent 0 "S" "c")
      = {[ INGEST_ITEM_IDENTIFIER_KEY := item_identifier item ]}
    ∧ tie_provenance (sampleIngestEvent 0 "S" "c") = sourceProvenance source
    ∧ (∀ e, e ∈ storedTasks reingestWorld →
            fromSource (source_identifier source) e →
            itemIdentifierOf e ≠ Some (item_identifier item))
    ∧ (∀ s, s ∈ reingestSources →
            ¬ onlyExisting (storedTasks reingestWorld) s
                (item_identifier item)).
Proof.
  apply (ingest_events_come_from_listed_items reingestSources sampleOptions
           reingestWorld reingestEvents (afterDraws 3 reingestWorld)).
  - by vm_compute.
  - left.
Defined.

(** X10: a provenance update of a result moves a stored task to another
    source: the new provenance is that of a source of the call that lists
    the task's item identifier, and the task is not a task of that
    source. *)
Theorem provenance_updates_change_the_source sources opts w events w' u :
  ingestSources sources opts w = (Ok events, w') →
  TaskUpdateProvenance u ∈ events →
  ∃ source e k,
    source ∈ sources ∧ tpe_provenance u = sourceProvenance source
    ∧ e ∈ storedTasks w ∧ tpe_entityID u = task_id e
    ∧ itemIdentifierOf e = Some k ∧ k ∈ incomingItemIdentifiers source
    ∧ ¬ fromSource (source_identifier source) e.
Proof.
  intros (I & D & wc & I' & D' & U & Hclassify & Hmoves & ->)%ingestSources_Ok.
  pose proof (classifySources_spec _ _ _ _ _ _ _ Hclassify)
    as (_ & HndI & HndD & _).
  pose proof (detectMoves_spec _ _ _ _ _ _ _ HndI HndD Hmoves)
    as (_ & _ & _ & _ & _ & HU).
  unfold concatEvents. rewrite !elem_of_app, !list_elem_of_fmap.
  intros [(? & [=] & _)|[(? & [=] & _)|(u' & [= <-] & Hin)]].
  apply list_elem_of_lookup in Hin as [j Hj].
  destruct (Forall2_lookup_r _ _ _ _ _ HU Hj)
    as (k & _ & (ie & de & w1 & w2 & HkI & HkD & _ & Hcreate & _)).
  apply createUpdateProvenanceEvent_Ok in Hcreate as (_ & Hid & _ & Hprov & _).
  destruct (classified_ingest _ _ _ _ _ _ _ _ _ Hclassify HkI)
    as (_ & _ & source & item & n & Hs & Hitem & _ & [Hlisted Hnew] & Hsp & _).
  destruct (classified_delete _ _ _ _ _ _ _ _ _ Hclassify HkD)
    as (s & e & _ & He & _ & Hkey & _ & Hde & _).
  exists source, e, k. split_and!; try done; try congruence.
  intros Hfrom. apply Hnew. apply list_elem_of_omap.
  exists e. split; [by apply elem_of_entitiesOfSource|done].
Qed.

Lemma provenance_updates_change_the_source_witness :
  ∃ source e k,
    source ∈ moveSources
    ∧ tpe_provenance (sampleProvenanceEvent 3 "task-x" "B")
      = sourceProvenance source
    ∧ e ∈ storedTasks moveWorld
    ∧ tpe_entityID (sampleProvenanceEvent 3 "task-x" "B") = task_id e
    ∧ itemIdentifierOf e = Some k ∧ k ∈ incomingItemIdentifiers source
    ∧ ¬ fromSource (source_identifier source) e.
Proof.
  apply (provenance_updates_change_the_source moveSources sampleOptions
           moveWorld
           [TaskUpdateProvenance (sampleProvenanceEvent 3 "task-x" "B")]
           (afterDraws 4 moveWorld)).
  - by vm_compute.
  - left.
Defined.

(** ** Where [DuplicateItemIdentifierError] comes from *)

(** X11: a call throws [DuplicateItemIdentifierError] only for a source
    that has stored tasks, all of them carrying their item identifiers, and
    whose list of items repeats an identifier; the error names the
    identifier of the first item that repeats an earlier one. *)
Theorem duplicate_error_origin sources opts w k :
  (ingestSources sources opts w).1 = Throw (DuplicateItemIdentifierError k) →
  ∃ s pre item post,
    s ∈ sources
    ∧ entitiesOfSource (source_identifier s) (storedTasks w) ≠ []
    ∧ (∀ e, e ∈ storedTasks w → fromSource (source_identifier s) e →
            truthy (itemIdentifierOf e) = true)
    ∧ source_items s = pre ++ item :: post
    ∧ NoDup (item_identifier <$> pre)
    ∧ item_identifier item = k
    ∧ k ∈ item_identifier <$> pre.
Proof.
  intros Hthrow%ingestSources_Throw_classify.
  destruct (classifySources _ _ _ _) as [r wc] eqn:Hrun.
  simpl in Hthrow. subst r.
  apply forOf_Throw in Hrun as (s & [I D] & w1 & Hs & Hrun).
  exists s. unfold ingestSource in Hrun.
  rewrite groupEntitiesByProvenanceIdentifiers_get in Hrun.
  destruct (entitiesOfSource (source_identifier s) (storedTasks w))
    as [|e0 g] eqn:Hg.
  - apply bind_Throw in Hrun as [Hrun|(I1 & w2 & _ & [=])].
    exfalso. revert Hrun. apply forOf_total_no_Throw.
    intros. by eexists _, _.
  - apply bind_Throw in Hrun as [Hrun|(E & wE & [HE _]%liftResult_Ok & Hrun)].
    { injection Hrun as Hrun _.
      by apply mapEntitiesByItemIdentifier_Throw in Hrun. }
    apply bind_Throw in Hrun as [Hrun|(N & wN & _ & Hrun)].
    { injection Hrun as Hrun _.
      apply mapIngestibleItemsByItemIdentifier_Throw_first in Hrun
        as (pre & item & post & Hitems & Hnd & Hin & [= ->]).
      exists pre, item, post. split_and!; try done.
      intros e He Hfrom.
      destruct (truthy (itemIdentifierOf e)) eqn:Ht; [done|].
      rewrite (mapEntitiesByItemIdentifier_missing _ e) in HE; [done| |done].
      rewrite <- Hg. by apply elem_of_entitiesOfSource. }
    apply bind_Throw in Hrun as [Hrun|(I1 & w2 & _ & Hrun)].
    { exfalso. revert Hrun. apply forOf_total_no_Throw.
      intros a [k' item] w2. destruct (JSMap.get k' E); by eexists _, _. }
    apply bind_Throw in Hrun as [Hrun|(D1 & w3 & _ & [=])].
    exfalso. revert Hrun. apply forOf_total_no_Throw.
    intros a [k' e] w3. destruct (JSMap.get k' N); by eexists _, _.
Qed.

Lemma duplicate_error_origin_witness :
  ∃ s pre item post,
    s ∈ duplicateFirstSources
    ∧ entitiesOfSource (source_identifier s) (storedTasks duplicateFirstWorld)
      ≠ []
    ∧ (∀ e, e ∈ storedTasks duplicateFirstWorld →
            fromSource (source_identifier s) e →
            truthy (itemIdentifierOf e) = true)
    ∧ source_items s = pre ++ item :: post
    ∧ NoDup (item_identifier <$> pre)
    ∧ item_identifier item = "x"
    ∧ "x" ∈ item_identifier <$> pre.
Proof.
  apply (duplicate_error_origin duplicateFirstSources sampleOptions
           duplicateFirstWorld "x").
  by vm_compute.
Defined.

(** ** What becomes of a stored task *)

(** X12: the fate of a stored task whose item identifier no other stored
    task of the sources carries, in a store with distinct ids. The result
    holds at most one event for the task, a delete event or a provenance
    update. It holds one exactly when a source of the call that the task
    belongs to no longer lists the task's item identifier: a provenance
    update when some source of the call lists the identifier without
    having a stored task for it, a delete event otherwise. *)
Theorem stored_task_fate sources opts w events w' e k :
  ingestSources sources opts w = (Ok events, w') →
  NoDup (task_id <$> storedTasks w) →
  e ∈ storedTasks w →
  itemIdentifierOf e = Some k →
  (∀ e', e' ∈ storedTasks w → fromSources sources e' →
         itemIdentifierOf e' = Some k → e' = e) →
  let deletes := deleteEventsOf (task_id e) events in
  let updates := provenanceUpdatesOf (task_id e) events in
  let dropped :=
    ∃ s, s ∈ sources ∧ fromSource (source_identifier s) e
         ∧ k ∉ incomingItemIdentifiers s in
  let adopted := ∃ s, s ∈ sources ∧ onlyIncoming (storedTasks w) s k in
  length deletes + length updates ≤ 1
  ∧ (deletes ≠ [] ↔ dropped ∧ ¬ adopted)
  ∧ (updates ≠ [] ↔ dropped ∧ adopted).
Proof.
  intros Hrun Hids He Hk Huniq. cbv zeta.
  pose proof Hrun
    as (I & D & wc & I' & D' & U & Hclassify & Hmoves & ->)%ingestSources_Ok.
  rewrite <- (classified_keys_I _ _ _ _ _ _ _ k Hclassify).
  assert (Hdropped :
    (∃ s, s ∈ sources ∧ fromSource (source_identifier s) e
          ∧ k ∉ incomingItemIdentifiers s)
    ↔ k ∈ JSMap.keys D).
  { rewrite (classified_keys_D _ _ _ _ _ _ _ k Hclassify). split.
    - intros (s & Hs & Hfrom & Hout). exists s. split; [done|].
      split; [|done]. apply list_elem_of_omap. exists e.
      split; [by apply elem_of_entitiesOfSource|done].
    - intros (s & Hs & [Hin Hout]).
      apply list_elem_of_omap in Hin
        as (e' & [Hfrom He']%elem_of_entitiesOfSource & Hk').
      assert (e' = e) as ->.
      { apply Huniq; [done| |done]. apply Exists_exists. by exists s. }
      by exists s. }
  rewrite Hdropped. clear Hdropped.
  destruct (JSMap.get k D) as [ev|] eqn:HkD.
  - assert (tde_entityID ev = task_id e) as Hev.
    { destruct (classified_delete _ _ _ _ _ _ _ _ _ Hclassify HkD)
        as (s & e' & Hs & He' & Hfrom & Hk' & _ & Hid & _).
      assert (e' = e) as ->; [|done].
      apply Huniq; [done| |done]. apply Exists_exists. by exists s. }
    pose proof (result_deleteEventsOf sources opts w wc w' _ I I' D D' U
                  Hclassify Hmoves eq_refl k ev Hids HkD) as Hdel.
    pose proof (result_provenanceUpdatesOf sources opts w wc w' _ I I' D D' U
                  Hclassify Hmoves eq_refl k ev Hids HkD) as Hupd.
    rewrite Hev in Hdel, Hupd. apply get_Some_key in HkD.
    destruct (JSMap.get k I) as [ie|] eqn:HkI.
    + apply get_Some_key in HkI. rewrite decide_True in Hdel by done.
      destruct Hupd as (u & -> & _). rewrite Hdel. simpl.
      split; [lia|]. split; split; try done. by intros [_ []].
    + apply get_None in HkI. rewrite decide_False in Hdel by done.
      rewrite Hdel, Hupd. simpl.
      split; [lia|]. split; split; try done. by intros [_ ?].
  - destruct (result_untouched_entity sources opts w wc w' _ I I' D D' U
                Hclassify Hmoves eq_refl (task_id e)) as [-> ->].
    + intros k' ev Hk' Heq.
      destruct (classified_delete _ _ _ _ _ _ _ _ _ Hclassify Hk')
        as (s & e' & Hs & He' & Hfrom & Hke' & _ & Hid & _).
      assert (e' = e) as ->
        by (apply (NoDup_fmap_eq task_id (storedTasks w)); congruence).
      assert (k' = k) as -> by congruence. congruence.
    + apply get_None in HkD. simpl. split; [lia|].
      split; split; try done; by intros [? _].
Qed.

Lemma stored_task_fate_witness :
  let e := sampleTask "task-a" (Some "S") (Some "a") in
  let deletes := deleteEventsOf (task_id e) reingestEvents in
  let updates := provenanceUpdatesOf (task_id e) reingestEvents in
  let dropped :=
    ∃ s, s ∈ reingestSources ∧ fromSource (source_identifier s) e
         ∧ "a" ∉ incomingItemIdentifiers s in
  let adopted :=
    ∃ s, s ∈ reingestSources
         ∧ onlyIncoming (storedTasks reingestWorld) s "a" in
  length deletes + length updates ≤ 1
  ∧ (deletes ≠ [] ↔ dropped ∧ ¬ adopted)
  ∧ (updates ≠ [] ↔ dropped ∧ adopted).
Proof.
  apply (stored_task_fate reingestSources sampleOptions reingestWorld
           reingestEvents (afterDraws 3 reingestWorld)
           (sampleTask "task-a" (Some "S") (Some "a")) "a").
  - by vm_compute.
  - compute_done.
  - compute_done.
  - done.
  - intros e' He' _. revert e' He'.
    apply (proj1 (Forall_forall
             (λ e', itemIdentifierOf e' = Some "a"
                    → e' = sampleTask "task-a" (Some "S") (Some "a")) _)).
    compute_done.
Defined.

(** ** The identifiers of a result *)

Lemma values_set_submseteq {V} (f : V → list string) (m : JSMap.t V) k v :
  JSMap.values (JSMap.set k v m) ≫= f ⊆+ (JSMap.values m ≫= f) ++ f v.
Proof.
  unfold JSMap.values. induction m as [|[k' v'] m IH]; simpl.
  - by rewrite app_nil_r.
  - case_eqb; csimpl.
    + rewrite <- app_assoc. apply submseteq_inserts_l.
      by apply Permutation_submseteq, app_Permutation_comm.
    + rewrite <- app_assoc. by apply submseteq_skips_l.
Qed.

Lemma values_delete_submseteq {V} (f : V → list string) (m : JSMap.t V) k :
  JSMap.values (JSMap.delete k m) ≫= f ⊆+ JSMap.values m ≫= f.
Proof.
  unfold JSMap.values. induction m as [|[k' v'] m IH]; simpl; [done|].
  case_eqb; csimpl.
  - by apply submseteq_inserts_l.
  - by apply submseteq_skips_l.
Qed.

Lemma drawnIn_submseteq w n1 n2 ids ids' :
  ids' ⊆+ ids → drawnIn w n1 n2 ids → drawnIn w n1 n2 ids'.
Proof.
  intros Hsub [Hnd Hin]. split.
  - apply submseteq_sublist_l in Hsub as (l & Hl & Hperm).
    apply (sublist_NoDup _ l); [by rewrite Hperm|done].
  - intros id Hid. apply Hin. by apply (elem_of_submseteq ids').
Qed.

Lemma drawnIn_mono w n1 n2 n2' ids :
  n2 ≤ n2' → drawnIn w n1 n2 ids → drawnIn w n1 n2' ids.
Proof.
  intros Hle [Hnd Hin]. split; [done|]. intros id Hid.
  destruct (Hin id Hid) as (n & ? & ?). exists n. split; [lia|done].
Qed.

(** Identifiers drawn later are new, when the source of identifiers does
    not repeat itself. *)
Lemma drawnIn_step w n1 n2 old fresh new :
  uniqueIDs w → idsDrawn w ≤ n1 → n1 ≤ n2 →
  new ⊆+ old ++ fresh →
  drawnIn w (idsDrawn w) n1 old → drawnIn w n1 n2 fresh →
  drawnIn w (idsDrawn w) n2 new.
Proof.
  intros Hunique Hle1 Hle2 Hsub [Hnd1 Hin1] [Hnd2 Hin2].
  apply (drawnIn_submseteq _ _ _ _ _ Hsub). split.
  - apply NoDup_app. split_and!; [done| |done].
    intros id (n & ? & ->)%Hin1 (n' & ? & Heq)%Hin2.
    apply Hunique in Heq; lia.
  - intros id [(n & ? & ->)%Hin1|(n & ? & ->)%Hin2]%elem_of_app;
      exists n; (split; [lia|done]).
Qed.

Lemma createIngestTaskForSource_drawn w source t item w1 ev w2 :
  uniqueIDs w → laterWorld w w1 →
  createIngestTaskForSource source t item w1 = (Ok ev, w2) →
  laterWorld w1 w2
  ∧ drawnIn w (idsDrawn w1) (idsDrawn w2) (generatedIDs (TaskIngest ev)).
Proof.
  intros Hunique (_ & _ & Hsrc & Hle).
  intros (Hid & Hent & _ & _ & _ & _ & Hn & Hl)%createIngestTaskForSource_Ok.
  split; [done|]. simpl. rewrite Hid, Hent, Hsrc, Hn. split.
  - apply NoDup_cons. split; [|apply NoDup_singleton].
    intros Heq%list_elem_of_singleton. apply Hunique in Heq; lia.
  - intros id [->|[->|?%elem_of_nil]%elem_of_cons]%elem_of_cons;
      [exists (idsDrawn w1)|exists (S (idsDrawn w1))|done];
      (split; [lia|done]).
Qed.

Lemma createDeleteTaskEvent_drawn w task t w1 ev w2 :
  laterWorld w w1 →
  createDeleteTaskEvent task t w1 = (Ok ev, w2) →
  laterWorld w1 w2
  ∧ drawnIn w (idsDrawn w1) (idsDrawn w2)
      (generatedIDs (TaskUpdateDeleted ev)).
Proof.
  intros (_ & _ & Hsrc & Hle).
  intros (Hid & _ & _ & _ & Hn & Hl)%createDeleteTaskEvent_Ok.
  split; [done|]. simpl. rewrite Hid, Hsrc, Hn.
  split; [apply NoDup_singleton|].
  intros id ->%list_elem_of_singleton. exists (idsDrawn w1).
  split; [lia|done].
Qed.

Lemma createUpdateProvenanceEvent_drawn w i ie w1 ev w2 :
  laterWorld w w1 →
  createUpdateProvenanceEvent i ie w1 = (Ok ev, w2) →
  laterWorld w1 w2
  ∧ drawnIn w (idsDrawn w1) (idsDrawn w2)
      (generatedIDs (TaskUpdateProvenance ev)).
Proof.
  intros (_ & _ & Hsrc & Hle).
  intros (Hid & _ & _ & _ & Hn & Hl)%createUpdateProvenanceEvent_Ok.
  split; [done|]. simpl. rewrite Hid, Hsrc, Hn.
  split; [apply NoDup_singleton|].
  intros id ->%list_elem_of_singleton. exists (idsDrawn w1).
  split; [lia|done].
Qed.

(** A loop that leaves its map alone or sets an event made from fresh
    identifiers keeps the identifiers of the map, and of whatever else
    was made so far, distinct. *)
Lemma forOf_set_drawn {X V} (f : V → list string)
    (body : JSMap.t V → X → M (JSMap.t V)) w others xs acc w1 acc' w2 :
  uniqueIDs w →
  (∀ a x wa a' wb,
     laterWorld w wa → body a x wa = (Ok a', wb) →
     laterWorld wa wb
     ∧ (a' = a
        ∨ ∃ k v, a' = JSMap.set k v a
                 ∧ drawnIn w (idsDrawn wa) (idsDrawn wb) (f v))) →
  laterWorld w w1 →
  forOf body xs acc w1 = (Ok acc', w2) →
  drawnIn w (idsDrawn w) (idsDrawn w1) ((JSMap.values acc ≫= f) ++ others) →
  laterWorld w1 w2
  ∧ drawnIn w (idsDrawn w) (idsDrawn w2)
      ((JSMap.values acc' ≫= f) ++ others).
Proof.
  intros Hunique Hbody. revert acc w1.
  induction xs as [|x xs IH]; intros acc w1 Hl; simpl.
  - by intros [<- <-]%ret_Ok.
  - intros (a1 & wa & Hx & Hxs)%bind_Ok Hdrawn.
    destruct (Hbody _ _ _ _ _ Hl Hx) as [Hl1 Hstep].
    assert (Hla : laterWorld w wa) by by trans w1.
    destruct (IH a1 wa Hla Hxs) as [Hl2 Hdone].
    + destruct Hl as (_ & _ & _ & ?). destruct Hl1 as (_ & _ & _ & ?).
      destruct Hstep as [->|(k & v & -> & Hfresh)].
      * by apply (drawnIn_mono _ _ (idsDrawn w1)).
      * apply (drawnIn_step _ (idsDrawn w1) _
                 ((JSMap.values acc ≫= f) ++ others) (f v)); try done.
        trans (((JSMap.values acc ≫= f) ++ f v) ++ others).
        -- apply submseteq_skips_r, values_set_submseteq.
        -- apply Permutation_submseteq. rewrite <- !app_assoc.
           f_equiv. apply app_Permutation_comm.
    + split; [by trans wa|done].
Qed.

Lemma generatedIDs_concat I D U :
  concatEvents (I, D, U) ≫= generatedIDs
  = (JSMap.values I ≫= generatedIDs ∘ TaskIngest)
    ++ (JSMap.values D ≫= generatedIDs ∘ TaskUpdateDeleted)
    ++ (U ≫= generatedIDs ∘ TaskUpdateProvenance).
Proof. unfold concatEvents. by rewrite !bind_app, !list_fmap_bind. Qed.

Lemma ingestSource_drawn w G t I D s w1 I' D' w2 :
  uniqueIDs w → laterWorld w w1 →
  ingestSource G t (I, D) s w1 = (Ok (I', D'), w2) →
  drawnIn w (idsDrawn w) (idsDrawn w1)
    (concatEvents (I, D, []) ≫= generatedIDs) →
  laterWorld w1 w2
  ∧ drawnIn w (idsDrawn w) (idsDrawn w2)
      (concatEvents (I', D', []) ≫= generatedIDs).
Proof.
  intros Hunique Hl. rewrite !generatedIDs_concat. csimpl.
  rewrite !app_nil_r.
  assert (Hingest : ∀ (a : JSMap.t TaskIngestEvent) k item wa a' wb,
    laterWorld w wa →
    (ev ← createIngestTaskForSource s t item; ret (JSMap.set k ev a)) wa
    = (Ok a', wb) →
    laterWorld wa wb
    ∧ (a' = a
       ∨ ∃ k v, a' = JSMap.set k v a
                ∧ drawnIn w (idsDrawn wa) (idsDrawn wb)
                    ((generatedIDs ∘ TaskIngest) v))).
  { intros a k item wa a' wb Hla.
    intros (ev & wc & Hcreate & [<- <-]%ret_Ok)%bind_Ok.
    destruct (createIngestTaskForSource_drawn _ _ _ _ _ _ _ Hunique Hla
                Hcreate) as [? ?].
    split; [done|]. right. by exists k, ev. }
  unfold ingestSource. destruct (JSMap.get _ G) as [group|].
  - intros (E & wE & [HE ->]%liftResult_Ok & Hrest)%bind_Ok.
    apply bind_Ok in Hrest as (N & wN & [HN ->]%liftResult_Ok & Hrest).
    apply bind_Ok in Hrest as (I1 & wI & HI1 & Hrest).
    apply bind_Ok in Hrest as (D1 & wD & HD1 & [[= <- <-] <-]%ret_Ok).
    intros Hdrawn.
    apply (forOf_set_drawn (generatedIDs ∘ TaskIngest) _ w
             (JSMap.values D ≫= generatedIDs ∘ TaskUpdateDeleted))
      in HI1 as [Hl1 Hd1]; [|done| |done|done].
    2:{ intros a [k item] wa a' wb Hla. destruct (JSMap.get k E).
        - intros [<- <-]%ret_Ok. split; [done|by left].
        - by apply Hingest. }
    apply (forOf_set_drawn (generatedIDs ∘ TaskUpdateDeleted) _ w
             (JSMap.values I1 ≫= generatedIDs ∘ TaskIngest))
      in HD1 as [Hl2 Hd2]; [|done| |by trans w1|].
    + split; [by trans wI|].
      revert Hd2. apply drawnIn_submseteq, Permutation_submseteq.
      apply app_Permutation_comm.
    + intros a [k e] wa a' wb Hla. destruct (JSMap.get k N).
      * intros [<- <-]%ret_Ok. split; [done|by left].
      * intros (ev & wc & Hcreate & [<- <-]%ret_Ok)%bind_Ok.
        destruct (createDeleteTaskEvent_drawn _ _ _ _ _ _ Hla Hcreate)
          as [? ?].
        split; [done|]. right. by exists k, ev.
    + revert Hd1. apply drawnIn_submseteq, Permutation_submseteq.
      apply app_Permutation_comm.
  - intros (I1 & wI & HI1 & [[= <- <-] <-]%ret_Ok)%bind_Ok Hdrawn.
    apply (forOf_set_drawn (generatedIDs ∘ TaskIngest) _ w
             (JSMap.values D ≫= generatedIDs ∘ TaskUpdateDeleted))
      in HI1 as [Hl1 Hd1]; [done|done| |done|done].
    intros a item wa a' wb. apply Hingest.
Qed.

Lemma classifySources_drawn w entities t sources I D wc :
  uniqueIDs w →
  classifySources entities t sources w = (Ok (I, D), wc) →
  laterWorld w wc
  ∧ drawnIn w (idsDrawn w) (idsDrawn wc)
      (concatEvents (I, D, []) ≫= generatedIDs).
Proof.
  intros Hunique. unfold classifySources.
  cut (∀ maps w1,
         laterWorld w w1 →
         forOf (ingestSource (groupEntitiesByProvenanceIdentifiers entities) t)
           sources maps w1 = (Ok (I, D), wc) →
         drawnIn w (idsDrawn w) (idsDrawn w1)
           (concatEvents (maps.1, maps.2, []) ≫= generatedIDs) →
         laterWorld w1 wc
         ∧ drawnIn w (idsDrawn w) (idsDrawn wc)
             (concatEvents (I, D, []) ≫= generatedIDs)).
  { intros Hcut Hrun. apply (Hcut _ _ (reflexivity w) Hrun).
    split; [apply NoDup_nil_2|]. by intros id ?%elem_of_nil. }
  induction sources as [|s sources IH]; intros [I0 D0] w1 Hl; simpl.
  - by intros [[= <- <-] <-]%ret_Ok.
  - intros ([I1 D1] & wa & Hs & Hrest)%bind_Ok Hdrawn.
    destruct (ingestSource_drawn _ _ _ _ _ _ _ _ _ _ Hunique Hl Hs Hdrawn)
      as [Hl1 Hd1].
    destruct (IH (I1, D1) wa) as [Hl2 Hd2]; [by trans w1|done|done|].
    split; [by trans wa|done].
Qed.

Lemma detectMoves_drawn w I D wc I' D' U w' :
  uniqueIDs w → laterWorld w wc →
  detectMoves (I, D) wc = (Ok (I', D', U), w') →
  drawnIn w (idsDrawn w) (idsDrawn wc)
    (concatEvents (I, D, []) ≫= generatedIDs) →
  laterWorld wc w'
  ∧ drawnIn w (idsDrawn w) (idsDrawn w')
      (concatEvents (I', D', U) ≫= generatedIDs).
Proof.
  intros Hunique. unfold detectMoves. cbn [fst snd].
  generalize (JSMap.entries I) at 1. generalize (I, D, @nil TaskUpdateProvenanceEvent).
  intros st entries. revert st wc.
  induction entries as [|[k ie] entries IH]; intros [[Ia Da] Ua] w1 Hl; simpl.
  - by intros [[= <- <- <-] <-]%ret_Ok.
  - intros (st1 & wa & Hstep & Hrest)%bind_Ok Hdrawn.
    assert (laterWorld w1 wa
            ∧ drawnIn w (idsDrawn w) (idsDrawn wa)
                (concatEvents st1 ≫= generatedIDs)) as [Hl1 Hd1].
    { destruct (JSMap.get k Da) as [de|].
      - apply bind_Ok in Hstep as (ev & wu & Hcreate & [<- <-]%ret_Ok).
        destruct (createUpdateProvenanceEvent_drawn _ _ _ _ _ _ Hl Hcreate)
          as [Hl1 Hfresh].
        split; [done|].
        destruct Hl as (_ & _ & _ & ?). destruct Hl1 as (_ & _ & _ & ?).
        apply (drawnIn_step _ (idsDrawn w1) _
                 (concatEvents (Ia, Da, Ua) ≫= generatedIDs)
                 (generatedIDs (TaskUpdateProvenance ev))); try done.
        rewrite !generatedIDs_concat, bind_app, bind_singleton.
        rewrite <- !app_assoc.
        apply submseteq_app; [apply values_delete_submseteq|].
        apply submseteq_app; [apply values_delete_submseteq|done].
      - apply ret_Ok in Hstep as [<- <-]. done. }
    destruct (IH st1 wa) as [Hl2 Hd2]; [by trans w1|done|done|].
    split; [by trans wa|done].
Qed.

(** X13: when [generateUniqueID] does not repeat itself, the identifiers
    of a result are pairwise distinct: the ids of its events and the ids
    of the tasks its ingest events create. Each of them was drawn during
    the call. *)
Theorem generated_ids_are_distinct sources opts w events w' :
  uniqueIDs w →
  ingestSources sources opts w = (Ok events, w') →
  NoDup (events ≫= generatedIDs)
  ∧ ∀ id, id ∈ events ≫= generatedIDs →
          ∃ n, idsDrawn w ≤ n < idsDrawn w' ∧ id = idSource w n.
Proof.
  intros Hunique.
  intros (I & D & wc & I' & D' & U & Hclassify & Hmoves & ->)%ingestSources_Ok.
  destruct (classifySources_drawn _ _ _ _ _ _ _ Hunique Hclassify)
    as [Hl1 Hd1].
  by destruct (detectMoves_drawn _ _ _ _ _ _ _ _ Hunique Hl1 Hmoves Hd1).
Qed.

Lemma generated_ids_are_distinct_witness :
  NoDup (reingestEvents ≫= generatedIDs)
  ∧ ∀ id, id ∈ reingestEvents ≫= generatedIDs →
          ∃ n, 0 ≤ n < 3 ∧ id = sampleIDs n.
Proof.
  apply (generated_ids_are_distinct reingestSources sampleOptions
           reingestWorld reingestEvents (afterDraws 3 reingestWorld)).
  - intros m n _ _ Heq. apply (inj (String.append "id-")) in Heq.
    by apply (inj pretty) in Heq.
  - by vm_compute.
Defined.

(** ** Which listing of an identifier is ingested *)

Lemma forOf_app {A X} (body : A → X → M A) xs ys acc w :
  forOf body (xs ++ ys) acc w
  = (acc' ← forOf body xs acc; forOf body ys acc') w.
Proof.
  revert acc w. induction xs as [|x xs IH]; intros acc w; simpl; [done|].
  rewrite !bind_unfold. destruct (body acc x w) as [[a|e] w1]; [|done].
  by rewrite IH, bind_unfold.
Qed.

Lemma forOf_keeps {A X B} (body : A → X → M A) (read : A → B)
    xs acc w acc' w' :
  (∀ a x wa a' wb,
     x ∈ xs → body a x wa = (Ok a', wb) → read a' = read a) →
  forOf body xs acc w = (Ok acc', w') → read acc' = read acc.
Proof.
  revert acc w. induction xs as [|x xs IH]; intros acc w Hbody; simpl.
  - by intros [<- _]%ret_Ok.
  - intros (a1 & w1 & Hx & Hxs)%bind_Ok.
    rewrite (IH _ _ (λ a y wa a' wb Hy, Hbody a y wa a' wb
                       (list_elem_of_further _ _ _ Hy)) Hxs).
    apply (Hbody _ _ _ _ _ (list_elem_of_here _ _) Hx).
Qed.

(** A source that does not have [k] only among its incoming items leaves
    the ingest event under [k] as it is. *)
Lemma ingestSource_keeps entities t I D s w1 I' D' w2 k :
  ingestSource (groupEntitiesByProvenanceIdentifiers entities) t (I, D) s w1
  = (Ok (I', D'), w2) →
  ¬ onlyIncoming entities s k →
  JSMap.get k I' = JSMap.get k I.
Proof.
  intros Hrun Hnot.
  destruct (ingestSource_spec _ _ _ _ _ _ _ _ _ Hrun)
    as (_ & _ & _ & HkI & _ & HgI & _).
  assert (Hold : ∀ ev, JSMap.get k I' = Some ev → JSMap.get k I = Some ev).
  { intros ev [?|(s' & ? & ? & ? & ->%list_elem_of_singleton & _ & _ & ? & _)]
      %HgI; done. }
  destruct (JSMap.get k I) as [ev|] eqn:HI.
  - destruct (JSMap.get k I') as [ev'|] eqn:HI'.
    + by rewrite (Hold _ eq_refl).
    + apply get_None in HI'. exfalso. apply HI', HkI. left.
      by apply (get_Some_key _ _ ev).
  - destruct (JSMap.get k I') as [ev'|] eqn:HI'; [|done].
    by rewrite (Hold _ eq_refl).
Qed.

(** Setting the events of the items of a source one after the other:
    under an identifier, the event of the last item with it stays. *)
Lemma forOf_ingest_last (body : JSMap.t TaskIngestEvent → IngestibleItem
                                → M (JSMap.t TaskIngestEvent))
    s t before item after acc w acc' w' :
  (∀ a i wa,
     i = item ∨ i ∈ after →
     body a i wa
     = (ev ← createIngestTaskForSource s t i;
        ret (JSMap.set (item_identifier i) ev a)) wa) →
  (∀ i, i ∈ after → item_identifier i ≠ item_identifier item) →
  forOf body (before ++ item :: after) acc w = (Ok acc', w') →
  ∃ ev, JSMap.get (item_identifier item) acc' = Some ev
        ∧ tie_spec ev = item_spec item
        ∧ tie_provenance ev = sourceProvenance s.
Proof.
  intros Hbody Hafter. rewrite forOf_app.
  intros (a0 & w0 & _ & Hrun)%bind_Ok. simpl in Hrun.
  apply bind_Ok in Hrun as (a1 & w1 & Hitem & Hrest).
  rewrite Hbody in Hitem by by left.
  apply bind_Ok in Hitem as (ev & w2 & Hcreate & [<- <-]%ret_Ok).
  apply createIngestTaskForSource_Ok in Hcreate
    as (_ & _ & Hspec & _ & _ & Hprov & _).
  exists ev. split; [|done].
  rewrite <- (get_set_eq a0 (item_identifier item) ev).
  apply (forOf_keeps body (JSMap.get (item_identifier item)) after _ w2 _ w');
    [|done].
  intros a i wa a' wb Hi. rewrite Hbody by by right.
  intros (ev' & w3 & _ & [<- <-]%ret_Ok)%bind_Ok.
  apply get_set_ne. by apply Hafter.
Qed.

Lemma ingestSource_last_listing entities t I D s w1 I' D' w2
    before item after :
  ingestSource (groupEntitiesByProvenanceIdentifiers entities) t (I, D) s w1
  = (Ok (I', D'), w2) →
  source_items s = before ++ item :: after →
  (∀ i, i ∈ after → item_identifier i ≠ item_identifier item) →
  onlyIncoming entities s (item_identifier item) →
  ∃ ev, JSMap.get (item_identifier item) I' = Some ev
        ∧ tie_spec ev = item_spec item
        ∧ tie_provenance ev = sourceProvenance s.
Proof.
  intros Hrun Hitems Hafter [_ Hnew]. revert Hrun. unfold ingestSource.
  rewrite groupEntitiesByProvenanceIdentifiers_get.
  destruct (entitiesOfSource (source_identifier s) entities)
    as [|e0 g] eqn:Hg.
  - intros (I1 & wI & HI1 & [[= <- <-] <-]%ret_Ok)%bind_Ok.
    rewrite Hitems in HI1.
    by apply (forOf_ingest_last _ s t) in HI1.
  - intros (E & wE & [HE ->]%liftResult_Ok & Hrest)%bind_Ok.
    apply bind_Ok in Hrest as (N & wN & [HN ->]%liftResult_Ok & Hrest).
    apply bind_Ok in Hrest as (I1 & wI & HI1 & Hrest).
    apply bind_Ok in Hrest as (D1 & wD & HD1 & [[= <- <-] <-]%ret_Ok).
    apply mapEntitiesByItemIdentifier_Ok in HE as (_ & HkE & _).
    apply mapIngestibleItemsByItemIdentifier_Ok in HN as [-> Hnd].
    unfold JSMap.entries in HI1.
    assert (HE : ∀ i, i = item ∨ i ∈ after →
                      JSMap.get (item_identifier i) E = None
                      ∨ item_identifier i ≠ item_identifier item).
    { intros i [->|Hi]; [left|right; by apply Hafter].
      apply get_None. by rewrite HkE. }
    clear HkE Hnew Hg HD1. rewrite Hitems in HI1. clear Hitems Hnd.
    revert HI1. rewrite fmap_app, fmap_cons, forOf_app.
    intros (a0 & w0 & _ & Hrun)%bind_Ok. simpl in Hrun.
    apply bind_Ok in Hrun as (a1 & wa & Hitem & Hrest).
    destruct (HE item) as [Hnone|?]; [by left| |done].
    rewrite Hnone in Hitem.
    apply bind_Ok in Hitem as (ev & w2 & Hcreate & [<- <-]%ret_Ok).
    apply createIngestTaskForSource_Ok in Hcreate
      as (_ & _ & Hspec & _ & _ & Hprov & _).
    exists ev. split; [|done].
    rewrite <- (get_set_eq a0 (item_identifier item) ev).
    revert Hrest.
    apply (forOf_keeps _ (JSMap.get (item_identifier item))).
    intros a [k i] wb a' wc (i' & [= -> ->] & Hi)%list_elem_of_fmap.
    destruct (JSMap.get (item_identifier i') E); [by intros [<- _]%ret_Ok|].
    intros (ev' & w3 & _ & [<- <-]%ret_Ok)%bind_Ok.
    apply get_set_ne. by apply Hafter.
Qed.

(** X14: when an identifier is listed more than once, by several sources
    of a call or by several items of one source that has no stored tasks,
    the ingest event of the result is the one for the last listing: it
    has the spec of the last item with the identifier in the last source
    that lists the identifier without having a stored task for it. *)
Theorem last_listing_wins
    earlier source later before item after opts w events w' ev :
  ingestSources (earlier ++ source :: later) opts w = (Ok events, w') →
  source_items source = before ++ item :: after →
  (∀ i, i ∈ after → item_identifier i ≠ item_identifier item) →
  onlyIncoming (storedTasks w) source (item_identifier item) →
  (∀ s, s ∈ later →
        ¬ onlyIncoming (storedTasks w) s (item_identifier item)) →
  ev ∈ ingestEventsFor (item_identifier item) events →
  tie_spec ev = item_spec item ∧ tie_provenance ev = sourceProvenance source.
Proof.
  intros Hrun Hitems Hafter Hnew Hlater.
  apply ingestSources_Ok in Hrun
    as (I & D & wc & I' & D' & U & Hclassify & Hmoves & ->).
  rewrite (result_ingestEventsFor _ opts w wc w' _ I I' D D' U
             Hclassify Hmoves eq_refl).
  case_decide; [by intros ?%elem_of_nil|].
  revert Hclassify. unfold classifySources. rewrite forOf_app.
  intros ([I0 D0] & w0 & _ & Hrun)%bind_Ok. simpl in Hrun.
  apply bind_Ok in Hrun as ([I1 D1] & w1 & Hsource & Hrest).
  destruct (ingestSource_last_listing _ _ _ _ _ _ _ _ _ _ _ _
              Hsource Hitems Hafter Hnew) as (ev1 & Hev1 & Hspec & Hprov).
  assert (JSMap.get (item_identifier item) I = Some ev1) as ->.
  { rewrite <- Hev1.
    change I with (I, D).1. change I1 with (I1, D1).1.
    revert Hrest.
    apply (forOf_keeps _ (λ maps, JSMap.get (item_identifier item) maps.1)).
    intros [Ia Da] s wa [Ib Db] wb Hs Hstep. simpl.
    eapply ingestSource_keeps; [done|by apply Hlater]. }
  by intros ->%list_elem_of_singleton.
Qed.

Lemma last_listing_wins_witness :
  tie_spec twiceListedEvent = "second"
  ∧ tie_provenance twiceListedEvent = sourceProvenance twiceListedSource.
Proof.
  apply (last_listing_wins [] twiceListedSource []
           [ {| item_identifier := "x"; item_spec := "first" |} ]
           {| item_identifier := "x"; item_spec := "second" |} []
           sampleOptions newSourceWorld [TaskIngest twiceListedEvent]
           (afterDraws 4 newSourceWorld) twiceListedEvent).
  - by vm_compute.
  - done.
  - by intros i ?%elem_of_nil.
  - split; [compute_done|]. by intros ?%elem_of_nil.
  - by intros s ?%elem_of_nil.
  - vm_compute. left.
Defined.

(** ** New sources *)

(** A field that is spread into the provenance only when truthy. *)
Lemma truthy_spread x u :
  (if truthy x then x else None) = Some u ↔ x = Some u ∧ u ≠ "".
Proof.
  destruct x as [s|]; simpl.
  - destruct (String.eqb_spec s "") as [->|Hs]; simpl.
    + split; [done|]. by intros [[= <-] ?].
    + split; [by intros [= <-]|by intros [? _]].
  - split; [done|by intros [? _]].
Qed.

(** C7 (as amended): in a call that returns, every item of a source
    without existing entities whose items have distinct identifiers yields
    exactly one ingest event, with the spec of the item, provided no
    source of the call has an existing entity with the item's identifier
    that it no longer lists (which makes the item a move) and no source
    later in the call lists the identifier as a new item too (then the
    later listing replaces this one). The event carries the ingest date,
    an entity id drawn from [generateUniqueID] during the call, the
    identifier and the title of the source, [url] and [colorPaletteName]
    exactly when the source has a non-empty one, and the item's identifier
    in its metadata. *)
Theorem new_source_items_are_ingested
    earlier source later opts w events w' item :
  ingestSources (earlier ++ source :: later) opts w = (Ok events, w') →
  entitiesOfSource (source_identifier source) (storedTasks w) = [] →
  NoDup (incomingItemIdentifiers source) →
  item ∈ source_items source →
  (∀ s, s ∈ earlier ++ source :: later →
        ¬ onlyExisting (storedTasks w) s (item_identifier item)) →
  (∀ s, s ∈ later →
        ¬ onlyIncoming (storedTasks w) s (item_identifier item)) →
  ∃ ev,
    ingestEventsFor (item_identifier item) events = [ev]
    ∧ tie_spec ev = item_spec item
    ∧ tie_timestampMillis ev = ingestDateOf opts w
    ∧ (∃ n, idsDrawn w ≤ n < idsDrawn w' ∧ tie_entityID ev = idSource w n)
    ∧ prov_identifier (tie_provenance ev) = source_identifier source
    ∧ prov_title (tie_provenance ev) = source_title source
    ∧ (∀ u, prov_url (tie_provenance ev) = Some u
            ↔ source_url source = Some u ∧ u ≠ "")
    ∧ (∀ c, prov_colorPaletteName (tie_provenance ev) = Some c
            ↔ source_colorPaletteName source = Some c ∧ c ≠ "")
    ∧ tie_metadata ev !! INGEST_ITEM_IDENTIFIER_KEY
      = Some (item_identifier item).
Proof.
  intros Hrun Hgroup Hnd Hitem Hnot Hlater.
  apply ingestSources_Ok in Hrun
    as (I & D & wc & I' & D' & U & Hclassify & Hmoves & Hevents).
  pose proof (result_ingestEventsFor _ _ _ _ _ _ _ _ _ _ _ Hclassify Hmoves
                Hevents (item_identifier item)) as Hingest.
  assert (HD : item_identifier item ∉ JSMap.keys D).
  { rewrite (classified_keys_D _ _ _ _ _ _ _ _ Hclassify).
    intros (s & Hs & Hex). by apply (Hnot s). }
  assert (Hnew : onlyIncoming (storedTasks w) source (item_identifier item)).
  { split; [by apply list_elem_of_fmap_2|].
    rewrite Hgroup. apply not_elem_of_nil. }
  apply list_elem_of_split in Hitem as (before & after & Hitems).
  assert (Hafter : ∀ i, i ∈ after → item_identifier i ≠ item_identifier item).
  { intros i Hi Heq. unfold incomingItemIdentifiers in Hnd.
    rewrite Hitems, fmap_app, fmap_cons in Hnd.
    apply NoDup_app in Hnd as (_ & _ & Hnd).
    apply NoDup_cons in Hnd as [Hnotin _]. apply Hnotin.
    rewrite <- Heq. by apply list_elem_of_fmap_2. }
  assert (∃ ev, JSMap.get (item_identifier item) I = Some ev
                ∧ tie_spec ev = item_spec item
                ∧ tie_provenance ev = sourceProvenance source)
    as (ev & Hev & Hspec & Hprov).
  { pose proof Hclassify as Hloop. revert Hloop.
    unfold classifySources. rewrite forOf_app.
    intros ([I0 D0] & w0 & _ & Hloop)%bind_Ok. simpl in Hloop.
    apply bind_Ok in Hloop as ([I1 D1] & w1 & Hsource & Hrest).
    destruct (ingestSource_last_listing _ _ _ _ _ _ _ _ _ _ _ _
                Hsource Hitems Hafter Hnew) as (ev1 & Hev1 & ? & ?).
    exists ev1. split; [|done]. rewrite <- Hev1.
    change I with (I, D).1. change I1 with (I1, D1).1. revert Hrest.
    apply (forOf_keeps _ (λ maps, JSMap.get (item_identifier item) maps.1)).
    intros [Ia Da] s wa [Ib Db] wb Hs Hstep. simpl.
    eapply ingestSource_keeps; [done|by apply Hlater]. }
  rewrite decide_False, Hev in Hingest by done. exists ev.
  destruct (classified_ingest _ _ _ _ _ _ _ _ _ Hclassify Hev)
    as (Hmeta & Ht & _ & _ & n & _ & _ & _ & _ & _ & _ & Hn1 & Hn2 & _ & Heid).
  pose proof (classifySources_spec _ _ _ _ _ _ _ Hclassify)
    as (_ & HndI & HndD & _).
  pose proof (detectMoves_spec _ _ _ _ _ _ _ HndI HndD Hmoves)
    as ((_&_&_&Hle) & _).
  rewrite Hprov, Hmeta. unfold sourceProvenance.
  cbn [prov_identifier prov_title prov_url prov_colorPaletteName].
  split_and!; try done.
  - exists (S n). split; [lia|done].
  - intros u. apply truthy_spread.
  - intros c. apply truthy_spread.
Qed.

Lemma new_source_items_are_ingested_witness :
  ∃ ev,
    ingestEventsFor "q" linkedEvents = [ev]
    ∧ tie_spec ev = "spec of q"
    ∧ tie_timestampMillis ev = 1000%Q
    ∧ (∃ n, 0 ≤ n < 6 ∧ tie_entityID ev = sampleIDs n)
    ∧ prov_identifier (tie_provenance ev) = "N"
    ∧ prov_title (tie_provenance ev) = "Notes"
    ∧ (∀ u, prov_url (tie_provenance ev) = Some u
            ↔ Some "https://example.org/notes" = Some u ∧ u ≠ "")
    ∧ (∀ c, prov_colorPaletteName (tie_provenance ev) = Some c
            ↔ Some "" = Some c ∧ c ≠ "")
    ∧ tie_metadata ev !! INGEST_ITEM_IDENTIFIER_KEY = Some "q".
Proof.
  apply (new_source_items_are_ingested [] linkedSource
           [sampleSource "L" ["r"]] sampleOptions newSourceWorld linkedEvents
           (afterDraws 6 newSourceWorld)
           {| item_identifier := "q"; item_spec := "spec of q" |}).
  - by vm_compute.
  - by vm_compute.
  - compute_done.
  - right. left.
  - intros s Hs [Hin _]. revert Hin.
    apply elem_of_cons in Hs as [->|Hs];
      [|apply list_elem_of_singleton in Hs as ->]; compute_done.
  - intros s ->%list_elem_of_singleton [Hin _]. revert Hin. compute_done.
Defined.

(** C7 as stated fails for an item that moved: source B has no existing
    entities and lists x, but the result holds no ingest event for x,
    because x is the identifier of an entity of source A that A no longer
    lists. It also fails for an item that a later source lists as well:
    the sources N1 and N2 have no existing entities and both list x, and
    the one ingest event for x has the provenance of N2, because the
    ingest events of all sources are kept by item identifier. *)
Lemma new_source_counterexample :
  (let events :=
     [TaskUpdateProvenance (sampleProvenanceEvent 3 "task-x" "B")] in
   (ingestSources moveSources sampleOptions moveWorld).1 = Ok events
   ∧ sampleSource "B" ["x"] ∈ moveSources
   ∧ entitiesOfSource "B" (storedTasks moveWorld) = []
   ∧ {| item_identifier := "x"; item_spec := "spec" |}
     ∈ source_items (sampleSource "B" ["x"])
   ∧ ingestEventsFor "x" events = [])
  ∧ (let events := [TaskIngest (sampleIngestEvent 2 "N2" "x")] in
     (ingestSources twoNewSources sampleOptions newSourceWorld).1 = Ok events
     ∧ sampleSource "N1" ["x"] ∈ twoNewSources
     ∧ entitiesOfSource "N1" (storedTasks newSourceWorld) = []
     ∧ {| item_identifier := "x"; item_spec := "spec" |}
       ∈ source_items (sampleSource "N1" ["x"])
     ∧ ingestEventsFor "x" events = [sampleIngestEvent 2 "N2" "x"]
     ∧ prov_identifier (tie_provenance (sampleIngestEvent 2 "N2" "x"))
       ≠ "N1").
Proof.
  split.
  - split_and!; [by vm_compute|right; left|by vm_compute|left|done].
  - split_and!; [by vm_compute|left|by vm_compute|left|by vm_compute|done].
Qed.

(** X15: a delete event of a result is for a stored task of a source of
    the call that no longer lists the task's item identifier, and no
    source of the call lists that identifier without having a stored task
    for it. *)
Theorem delete_events_come_from_dropped_items sources opts w events w' ev :
  ingestSources sources opts w = (Ok events, w') →
  TaskUpdateDeleted ev ∈ events →
  ∃ source e k,
    source ∈ sources ∧ e ∈ storedTasks w
    ∧ fromSource (source_identifier source) e
    ∧ tde_entityID ev = task_id e
    ∧ itemIdentifierOf e = Some k
    ∧ (k ∉ incomingItemIdentifiers source)
    ∧ ∀ s, s ∈ sources → ¬ onlyIncoming (storedTasks w) s k.
Proof.
  intros (I & D & wc & I' & D' & U & Hclassify & Hmoves & ->)%ingestSources_Ok.
  pose proof (classifySources_spec _ _ _ _ _ _ _ Hclassify)
    as (_ & HndI & HndD & _).
  pose proof (detectMoves_spec _ _ _ _ _ _ _ HndI HndD Hmoves)
    as (_ & _ & HndD' & _ & HgD' & _).
  unfold concatEvents. rewrite !elem_of_app, !list_elem_of_fmap.
  intros [(? & [=] & _)|[(ev' & [= <-] & Hin)|(? & [=] & _)]].
  apply elem_of_values in Hin as [k Hk]; [|done].
  rewrite HgD' in Hk. case_decide as HkI; [done|].
  destruct (classified_delete _ _ _ _ _ _ _ _ _ Hclassify Hk)
    as (s & e & Hs & He & Hfrom & Hkey & [_ Hout] & Hid & _).
  exists s, e, k. split_and!; try done.
  intros s' Hs' Hnew. apply HkI.
  apply (classified_keys_I _ _ _ _ _ _ _ _ Hclassify). by exists s'.
Qed.

Lemma delete_events_come_from_dropped_items_witness :
  ∃ source e k,
    source ∈ reingestSources ∧ e ∈ storedTasks reingestWorld
    ∧ fromSource (source_identifier source) e
    ∧ tde_entityID (sampleDeleteEvent 2 "task-a") = task_id e
    ∧ itemIdentifierOf e = Some k
    ∧ (k ∉ incomingItemIdentifiers source)
    ∧ ∀ s, s ∈ reingestSources →
           ¬ onlyIncoming (storedTasks reingestWorld) s k.
Proof.
  apply (delete_events_come_from_dropped_items reingestSources sampleOptions
           reingestWorld reingestEvents (afterDraws 3 reingestWorld)).
  - by vm_compute.
  - right. left.
Defined.

(** ** Grouping loses nothing *)

Lemma concat_values_set_append {A} (m : JSMap.t (list A)) k v x :
  JSMap.get k m = Some v →
  concat (JSMap.values (JSMap.set k (v ++ x) m))
  ≡ₚ concat (JSMap.values m) ++ x.
Proof.
  unfold JSMap.values. induction m as [|[k' v'] m IH]; simpl; [done|].
  case_eqb.
  - intros [= ->]. csimpl. rewrite <- !app_assoc. f_equiv.
    apply app_Permutation_comm.
  - intros Hk. csimpl. rewrite IH by done. by rewrite app_assoc.
Qed.

(** X16: [groupEntitiesByProvenanceIdentifiers] makes one group per
    provenance identifier, none of them empty, each listing the tasks
    with that identifier in their order; together the groups hold every
    task with provenance once, and no other task. *)
Theorem groupEntitiesByProvenanceIdentifiers_partition entities :
  let G := groupEntitiesByProvenanceIdentifiers entities in
  NoDup (JSMap.keys G)
  ∧ (∀ i group,
       (i, group) ∈ JSMap.entries G
       ↔ group ≠ [] ∧ group = entitiesOfSource i entities)
  ∧ concat (JSMap.values G) ≡ₚ filter hasProvenance entities.
Proof.
  cbv zeta.
  assert (NoDup (JSMap.keys (groupEntitiesByProvenanceIdentifiers entities))
          ∧ concat (JSMap.values
                      (groupEntitiesByProvenanceIdentifiers entities))
            ≡ₚ filter hasProvenance entities) as [Hnd Hperm].
  { unfold groupEntitiesByProvenanceIdentifiers.
    induction entities as [|e es [IHnd IHperm]] using rev_ind;
      [split; [apply NoDup_nil_2|done]|].
    rewrite fold_left_app, filter_app, filter_cons, filter_nil.
    cbn [fold_left]. set (G := fold_left _ es _) in *.
    destruct (decide (hasProvenance e)) as [[p Hp]|Hp].
    - rewrite Hp.
      destruct (JSMap.get (prov_identifier p) G) as [existing|] eqn:Hget.
      + split; [by apply NoDup_keys_set|].
        by rewrite concat_values_set_append, IHperm.
      + split; [by apply NoDup_keys_set|].
        rewrite (set_fresh _ _ _ Hget). unfold JSMap.values in *.
        by rewrite fmap_app, concat_app, IHperm.
    - unfold hasProvenance in Hp.
      destruct (task_provenance e) as [p|]; [by destruct Hp|].
      by rewrite app_nil_r. }
  split_and!; [done| |done].
  intros i group. unfold JSMap.entries. split.
  - intros Hin%elem_of_get_Some; [|done].
    rewrite groupEntitiesByProvenanceIdentifiers_get in Hin.
    destruct (entitiesOfSource i entities); by simplify_eq.
  - intros [Hne ->]. apply get_Some_elem_of.
    rewrite groupEntitiesByProvenanceIdentifiers_get.
    by destruct (entitiesOfSource i entities).
Qed.

(** ** The first ingest of a source *)

Lemma afterDraws_afterDraws m n w :
  afterDraws m (afterDraws n w) = afterDraws (m + n) w.
Proof. unfold afterDraws. simpl. f_equal. lia. Qed.

Lemma nthIngestEvent_afterDraws source t w j item :
  nthIngestEvent source t (afterDraws 2 w) j item
  = nthIngestEvent source t w (S j) item.
Proof.
  unfold nthIngestEvent. simpl.
  by replace (j + (j + 0) + S (S (idsDrawn w)))
    with (S (j + S (j + 0) + idsDrawn w)) by lia.
Qed.

(** The loop over the items of a source without existing entities, when
    the identifiers of the items are distinct and new to the map. *)
Lemma forOf_ingest_new source t items (acc : JSMap.t TaskIngestEvent) w :
  NoDup (JSMap.keys acc ++ (item_identifier <$> items)) →
  forOf
    (λ ingestEvents item,
       ingestEvent ← createIngestTaskForSource source t item;
       ret (JSMap.set (item_identifier item) ingestEvent ingestEvents))
    items acc w
  = (Ok (acc ++ imap (λ j item, (item_identifier item,
                                 nthIngestEvent source t w j item)) items),
     afterDraws (2 * length items) w).
Proof.
  revert acc w. induction items as [|x items IH]; intros acc w Hnd.
  - simpl. rewrite app_nil_r. by destruct w.
  - cbn [forOf]. rewrite bind_unfold.
    change ((ingestEvent ← createIngestTaskForSource source t x;
             ret (JSMap.set (item_identifier x) ingestEvent acc)) w)
      with (Ok (JSMap.set (item_identifier x)
                  (nthIngestEvent source t w 0 x) acc),
            afterDraws 2 w).
    cbv beta iota. rewrite set_fresh.
    2:{ apply get_None. apply NoDup_app in Hnd as (_ & Hdisj & _).
        intros Hin. apply (Hdisj _ Hin). left. }
    rewrite IH.
    2:{ unfold JSMap.keys in *. rewrite fmap_app, <- app_assoc. done. }
    rewrite <- app_assoc, afterDraws_afterDraws. f_equal; [f_equal|].
    + rewrite imap_cons. cbn [app]. do 2 f_equal. apply imap_ext.
      intros j item _. simpl. by rewrite nthIngestEvent_afterDraws.
    + f_equal. simpl. lia.
Qed.

(** Without delete events there are no moves. *)
Lemma detectMoves_no_deletes I w :
  detectMoves (I, JSMap.empty) w = (Ok (I, JSMap.empty, []), w).
Proof.
  unfold detectMoves. cbn [fst snd]. generalize (JSMap.entries I).
  intros entries. induction entries as [|[k ev] entries IH]; [done|].
  cbn [forOf]. by rewrite bind_unfold.
Qed.

(** X17: the first ingest of a source. A call with one source that has
    no stored tasks and lists distinct identifiers returns one ingest
    event per item, in the order of the items; the [j]-th carries the
    item's spec and identifier, the provenance of the source, the ingest
    date, and the two identifiers drawn for it. The call draws two
    identifiers per item and changes nothing else. *)
Theorem first_ingest_of_a_source source opts w :
  entitiesOfSource (source_identifier source) (storedTasks w) = [] →
  NoDup (incomingItemIdentifiers source) →
  ingestSources [source] opts w
  = (Ok (TaskIngest
           <$> imap (nthIngestEvent source (ingestDateOf opts w) w)
                 (source_items source)),
     afterDraws (2 * length (source_items source)) w).
Proof.
  intros Hnew Hnd. rewrite ingestSources_unfold, bind_unfold.
  unfold classifySources. cbn [forOf]. rewrite bind_unfold.
  unfold ingestSource.
  rewrite groupEntitiesByProvenanceIdentifiers_get, Hnew.
  rewrite bind_unfold, forOf_ingest_new by done.
  cbn [ret mret M_ret]. rewrite bind_unfold.
  cbn [app JSMap.empty]. rewrite detectMoves_no_deletes.
  unfold concatEvents, JSMap.values. cbn [ret mret M_ret].
  by rewrite fmap_nil, !app_nil_r, fmap_imap.
Qed.

Lemma first_ingest_of_a_source_witness :
  ingestSources [sampleSource "N" ["p"; "q"]] sampleOptions newSourceWorld
  = (Ok (TaskIngest
           <$> imap (nthIngestEvent (sampleSource "N" ["p"; "q"])
                       (ingestDateOf sampleOptions newSourceWorld)
                       newSourceWorld)
                 (source_items (sampleSource "N" ["p"; "q"]))),
     afterDraws (2 * length (source_items (sampleSource "N" ["p"; "q"])))
       newSourceWorld).
Proof.
  apply first_ingest_of_a_source.
  - by vm_compute.
  - compute_done.
Defined.

(** ** Which error a call throws *)

(** A source passes the loop over the sources, whatever was collected
    before it, when its stored tasks carry their item identifiers and,
    if it has stored tasks, its items have distinct identifiers. *)
Lemma ingestSource_passes entities t maps s w :
  (∀ e, e ∈ entities → fromSource (source_identifier s) e →
        truthy (itemIdentifierOf e) = true) →
  (entitiesOfSource (source_identifier s) entities ≠ [] →
   NoDup (incomingItemIdentifiers s)) →
  ∃ maps' w',
    ingestSource (groupEntitiesByProvenanceIdentifiers entities) t maps s w
    = (Ok maps', w').
Proof.
  intros Hkeys Hnodup. destruct maps as [I D]. unfold ingestSource.
  rewrite groupEntitiesByProvenanceIdentifiers_get.
  destruct (entitiesOfSource (source_identifier s) entities)
    as [|e0 g] eqn:Hg.
  - destruct (forOf_total
                (λ ingestEvents item,
                   ingestEvent ← createIngestTaskForSource s t item;
                   ret (JSMap.set (item_identifier item) ingestEvent
                          ingestEvents))
                (source_items s) I w) as (I1 & w2 & HI1).
    { intros. by eexists _, _. }
    exists (I1, D), w2. apply bind_Ok. by exists I1, w2.
  - destruct (mapEntitiesByItemIdentifier_total (e0 :: g)) as [E HE].
    { intros e He. rewrite <- Hg in He.
      apply elem_of_entitiesOfSource in He as [Hfrom He]. by apply Hkeys. }
    pose proof (mapIngestibleItemsByItemIdentifier_total (source_items s))
      as HN.
    rewrite HE, HN by by apply Hnodup.
    rewrite bind_unfold. cbn [liftResult]. rewrite bind_unfold.
    cbn [liftResult].
    set (N := itemEntry <$> source_items s).
    destruct (forOf_total
                (λ ingestEvents '(key, potentialNewItem),
                   match JSMap.get key E with
                   | None =>
                       ev ← createIngestTaskForSource s t potentialNewItem;
                       ret (JSMap.set key ev ingestEvents)
                   | Some _ => ret ingestEvents
                   end)
                (JSMap.entries N) I w) as (I1 & w2 & HI1).
    { intros a [k item] w3. destruct (JSMap.get k E); by eexists _, _. }
    destruct (forOf_total
                (λ deleteEvents '(key, existingTask),
                   match JSMap.get key N with
                   | None =>
                       ev ← createDeleteTaskEvent existingTask t;
                       ret (JSMap.set key ev deleteEvents)
                   | Some _ => ret deleteEvents
                   end)
                (JSMap.entries E) D w2) as (D1 & w3 & HD1).
    { intros a [k e] w4. destruct (JSMap.get k N); by eexists _, _. }
    exists (I1, D1), w3.
    apply bind_Ok. exists I1, w2. split; [done|].
    apply bind_Ok. by exists D1, w3.
Qed.

(** X18: the first source that cannot be processed decides the error of
    a call. When the sources before it pass, a source with a stored task
    that lacks its item identifier makes the call throw
    [MissingItemIdentifierError], and a source with stored tasks, all
    carrying their item identifiers, whose items repeat an identifier
    makes it throw [DuplicateItemIdentifierError] for the first repeated
    identifier, whatever the sources after it are. *)
Theorem first_failing_source_decides earlier source later opts w :
  (∀ s, s ∈ earlier →
     (∀ e, e ∈ storedTasks w → fromSource (source_identifier s) e →
           truthy (itemIdentifierOf e) = true)
     ∧ (entitiesOfSource (source_identifier s) (storedTasks w) ≠ [] →
        NoDup (incomingItemIdentifiers s))) →
  ((∃ e, e ∈ storedTasks w ∧ fromSource (source_identifier source) e
         ∧ truthy (itemIdentifierOf e) = false) →
   (ingestSources (earlier ++ source :: later) opts w).1
   = Throw MissingItemIdentifierError)
  ∧ (∀ pre item post,
       entitiesOfSource (source_identifier source) (storedTasks w) ≠ [] →
       (∀ e, e ∈ storedTasks w → fromSource (source_identifier source) e →
             truthy (itemIdentifierOf e) = true) →
       source_items source = pre ++ item :: post →
       NoDup (item_identifier <$> pre) →
       item_identifier item ∈ item_identifier <$> pre →
       (ingestSources (earlier ++ source :: later) opts w).1
       = Throw (DuplicateItemIdentifierError (item_identifier item))).
Proof.
  intros Hearlier.
  destruct (forOf_total_elem_of
              (ingestSource
                 (groupEntitiesByProvenanceIdentifiers (storedTasks w))
                 (ingestDateOf opts w))
              earlier (JSMap.empty, JSMap.empty) w)
    as (maps & w1 & Hpre).
  { intros a s wa Hs. destruct (Hearlier s Hs) as [Hkeys Hnd].
    by apply ingestSource_passes. }
  assert (Hrun : ∀ err w2,
    ingestSource (groupEntitiesByProvenanceIdentifiers (storedTasks w))
      (ingestDateOf opts w) maps source w1 = (Throw err, w2) →
    (ingestSources (earlier ++ source :: later) opts w).1 = Throw err).
  { intros err w2 Hs. apply ingestSources_Throw_classify.
    unfold classifySources. rewrite forOf_app, bind_unfold, Hpre.
    cbn [forOf]. by rewrite bind_unfold, Hs. }
  split.
  - intros (e & He & Hfrom & Ht). apply (Hrun _ w1).
    by apply (ingestSource_missing _ _ _ _ _ e).
  - intros pre item post Hne Hall Hitems Hnd Hin. apply (Hrun _ w1).
    destruct maps as [I D]. unfold ingestSource.
    rewrite groupEntitiesByProvenanceIdentifiers_get.
    destruct (entitiesOfSource (source_identifier source) (storedTasks w))
      as [|e0 g] eqn:Hg; [done|].
    destruct (mapEntitiesByItemIdentifier_total (e0 :: g)) as [E HE].
    { intros e He. rewrite <- Hg in He.
      apply elem_of_entitiesOfSource in He as [Hfrom He]. by apply Hall. }
    rewrite HE, Hitems.
    rewrite (mapIngestibleItemsByItemIdentifier_Throw_at _ _ _ Hnd Hin).
    rewrite bind_unfold. cbn [liftResult]. by rewrite bind_unfold.
Qed.

Lemma first_failing_source_decides_witness :
  let earlier := [sampleSource "N" ["p"]] in
  let source := sampleSource "S1" ["x"; "x"] in
  let later := [sampleSource "S2" []] in
  ((∃ e, e ∈ storedTasks duplicateFirstWorld
         ∧ fromSource (source_identifier source) e
         ∧ truthy (itemIdentifierOf e) = false) →
   (ingestSources (earlier ++ source :: later) sampleOptions
      duplicateFirstWorld).1
   = Throw MissingItemIdentifierError)
  ∧ (∀ pre item post,
       entitiesOfSource (source_identifier source)
         (storedTasks duplicateFirstWorld) ≠ [] →
       (∀ e, e ∈ storedTasks duplicateFirstWorld →
             fromSource (source_identifier source) e →
             truthy (itemIdentifierOf e) = true) →
       source_items source = pre ++ item :: post →
       NoDup (item_identifier <$> pre) →
       item_identifier item ∈ item_identifier <$> pre →
       (ingestSources (earlier ++ source :: later) sampleOptions
          duplicateFirstWorld).1
       = Throw (DuplicateItemIdentifierError (item_identifier item))).
Proof.
  apply (first_failing_source_decides [sampleSource "N" ["p"]]
           (sampleSource "S1" ["x"; "x"]) [sampleSource "S2" []]
           sampleOptions duplicateFirstWorld).
  intros s ->%list_elem_of_singleton. split.
  - intros e He. revert e He.
    apply (proj1 (Forall_forall
             (λ e, fromSource (source_identifier (sampleSource "N" ["p"])) e
                   → truthy (itemIdentifierOf e) = true) _)).
    compute_done.
  - intros _. compute_done.
Defined.

(** ** The API app *)

Lemma substring_0_length s : String.substring 0 (String.length s) s = s.
Proof. induction s as [|c s IH]; simpl; [done|]. by rewrite IH. Qed.

Lemma startsWith_append s prefix :
  startsWith s prefix = true ↔ ∃ rest, s = prefix +:+ rest.
Proof.
  unfold startsWith. revert s.
  induction prefix as [|c prefix IH]; intros [|c' s]; simpl.
  - split; [by exists ""|done].
  - split; [by exists (String c' s)|done].
  - split; [done|]. by intros [rest [=]].
  - destruct (Ascii.ascii_dec c c') as [->|Hne].
    + rewrite IH. split; intros [rest Hrest]; exists rest.
      * by rewrite Hrest.
      * by injection Hrest.
    + split; [done|]. intros [rest [= ? _]]. done.
Qed.

Lemma slice_append prefix rest :
  slice (prefix +:+ rest) (String.length prefix) = rest.
Proof.
  unfold slice. induction prefix as [|c prefix IH]; simpl.
  - rewrite Nat.sub_0_r. apply substring_0_length.
  - apply IH.
Qed.

(** X19: the middleware of the API app gives a request that came through
    the hosting mount point the url it has without the prefix [/api],
    whatever follows the prefix, and it leaves every other request as it
    is: one without the header [x-forwarded-host] (or with an empty one)
    and one whose url does not start with the prefix. *)
Theorem removeMountPrefix_spec request :
  (∀ path,
     truthy (request_forwardedHost request) = true →
     request_url request = "/api" +:+ path →
     request_url (removeMountPrefix request) = path)
  ∧ (truthy (request_forwardedHost request) = false
     ∨ (∀ path, request_url request ≠ "/api" +:+ path) →
     removeMountPrefix request = request)
  ∧ request_forwardedHost (removeMountPrefix request)
    = request_forwardedHost request.
Proof.
  unfold removeMountPrefix. split_and!.
  - intros path -> ->.
    rewrite (proj2 (startsWith_append _ "/api")) by by exists path.
    cbn [andb request_url]. apply (slice_append "/api").
  - intros [->|Hurl]; [done|].
    destruct (startsWith (request_url request) "/api") eqn:Hstarts.
    + apply startsWith_append in Hstarts as [rest Hrest].
      by destruct (Hurl rest).
    + by rewrite andb_false_r.
  - by destruct (_ && _).
Qed.
